(** * hobbes/net.H : structured communication between processes

    A shallow embedding of the type-directed serializer [io<T>], of the session
    handshake [initSession] and of the synchronous and asynchronous RPC stubs
    of [include/hobbes/net.H].

    Conventions of the embedding:
    - a socket is a record holding the bytes written so far, the bytes the
      peer has sent and that were not consumed yet, whether the peer has
      closed its side, the O_NONBLOCK bit and whether [send] fails;
    - code that may throw [std::runtime_error] runs in a state-and-error monad
      over the socket: the effects on the socket made before a throw stay;
    - the object representation of a scalar is the list of its bytes, host
      order being little-endian; [size_t] is 8 bytes wide (LP64), where
      [io<size_t>] is the [io<uint64_t>] instance. *)

From Stdlib Require Import String Ascii DecimalString Strings.Byte.
From Stdlib Require Import List NArith ZArith Lia Bool.
Import ListNotations.

Set Warnings "-register-all".

(* ================================================================== *)
(** * Bytes and fixed-width integers *)

Module Bytes.

Definition byte_of_N (n : N) : byte :=
  match Byte.of_N (n mod 256) with
  | Some b => b
  | None => x00
  end.

(** The [w] bytes of the object representation of an unsigned integer. *)
Fixpoint le_encode (w : nat) (n : N) : list byte :=
  match w with
  | O => []
  | S w' => byte_of_N n :: le_encode w' (n / 256)
  end.

(** The unsigned integer a run of bytes stands for. *)
Fixpoint le_decode (bs : list byte) : N :=
  match bs with
  | [] => 0
  | b :: bs' => Byte.to_N b + 256 * le_decode bs'
  end.

Definition len {A : Type} (l : list A) : N := N.of_nat (List.length l).

(** [memcpy(dst + off, src, |src|)] within the object [dst]. *)
Definition blit (dst : list byte) (off : N) (src : list byte) : list byte :=
  firstn (N.to_nat off) dst ++ src ++ skipn (N.to_nat off + List.length src) dst.

(** Cut a buffer into objects of [w] bytes each. *)
Fixpoint chunks (w : nat) (n : nat) (bs : list byte) : list (list byte) :=
  match n with
  | O => []
  | S n' => firstn w bs :: chunks w n' (skipn w bs)
  end.

End Bytes.
Import Bytes.

(** [size_t] arithmetic wraps around at 2^64. *)
Definition size_t_width : nat := 8.
Definition size_max : N := 2 ^ 64.
Definition size_mul (a b : N) : N := (a * b) mod size_max.
Definition size_sub (a b : N) : N := (size_max + a - b) mod size_max.
Definition size_add (a b : N) : N := (a + b) mod size_max.

(* ================================================================== *)
(** * Sockets and the socket monad *)

Record socket := mkSocket {
  outb        : list byte;  (* everything written to the peer so far *)
  inb         : list byte;  (* sent by the peer, not yet received *)
  peer_closed : bool;       (* the peer sends nothing after [inb] *)
  blocking    : bool;       (* O_NONBLOCK is clear *)
  send_fails  : bool        (* [send] returns -1 *)
}.

Inductive error :=
| ESend                 (* "Couldn't write to socket: ..." *)
| ERecv                 (* "Couldn't read socket: ..." *)
| EClosed               (* "Remote process closed session prematurely" *)
| EDefine (what : string) (* the message built by [initSession] *)
| EStall                (* a blocking [recv] that never returns *)
| EUndefined.           (* behaviour the sources leave undefined *)

Inductive result (A : Type) :=
| Ok (a : A)
| Err (e : error).
Arguments Ok {A} a.
Arguments Err {A} e.

Definition M (A : Type) : Type := socket -> result A * socket.

Definition ret {A} (a : A) : M A := fun s => (Ok a, s).
Definition throw {A} (e : error) : M A := fun s => (Err e, s).
Definition bind {A B} (m : M A) (k : A -> M B) : M B :=
  fun s => match m s with
           | (Ok a, s') => k a s'
           | (Err e, s') => (Err e, s')
           end.

Declare Scope net_scope.
Delimit Scope net_scope with net.
Notation "x <- m ;; k" := (bind m (fun x => k))
  (at level 61, m at next level, right associativity) : net_scope.
Notation "' p <- m ;; k" := (bind m (fun x => match x with p => k end))
  (at level 61, p pattern, m at next level, right associativity) : net_scope.
Notation "m ;;; k" := (bind m (fun _ => k))
  (at level 61, right associativity) : net_scope.
Open Scope net_scope.

Definition put_out (d : list byte) : M unit :=
  fun s => (Ok tt, mkSocket (outb s ++ d) (inb s) (peer_closed s) (blocking s) (send_fails s)).
Definition set_inb (l : list byte) (s : socket) : socket :=
  mkSocket (outb s) l (peer_closed s) (blocking s) (send_fails s).

(* ================================================================== *)
(** * Basic socket I/O *)

(** [sendData]: loops over short writes; throws when [send] fails. *)
Definition sendData (d : list byte) : M unit :=
  fun s => match d with
           | [] => (Ok tt, s)
           | _ => if send_fails s then (Err ESend, s) else put_out d s
           end.

(** [recvData]: loops until [sz] bytes are in; throws when the peer closed.
    On a socket left non-blocking, running dry makes [recv] fail with EAGAIN,
    which is thrown; on a blocking one that the peer keeps open, it waits. *)
Definition recvData (sz : N) : M (list byte) :=
  fun s =>
    if (sz =? 0)%N then (Ok [], s)
    else if (sz <=? len (inb s))%N
    then (Ok (firstn (N.to_nat sz) (inb s)), set_inb (skipn (N.to_nat sz) (inb s)) s)
    else (Err (if peer_closed s then EClosed
               else if blocking s then EStall else ERecv),
          set_inb [] s).

(** [recvDataPartial]: one [recv]; 0 when nothing is there yet. *)
Definition recvDataPartial (sz : N) : M (list byte) :=
  fun s =>
    match inb s with
    | [] => if peer_closed s then (Err EClosed, s)
            else if blocking s then (Err EStall, s)
            else (Ok [], s)
    | _ => if (sz =? 0)%N then (Err EClosed, s)
           else let n := N.to_nat (N.min sz (len (inb s))) in
                (Ok (firstn n (inb s)), set_inb (skipn n (inb s)) s)
    end.

Definition setBlockingBit (block : bool) : M unit :=
  fun s => (Ok tt, mkSocket (outb s) (inb s) (peer_closed s) block (send_fails s)).

Definition send_size (n : N) : M unit := sendData (le_encode size_t_width n).
Definition recv_size : M N :=
  bs <- recvData (N.of_nat size_t_width) ;; ret (le_decode bs).

Definition sendString (x : string) : M unit :=
  let n := len (list_byte_of_string x) in
  send_size n ;;; sendData (list_byte_of_string x).

Definition sendBytes (x : list byte) : M unit :=
  let n := len x in
  send_size n ;;;
  if (0 <? n)%N then sendData x else ret tt.

Definition recvString : M string :=
  n <- recv_size ;;
  bs <- recvData n ;;
  ret (string_of_list_byte bs).

(* ================================================================== *)
(** * Session initiation *)

Definition HNET_VERSION : N := 65536.          (* 0x00010000 *)
Definition HNET_CMD_DEFEXPR : byte := x00.
Definition HNET_CMD_INVOKE : byte := x02.
Definition HNET_RESULT_FAIL : byte := x00.

Record RPCDef := mkRPCDef {
  id      : N;          (* uint32_t *)
  expr    : string;
  willPut : list byte;
  willGet : list byte
}.

Definition decimal (n : N) : string := NilEmpty.string_of_uint (N.to_uint n).

(** The text of the exception thrown when a definition is refused. *)
Definition define_failure (rpcd : RPCDef) (err : string) : string :=
  ("While trying to define '" ++ expr rpcd ++ "' with id=" ++ decimal (id rpcd)
     ++ ": " ++ err)%string.

Fixpoint defineAll (rpcds : list RPCDef) : M unit :=
  match rpcds with
  | [] => ret tt
  | rpcd :: rest =>
      sendData [HNET_CMD_DEFEXPR] ;;;
      sendData (le_encode 4 (id rpcd)) ;;;
      sendString (expr rpcd) ;;;
      sendBytes (willPut rpcd) ;;;
      sendBytes (willGet rpcd) ;;;
      r <- recvData 1 ;;
      match r with
      | [b] => if Byte.eqb b HNET_RESULT_FAIL
               then err <- recvString ;; throw (EDefine (define_failure rpcd err))
               else defineAll rest
      | _ => throw EUndefined
      end
  end.

Definition initSession (rpcds : list RPCDef) : M unit :=
  sendData (le_encode 4 HNET_VERSION) ;;; defineAll rpcds.

(* ================================================================== *)
(** * Type descriptions *)

(** Modelled from the spec: the [ty::] constructors of [reflect.H], which is
    not among the sources, are the free constructors of the descriptor tree
    ([ty::prim], [ty::array], [ty::nat], [ty::record], [ty::variant],
    [ty::enumdef]). *)
Inductive desc :=
| DPrim (n : string) (rep : option desc)
| DArray (t : desc)
| DFixedArray (t : desc) (n : desc)
| DNat (n : N)
| DRecord (fs : list (string * Z * desc))
| DVariant (cs : list (string * Z * desc))
| DEnum (rep : desc) (meta : list (string * N)).

Module ty.
Definition prim (n : string) : desc := DPrim n None.
Definition alias (n : string) (t : desc) : desc := DPrim n (Some t).
Definition array (t : desc) : desc := DArray t.
Definition fixed_array (t n : desc) : desc := DFixedArray t n.
Definition nat (n : N) : desc := DNat n.
Definition record (fs : list (string * Z * desc)) : desc := DRecord fs.
Definition variant (cs : list (string * Z * desc)) : desc := DVariant cs.
Definition enumdef (rep : desc) (meta : list (string * N)) : desc := DEnum rep meta.
(** Modelled from the spec: [ty::tup(-1, a, -1, b)] is the record of the
    positional fields [.f0] and [.f1] with the given offsets. *)
Definition tup (o0 : Z) (a : desc) (o1 : Z) (b : desc) : desc :=
  DRecord [(".f0"%string, o0, a); (".f1"%string, o1, b)].
End ty.

(* ================================================================== *)
(** * The shapes [io<T>] is specialised for *)

Inductive prim :=
| Tbool | Tuint8 | Tchar | Tint16 | Tuint16 | Tint32 | Tuint32
| Tint64 | Tuint64 | Tfloat | Tdouble.

(** The reflection data of user types ([T::meta], [T::name], [T::rep_t],
    [T::as_tuple_type], [T::as_variant_type]) is carried by the shape. *)
Inductive shape :=
| SPrim (p : prim)
| SUnit
| SEnum (rep : prim) (meta : list (string * N))
| SVariant (cs : shapes)
| SNamedVariant (ctors : list (string * Z)) (cs : shapes)
| SPair (U V : shape)
| SArray (T : shape) (n : N)
| SVector (T : shape)
| SMap (K T : shape)
| SString
| STuple (fs : shapes)
| SStruct (names : list string) (fs : shapes)
| SAlias (name : string) (RT : shape)
with shapes :=
| SNil
| SCons (h : shape) (t : shapes).

Scheme shape_ind2 := Induction for shape Sort Prop
  with shapes_ind2 := Induction for shapes Sort Prop.
Combined Scheme shape_shapes_ind from shape_ind2, shapes_ind2.

Fixpoint count (fs : shapes) : N :=
  match fs with
  | SNil => 0
  | SCons _ t => 1 + count t
  end.

Fixpoint nth_shape (fs : shapes) (i : nat) : option shape :=
  match fs, i with
  | SNil, _ => None
  | SCons h _, O => Some h
  | SCons _ t, S i' => nth_shape t i'
  end.

Definition prim_name (p : prim) : string :=
  match p with
  | Tbool => "bool" | Tuint8 => "byte" | Tchar => "char"
  | Tint16 => "short" | Tuint16 => "short"
  | Tint32 => "int" | Tuint32 => "int"
  | Tint64 => "long" | Tuint64 => "long"
  | Tfloat => "float" | Tdouble => "double"
  end%string.

Definition sizeof_prim (p : prim) : nat :=
  match p with
  | Tbool | Tuint8 | Tchar => 1
  | Tint16 | Tuint16 => 2
  | Tint32 | Tuint32 | Tfloat => 4
  | Tint64 | Tuint64 | Tdouble => 8
  end.

(** The [can_memcpy] members, specialisation by specialisation. *)
Definition variant_can_memcpy : bool := false.
Definition FixedArrMemcpyReadWrite_can_memcpy : bool := false.
Definition FixedArrIterReadWrite_can_memcpy : bool := false.

Fixpoint can_memcpy (T : shape) : bool :=
  match T with
  | SPrim _ => true
  | SUnit => false
  | SEnum _ _ => true
  | SVariant _ => variant_can_memcpy
  | SNamedVariant _ _ => variant_can_memcpy       (* io<VT>::can_memcpy *)
  | SPair _ _ => false
  | SArray T' _ => if can_memcpy T' then FixedArrMemcpyReadWrite_can_memcpy
                   else FixedArrIterReadWrite_can_memcpy
  | SVector _ => false
  | SMap _ _ => false
  | SString => false
  | STuple _ => false
  | SStruct _ _ => false
  | SAlias _ RT => can_memcpy RT                  (* io<RT>::can_memcpy *)
  end.

(** [sizeof(T)] for the shapes that are copied as raw memory: an enumeration
    and an alias hold one member, of the representation type. *)
Fixpoint sizeof (T : shape) : nat :=
  match T with
  | SPrim p => sizeof_prim p
  | SEnum rep _ => sizeof_prim rep
  | SAlias _ RT => sizeof RT
  | _ => 0
  end.

Definition field_name (i : N) : string := (".f" ++ decimal i)%string.

Section TypeOf.

Fixpoint named_fields (names : list string) (ts : list desc) : list (string * Z * desc) :=
  match names, ts with
  | n :: names', t :: ts' => (n, (-1)%Z, t) :: named_fields names' ts'
  | _, _ => []
  end.

Fixpoint named_ctors (ctors : list (string * Z)) (ts : list desc) : list (string * Z * desc) :=
  match ctors, ts with
  | (n, i) :: ctors', t :: ts' => (n, i, t) :: named_ctors ctors' ts'
  | _, _ => []
  end.

Fixpoint type_of (T : shape) : desc :=
  match T with
  | SPrim p => ty.prim (prim_name p)
  | SUnit => ty.prim "unit"
  | SEnum rep meta => ty.enumdef (ty.prim (prim_name rep)) meta
  | SVariant cs =>
      (* descVariantTy<0, n, Ts...>::type() : its own constructor, then the
         one [Recurse::ctorDefs] pushes *)
      match cs with
      | SNil => ty.prim "void"
      | SCons h t =>
          ty.variant ((field_name 0, 0%Z, type_of h) ::
                      match t with
                      | SNil => []
                      | SCons h' _ => [(field_name 1, 1%Z, type_of h')]
                      end)
      end
  | SNamedVariant ctors cs => ty.variant (named_ctors ctors (types_of cs))
  | SPair U V => ty.tup (-1)%Z (type_of U) (-1)%Z (type_of V)
  | SArray T' n => ty.fixed_array (type_of T') (ty.nat n)
  | SVector T' => ty.array (type_of T')
  | SMap K T' => ty.array (ty.tup (-1)%Z (type_of K) (-1)%Z (type_of T'))
  | SString => ty.array (ty.prim (prim_name Tchar))
  | STuple fs =>
      match fs with
      | SNil => ty.prim "unit"
      | _ => ty.record (accFields 0 fs)
      end
  | SStruct names fs => ty.record (named_fields names (types_of fs))
  | SAlias name RT => ty.alias name (type_of RT)
  end
with types_of (fs : shapes) : list desc :=
  match fs with
  | SNil => []
  | SCons h t => type_of h :: types_of t
  end
with accFields (i : N) (fs : shapes) : list (string * Z * desc) :=
  match fs with
  | SNil => []
  | SCons h t => (field_name i, (-1)%Z, type_of h) :: accFields (i + 1) t
  end.

(** [ty::encoding], of [reflect.H], is not among the sources: a parameter. *)
Variable encoding : desc -> list byte.

(** [RPCTyDef<R(Args...)>]; [None] stands for a [void] result. *)
Definition inputType (args : shapes) : list byte := encoding (type_of (STuple args)).
Definition outputType (R : option shape) : list byte :=
  match R with
  | Some T => encoding (type_of T)
  | None => encoding (ty.prim "unit")
  end.

(** [PRIV_HNET_CLIENT_MAKE_RPCDEF] *)
Definition makeRPCDef (exprid : N) (e : string) (R : option shape) (args : shapes) : RPCDef :=
  mkRPCDef exprid e (inputType args) (outputType R).

End TypeOf.

(* ================================================================== *)
(** * Values *)

(** What an object of each shape holds: a scalar (also an enumeration) is its
    bytes; an alias, a reflective struct and a named variant are what they are
    reinterpreted as (the aliased value, a tuple, a variant). *)
Inductive value :=
| VPrim (mem : list byte)
| VUnit
| VVariant (tag : N) (payload : value)
| VPair (first second : value)
| VArray (xs : list value)
| VVector (xs : list value)
| VMap (kvs : list (value * value))
| VString (cs : list byte)
| VTuple (fs : list value).

Definition mem_of (x : value) : list byte :=
  match x with
  | VPrim m => m
  | _ => []
  end.

(** The storage of a run of scalars, and back. *)
Definition flat_mem (xs : list value) : list byte := concat (map mem_of xs).
Definition unflat (w n : nat) (mem : list byte) : list value := map VPrim (chunks w n mem).

(** [std::vector::resize]; the allocation is taken to succeed. *)
Definition resize (n : N) (d : value) (xs : list value) : list value :=
  firstn (N.to_nat n) xs ++ repeat d (N.to_nat n - List.length xs).

(** [xs[i] = x] *)
Fixpoint update (xs : list value) (i : nat) (x : value) : list value :=
  match xs, i with
  | [], _ => []
  | _ :: xs', O => x :: xs'
  | y :: xs', S i' => y :: update xs' i' x
  end.

(** A value-initialised object [T()]. The default constructors of
    [variant] and [tuple] are in [reflect.H]: a variant is taken to start
    as its first constructor. No reader depends on it. *)
Fixpoint default_value (T : shape) : value :=
  match T with
  | SPrim p => VPrim (repeat x00 (sizeof_prim p))
  | SUnit => VUnit
  | SEnum rep _ => VPrim (repeat x00 (sizeof_prim rep))
  | SVariant cs => VVariant 0 (default_first cs)
  | SNamedVariant _ cs => VVariant 0 (default_first cs)
  | SPair U V => VPair (default_value U) (default_value V)
  | SArray T' n => VArray (repeat (default_value T') (N.to_nat n))
  | SVector _ => VVector []
  | SMap _ _ => VMap []
  | SString => VString []
  | STuple fs => VTuple (default_seq fs)
  | SStruct _ fs => VTuple (default_seq fs)
  | SAlias _ RT => default_value RT
  end
with default_first (cs : shapes) : value :=
  match cs with
  | SNil => VUnit
  | SCons h _ => default_value h
  end
with default_seq (fs : shapes) : list value :=
  match fs with
  | SNil => []
  | SCons h t => default_value h :: default_seq t
  end.

Fixpoint default_nth (cs : shapes) (i : nat) : value :=
  match cs, i with
  | SNil, _ => VUnit
  | SCons h _, O => default_value h
  | SCons _ t, S i' => default_nth t i'
  end.

(** [std::map<K,T>] as the list of its entries in iteration order, for a
    comparison [lt] (the map's [std::less<K>]). *)
Module StdMap.
Section Ops.
Variable lt : value -> value -> bool.

(** [m[k] = v] *)
Fixpoint assign (k v : value) (m : list (value * value)) : list (value * value) :=
  match m with
  | [] => [(k, v)]
  | (k', v') :: m' =>
      if lt k k' then (k, v) :: m
      else if lt k' k then (k', v') :: assign k v m'
      else (k', v) :: m'
  end.

(** [m.insert(std::pair<K,T>(k, v))] : keeps an entry that is there. *)
Fixpoint insert (k v : value) (m : list (value * value)) : list (value * value) :=
  match m with
  | [] => [(k, v)]
  | (k', v') :: m' =>
      if lt k k' then (k, v) :: m
      else if lt k' k then (k', v') :: insert k v m'
      else m
  end.


(** The keys are strictly increasing. *)
Fixpoint above (k : value) (m : list (value * value)) : bool :=
  match m with
  | [] => true
  | (k', _) :: m' => lt k k' && negb (lt k' k) && above k m'
  end.
Fixpoint sorted (m : list (value * value)) : bool :=
  match m with
  | [] => true
  | (k, _) :: m' => above k m' && sorted m'
  end.
End Ops.
End StdMap.

(* ================================================================== *)
(** * io<T> : writing and blocking reads *)

Section Codec.

(** [std::less<K>] of the keys of a [std::map<K,T>]: the comparisons of the
    key types are not part of [net.H]. *)
Variable key_lt : shape -> value -> value -> bool.

Definition ill {A} : M A := throw EUndefined.

Fixpoint forM_ {A} (f : A -> M unit) (xs : list A) : M unit :=
  match xs with
  | [] => ret tt
  | x :: xs' => f x ;;; forM_ f xs'
  end.

Fixpoint mapM (f : value -> M value) (xs : list value) : M (list value) :=
  match xs with
  | [] => ret []
  | x :: xs' => y <- f x ;; ys <- mapM f xs' ;; ret (y :: ys)
  end.

Definition take (n : N) (mem : list byte) : list byte := firstn (N.to_nat n) mem.

(** [sendData(s, &x, sizeof(x))] *)
Definition write_scalar (x : value) : M unit :=
  match x with
  | VPrim mem => sendData mem
  | _ => ill
  end.

(** [recvData(s, x, sizeof(T))] : every byte of the object is overwritten. *)
Definition read_scalar (w : nat) : M value :=
  bs <- recvData (N.of_nat w) ;; ret (VPrim bs).

Fixpoint write (T : shape) (x : value) {struct T} : M unit :=
  match T with
  | SPrim _ => write_scalar x
  | SUnit => ret tt
  | SEnum _ _ => write_scalar x
  | SVariant cs | SNamedVariant _ cs =>
      match x with
      | VVariant tag payload =>
          sendData (le_encode 4 tag) ;;; write_nth cs (N.to_nat tag) payload
      | _ => ill
      end
  | SPair U V =>
      match x with
      | VPair a b => write U a ;;; write V b
      | _ => ill
      end
  | SArray T' n =>
      match x with
      | VArray xs =>
          if can_memcpy T'
          then sendData (take (size_mul (N.of_nat (sizeof T')) n) (flat_mem xs))
          else forM_ (write T') xs
      | _ => ill
      end
  | SVector T' =>
      match x with
      | VVector xs =>
          let n := len xs in
          send_size n ;;;
          if can_memcpy T'
          then if (0 <? n)%N
               then sendData (take (size_mul (N.of_nat (sizeof T')) n) (flat_mem xs))
               else ret tt
          else forM_ (write T') xs
      | _ => ill
      end
  | SMap K T' =>
      match x with
      | VMap kvs =>
          send_size (len kvs) ;;;
          forM_ (fun xp : value * value => write K (fst xp) ;;; write T' (snd xp)) kvs
      | _ => ill
      end
  | SString =>
      match x with
      | VString cs => send_size (len cs) ;;; sendData cs
      | _ => ill
      end
  | STuple fs | SStruct _ fs =>
      match x with
      | VTuple xs => write_seq fs xs
      | _ => ill
      end
  | SAlias _ RT => write RT x
  end
with write_nth (cs : shapes) (i : nat) (x : value) {struct cs} : M unit :=
  match cs, i with
  | SNil, _ => ill
  | SCons h _, O => write h x
  | SCons _ t, S i' => write_nth t i' x
  end
with write_seq (fs : shapes) (xs : list value) {struct fs} : M unit :=
  match fs, xs with
  | SNil, _ => ret tt
  | SCons h t, x :: xs' => write h x ;;; write_seq t xs'
  | SCons _ _, [] => ill
  end.

(** [oSeq<Ts...>::write] *)
Definition oSeq_write (ts : shapes) (xs : list value) : M unit := write_seq ts xs.

(** The loop of [io<std::map<K,T>>::read]. *)
Fixpoint read_entries (lt : value -> value -> bool) (rdK rdT : M value) (n : nat)
    (m : list (value * value)) : M (list (value * value)) :=
  match n with
  | O => ret m
  | S n' =>
      k <- rdK ;;
      t <- rdT ;;
      read_entries lt rdK rdT n' (StdMap.assign lt k t m)
  end.

Fixpoint read (T : shape) (x : value) {struct T} : M value :=
  match T with
  | SPrim p => read_scalar (sizeof_prim p)
  | SUnit => ret x
  | SEnum rep _ => read_scalar (sizeof_prim rep)
  | SVariant cs | SNamedVariant _ cs =>
      tagv <- read_scalar 4 ;;
      let tag := le_decode (mem_of tagv) in
      payload <- read_nth cs (N.to_nat tag) ;;
      ret (VVariant tag payload)
  | SPair U V =>
      match x with
      | VPair a b => a' <- read U a ;; b' <- read V b ;; ret (VPair a' b')
      | _ => ill
      end
  | SArray T' n =>
      match x with
      | VArray xs =>
          if can_memcpy T'
          then bs <- recvData (size_mul (N.of_nat (sizeof T')) n) ;;
               ret (VArray (unflat (sizeof T') (N.to_nat n) (blit (flat_mem xs) 0 bs)))
          else xs' <- mapM (read T') xs ;; ret (VArray xs')
      | _ => ill
      end
  | SVector T' =>
      match x with
      | VVector xs =>
          n <- recv_size ;;
          let xs1 := resize n (default_value T') xs in
          if can_memcpy T'
          then if (0 <? n)%N
               then bs <- recvData n ;;
                    ret (VVector (unflat (sizeof T') (N.to_nat n) (blit (flat_mem xs1) 0 bs)))
               else ret (VVector xs1)
          else xs' <- mapM (read T') xs1 ;; ret (VVector xs')
      | _ => ill
      end
  | SMap K T' =>
      match x with
      | VMap m =>
          n <- recv_size ;;
          m' <- read_entries (key_lt K) (read K (default_value K))
                  (read T' (default_value T')) (N.to_nat n) m ;;
          ret (VMap m')
      | _ => ill
      end
  | SString =>
      n <- recv_size ;;
      bs <- recvData n ;;
      ret (VString bs)
  | STuple fs | SStruct _ fs =>
      match x with
      | VTuple xs => xs' <- read_seq fs xs ;; ret (VTuple xs')
      | _ => ill
      end
  | SAlias _ RT => read RT x
  end
with read_nth (cs : shapes) (i : nat) {struct cs} : M value :=
  match cs, i with
  | SNil, _ => ill
  | SCons h _, O => read h (default_value h)
  | SCons _ t, S i' => read_nth t i'
  end
with read_seq (fs : shapes) (xs : list value) {struct fs} : M (list value) :=
  match fs, xs with
  | SNil, _ => ret xs
  | SCons h t, x :: xs' => y <- read h x ;; ys <- read_seq t xs' ;; ret (y :: ys)
  | SCons _ _, [] => ill
  end.

End Codec.

(* ================================================================== *)
(** * io<T> : resumable reads *)

Inductive ReadS := LenS | KS | TS.

(** The [async_read_state] structures. [RFresh] is storage that was just
    value-initialised ([new (rs) RSType()]): every field of it reads as zero. *)
Inductive rstate :=
| RFresh
| RCount (n : N)                                         (* uint8_t *)
| RBytes (bytesRead : N)                                 (* FixedArrMemcpyReadWrite *)
| RVariant (readTag : bool) (tagState : rstate) (ptag : N) (payloadState : rstate)
| RPair (readFirst : bool) (fstState sndState : rstate)
| RArrIter (idx : N) (elemS : rstate)                    (* FixedArrIterReadWrite *)
| RLenBytes (readLen : bool) (lenS : rstate) (bytesRead byteLen : N)
| RVecIter (readLen : bool) (lenS : rstate) (idx : N) (elemS : rstate)
| RMap (readS : ReadS) (lenS : rstate) (len : N) (kS : rstate) (k : value)
       (tS : rstate) (t : value)
| RTuple (tag : N) (payload : rstate).

Module Field.
Definition ptag (o : rstate) : N := match o with RVariant _ _ n _ => n | _ => 0 end.
Definition payloadState (o : rstate) := match o with RVariant _ _ _ p => p | _ => RFresh end.
Definition fstState (o : rstate) := match o with RPair _ f _ => f | _ => RFresh end.
Definition sndState (o : rstate) := match o with RPair _ _ s => s | _ => RFresh end.
Definition elemS (o : rstate) :=
  match o with RArrIter _ e => e | RVecIter _ _ _ e => e | _ => RFresh end.
Definition idx (o : rstate) : N :=
  match o with RArrIter i _ => i | RVecIter _ _ i _ => i | _ => 0 end.
Definition readLen (o : rstate) : bool :=
  match o with RLenBytes b _ _ _ => b | RVecIter b _ _ _ => b | _ => false end.
Definition bytesRead (o : rstate) : N :=
  match o with RBytes n => n | RLenBytes _ _ n _ => n | _ => 0 end.
Definition byteLen (o : rstate) : N := match o with RLenBytes _ _ _ n => n | _ => 0 end.
Definition readS (o : rstate) : ReadS := match o with RMap r _ _ _ _ _ _ => r | _ => LenS end.
Definition len (o : rstate) : N := match o with RMap _ _ n _ _ _ _ => n | _ => 0 end.
Definition kS (o : rstate) := match o with RMap _ _ _ s _ _ _ => s | _ => RFresh end.
Definition tS (o : rstate) := match o with RMap _ _ _ _ _ s _ => s | _ => RFresh end.
Definition k (K : shape) (o : rstate) : value :=
  match o with RMap _ _ _ _ v _ _ => v | _ => default_value K end.
Definition t (T : shape) (o : rstate) : value :=
  match o with RMap _ _ _ _ _ _ v => v | _ => default_value T end.
End Field.

(** [prepare] sets the fields the source sets and leaves the others. *)
Fixpoint prepare (T : shape) (o : rstate) {struct T} : rstate :=
  match T with
  | SPrim _ => RCount 0
  | SUnit => o
  | SEnum _ _ => RCount 0
  | SVariant _ | SNamedVariant _ _ =>
      RVariant true (RCount 0) (Field.ptag o) (Field.payloadState o)
  | SPair U V => RPair true (prepare U (Field.fstState o)) (prepare V (Field.sndState o))
  | SArray T' _ =>
      if can_memcpy T' then RBytes 0
      else RArrIter 0 (prepare T' (Field.elemS o))
  | SVector T' =>
      if can_memcpy T'
      then RLenBytes true (RCount 0) (Field.bytesRead o) (Field.byteLen o)
      else RVecIter true (RCount 0) (Field.idx o) (Field.elemS o)
  | SMap K T' =>
      RMap LenS (RCount 0) (Field.len o) (Field.kS o) (Field.k K o) (Field.tS o) (Field.t T' o)
  | SString => RLenBytes true (RCount 0) (Field.bytesRead o) (Field.byteLen o)
  | STuple fs | SStruct _ fs => RTuple 0 (prepare_nth fs 0 RFresh)
  | SAlias _ RT => prepare RT o
  end
with prepare_nth (cs : shapes) (i : nat) (o : rstate) {struct cs} : rstate :=
  match cs, i with
  | SNil, _ => o
  | SCons h _, O => prepare h o
  | SCons _ t, S i' => prepare_nth t i' o
  end.

(** [std::string::resize] *)
Definition resize_bytes (n : N) (cs : list byte) : list byte :=
  firstn (N.to_nat n) cs ++ repeat x00 (N.to_nat n - length cs).

(** The accumulator of the scalars:
    [*o += recvDataPartial(s, x + *o, sizeof(T) - *o); return *o == sizeof(T);] *)
Definition accum_scalar (w : nat) (o : rstate) (x : value) : M (bool * rstate * value) :=
  match o with
  | RCount c =>
      bs <- recvDataPartial (size_sub (N.of_nat w) c) ;;
      let c' := ((c + len bs) mod 256)%N in
      ret ((c' =? N.of_nat w)%N, RCount c', VPrim (blit (mem_of x) c bs))
  | _ => throw EUndefined
  end.

(** [io<size_t>::accum(s, &o->lenS, &n)] on a [size_t] field [n]. *)
Definition accum_size (lenS : rstate) (n : N) : M (bool * rstate * N) :=
  r <- accum_scalar size_t_width lenS (VPrim (le_encode size_t_width n)) ;;
  ret (fst (fst r), snd (fst r), le_decode (mem_of (snd r))).

(** The [return] expressions at the end of the accumulators. *)
Definition lenbytes_done (o : rstate) : bool :=
  negb (Field.readLen o) && (Field.bytesRead o =? Field.byteLen o)%N.
Definition vector_done (o : rstate) (xs : list value) : bool :=
  negb (Field.readLen o) && (Field.idx o =? len xs)%N.
Definition map_done (o : rstate) : bool :=
  match Field.readS o with
  | LenS => false
  | _ => (Field.len o =? 0)%N
  end.

Section Resumable.

Variable key_lt : shape -> value -> value -> bool.

Fixpoint accum (T : shape) (o : rstate) (x : value) {struct T} : M (bool * rstate * value) :=
  match T with
  | SPrim p => accum_scalar (sizeof_prim p) o x
  | SUnit => ret (true, o, x)
  | SEnum rep _ => accum_scalar (sizeof_prim rep) o x
  | SVariant cs | SNamedVariant _ cs =>
      match o, x with
      | RVariant readTag tagState ptag payloadState, VVariant tag payload =>
          if readTag then
            r <- accum_scalar 4 tagState (VPrim (le_encode 4 tag)) ;;
            let '(done, tagState', tagv) := r in
            let tag' := le_decode (mem_of tagv) in
            if done
            then match nth_shape cs (N.to_nat tag') with
                 | Some C =>
                     ret (false,
                          RVariant false tagState' tag' (prepare C RFresh),
                          VVariant tag' (default_value C))
                 | None => ill
                 end
            else ret (false, RVariant true tagState' ptag payloadState, VVariant tag' payload)
          else
            r <- accum_nth cs (N.to_nat tag) payloadState payload ;;
            let '(done, payloadState', payload') := r in
            ret (done, RVariant false tagState ptag payloadState', VVariant tag payload')
      | _, _ => ill
      end
  | SPair U V =>
      match o, x with
      | RPair readFirst fstState sndState, VPair a b =>
          if readFirst then
            r <- accum U fstState a ;;
            let '(done, fstState', a') := r in
            ret (false, RPair (negb done) fstState' sndState, VPair a' b)
          else
            r <- accum V sndState b ;;
            let '(done, sndState', b') := r in
            ret (done, RPair false fstState sndState', VPair a b')
      | _, _ => ill
      end
  | SArray T' n =>
      match x with
      | VArray xs =>
          if can_memcpy T' then
            match o with
            | RBytes bytesRead =>
                let len_ := size_mul (N.of_nat (sizeof T')) n in
                bs <- recvDataPartial (size_sub len_ bytesRead) ;;
                let bytesRead' := size_add bytesRead (len bs) in
                ret ((bytesRead' =? len_)%N, RBytes bytesRead',
                     VArray (unflat (sizeof T') (length xs) (blit (flat_mem xs) bytesRead bs)))
            | _ => ill
            end
          else
            match o with
            | RArrIter idx elemS =>
                match nth_error xs (N.to_nat idx) with
                | Some xi =>
                    r <- accum T' elemS xi ;;
                    let '(done, elemS', xi') := r in
                    let o' := if done then RArrIter (size_add idx 1) (prepare T' elemS')
                              else RArrIter idx elemS' in
                    ret ((Field.idx o' =? n)%N, o', VArray (update xs (N.to_nat idx) xi'))
                | None => ill
                end
            | _ => ill
            end
      | _ => ill
      end
  | SVector T' =>
      match x with
      | VVector xs =>
          if can_memcpy T' then
            match o with
            | RLenBytes readLen lenS bytesRead byteLen =>
                if readLen then
                  r <- accum_size lenS byteLen ;;
                  let '(done, lenS', n) := r in
                  if done
                  then let o' := RLenBytes false lenS' 0 (size_mul (N.of_nat (sizeof T')) n) in
                       ret (lenbytes_done o', o', VVector (resize n (default_value T') xs))
                  else let o' := RLenBytes true lenS' bytesRead n in
                       ret (lenbytes_done o', o', VVector xs)
                else
                  bs <- recvDataPartial (size_sub byteLen bytesRead) ;;
                  let o' := RLenBytes false lenS (size_add bytesRead (len bs)) byteLen in
                  ret (lenbytes_done o', o',
                       VVector (unflat (sizeof T') (length xs) (blit (flat_mem xs) bytesRead bs)))
            | _ => ill
            end
          else
            match o with
            | RVecIter readLen lenS idx elemS =>
                if readLen then
                  r <- accum_size lenS idx ;;
                  let '(done, lenS', n) := r in
                  if done
                  then let xs' := resize n (default_value T') xs in
                       let o' := RVecIter false lenS' 0 (prepare T' elemS) in
                       ret (vector_done o' xs', o', VVector xs')
                  else let o' := RVecIter true lenS' n elemS in
                       ret (vector_done o' xs, o', VVector xs)
                else
                  match nth_error xs (N.to_nat idx) with
                  | Some xi =>
                      r <- accum T' elemS xi ;;
                      let '(done, elemS', xi') := r in
                      let o' := if done
                                then RVecIter false lenS (size_add idx 1) (prepare T' elemS')
                                else RVecIter false lenS idx elemS' in
                      let xs' := update xs (N.to_nat idx) xi' in
                      ret (vector_done o' xs', o', VVector xs')
                  | None => ill
                  end
            | _ => ill
            end
      | _ => ill
      end
  | SMap K T' =>
      match o, x with
      | RMap readS lenS len_ kS k tS t, VMap m =>
          match readS with
          | LenS =>
              r <- accum_size lenS len_ ;;
              let '(done, lenS', n) := r in
              let o' := if done then RMap KS lenS' n (prepare K kS) k tS t
                        else RMap LenS lenS' n kS k tS t in
              ret (map_done o', o', VMap m)
          | KS =>
              r <- accum K kS k ;;
              let '(done, kS', k') := r in
              let o' := if done then RMap TS lenS len_ kS' k' (prepare T' tS) t
                        else RMap KS lenS len_ kS' k' tS t in
              ret (map_done o', o', VMap m)
          | TS =>
              r <- accum T' tS t ;;
              let '(done, tS', t') := r in
              let o' := if done then RMap KS lenS (size_sub len_ 1) (prepare K kS) k tS' t'
                        else RMap TS lenS len_ kS k tS' t' in
              ret (map_done o', o',
                   VMap (if done then StdMap.insert (key_lt K) k t' m else m))
          end
      | _, _ => ill
      end
  | SString =>
      match o, x with
      | RLenBytes readLen lenS bytesRead byteLen, VString cs =>
          if readLen then
            r <- accum_size lenS byteLen ;;
            let '(done, lenS', n) := r in
            if done
            then let o' := RLenBytes false lenS' 0 n in
                 ret (lenbytes_done o', o', VString (resize_bytes n cs))
            else let o' := RLenBytes true lenS' bytesRead n in
                 ret (lenbytes_done o', o', VString cs)
          else
            bs <- recvDataPartial (size_sub byteLen bytesRead) ;;
            let o' := RLenBytes false lenS (size_add bytesRead (len bs)) byteLen in
            ret (lenbytes_done o', o', VString (blit cs bytesRead bs))
      | _, _ => ill
      end
  | STuple fs | SStruct _ fs =>
      match o, x with
      | RTuple tag payload, VTuple xs =>
          r <- accum_field fs (N.to_nat tag) payload xs ;;
          let '(done, payload', xs') := r in
          if done then
            let tag' := ((tag + 1) mod 2 ^ 32)%N in
            if (tag' =? count fs)%N
            then ret (true, RTuple tag' payload', VTuple xs')
            else ret (false, RTuple tag' (prepare_nth fs (N.to_nat tag') RFresh), VTuple xs')
          else ret (false, RTuple tag payload', VTuple xs')
      | _, _ => ill
      end
  | SAlias _ RT => accum RT o x
  end
with accum_nth (cs : shapes) (i : nat) (o : rstate) (x : value) {struct cs}
    : M (bool * rstate * value) :=
  match cs, i with
  | SNil, _ => ill
  | SCons h _, O => accum h o x
  | SCons _ t, S i' => accum_nth t i' o x
  end
with accum_field (fs : shapes) (i : nat) (o : rstate) (xs : list value) {struct fs}
    : M (bool * rstate * list value) :=
  match fs, i, xs with
  | SCons h _, O, x :: xs' =>
      r <- accum h o x ;;
      ret (fst (fst r), snd (fst r), snd r :: xs')
  | SCons _ t, S i', x :: xs' =>
      r <- accum_field t i' o xs' ;;
      ret (fst (fst r), snd (fst r), x :: snd r)
  | _, _, _ => ill
  end.

End Resumable.

(* ================================================================== *)
(** * RPC stubs *)

Section RPC.

Variable key_lt : shape -> value -> value -> bool.

(** [RPCFunc<R(Args...)>::operator()] *)
Definition RPCFunc_call (exprid : N) (Args : shapes) (R : shape) (args : list value)
    : M value :=
  write (SPrim Tuint8) (VPrim [HNET_CMD_INVOKE]) ;;;
  write (SPrim Tuint32) (VPrim (le_encode 4 exprid)) ;;;
  oSeq_write Args args ;;;
  read key_lt R (default_value R).

(** [RPCFunc<void(Args...)>::operator()] *)
Definition RPCFunc_call_void (exprid : N) (Args : shapes) (args : list value) : M unit :=
  write (SPrim Tuint8) (VPrim [HNET_CMD_INVOKE]) ;;;
  write (SPrim Tuint32) (VPrim (le_encode 4 exprid)) ;;;
  oSeq_write Args args.

(** A continuation [K = std::function<void (const R&)>] is known by a label;
    calling it is recorded, with its argument, in the client's [fired] log. *)
Definition K := nat.

(** [AsyncRPCFunc<R(Args...)>] (an [AsyncReader]) and [AsyncRPCFunc<void(Args...)>]. *)
Inductive AsyncRPCFunc :=
| AsyncFn (Args : shapes) (R : shape) (exprid : N) (ks : list K) (r : value) (pr : rstate)
| AsyncVoidFn (Args : shapes) (exprid : N).

(** The constructors: the reader prepares its state. *)
Definition newAsyncFn (Args : shapes) (R : shape) (exprid : N) : AsyncRPCFunc :=
  AsyncFn Args R exprid [] (default_value R) (prepare R RFresh).
Definition newAsyncVoidFn (Args : shapes) (exprid : N) : AsyncRPCFunc :=
  AsyncVoidFn Args exprid.

(** The class [DEFINE_ASYNC_NET_CLIENT] makes: its stubs, the queue of
    readers (each a pointer to a stub: its position), and the log. *)
Record AsyncClient := mkAsyncClient {
  stubs        : list AsyncRPCFunc;
  asyncReaders : list nat;
  fired        : list (K * value)
}.

Fixpoint set_nth {A} (l : list A) (i : nat) (a : A) : list A :=
  match l, i with
  | [], _ => []
  | _ :: l', O => a :: l'
  | b :: l', S i' => b :: set_nth l' i' a
  end.

Definition enqueue (i : nat) (c : AsyncClient) : AsyncClient :=
  mkAsyncClient (stubs c) (asyncReaders c ++ [i]) (fired c).

Definition pendingRequests (c : AsyncClient) : N := len (asyncReaders c).

(** [AsyncRPCFunc<R(Args...)>::operator()] and its [void] sibling, on the
    stub at position [i]. *)
Definition async_call (i : nat) (args : list value) (k : K) (c : AsyncClient)
    : M AsyncClient :=
  match nth_error (stubs c) i with
  | Some (AsyncFn Args R exprid ks r pr) =>
      setBlockingBit true ;;;
      write (SPrim Tuint8) (VPrim [HNET_CMD_INVOKE]) ;;;
      write (SPrim Tuint32) (VPrim (le_encode 4 exprid)) ;;;
      oSeq_write Args args ;;;
      setBlockingBit false ;;;
      let f' := AsyncFn Args R exprid (ks ++ [k]) r pr in
      ret (enqueue i (mkAsyncClient (set_nth (stubs c) i f') (asyncReaders c) (fired c)))
  | _ => ill
  end.

Definition async_call_void (i : nat) (args : list value) (c : AsyncClient)
    : M AsyncClient :=
  match nth_error (stubs c) i with
  | Some (AsyncVoidFn Args exprid) =>
      setBlockingBit true ;;;
      write (SPrim Tuint8) (VPrim [HNET_CMD_INVOKE]) ;;;
      write (SPrim Tuint32) (VPrim (le_encode 4 exprid)) ;;;
      oSeq_write Args args ;;;
      setBlockingBit false ;;;
      ret c
  | _ => ill
  end.

(** [AsyncRPCFunc<R(Args...)>::readAndFinish], for the stub at position [i]. *)
Definition readAndFinish (i : nat) (c : AsyncClient) : M (bool * AsyncClient) :=
  match nth_error (stubs c) i with
  | Some (AsyncFn Args R exprid ks r pr) =>
      a <- accum key_lt R pr r ;;
      let '(done, pr', r') := a in
      if done then
        match ks with
        | k :: ks' =>
            let f' := AsyncFn Args R exprid ks' (default_value R) (prepare R pr') in
            ret (true, mkAsyncClient (set_nth (stubs c) i f') (asyncReaders c)
                         (fired c ++ [(k, r')]))
        | [] => ill
        end
      else
        let f' := AsyncFn Args R exprid ks r' pr' in
        ret (false, mkAsyncClient (set_nth (stubs c) i f') (asyncReaders c) (fired c))
  | _ => ill
  end.

(** [step]: [while (size() > 0 && front()->readAndFinish()) pop();] with [q]
    the queue as the loop sees it. *)
Fixpoint step_loop (q : list nat) (c : AsyncClient) : M AsyncClient :=
  match q with
  | [] => ret c
  | i :: q' =>
      a <- readAndFinish i c ;;
      let '(done, c') := a in
      if done
      then step_loop q' (mkAsyncClient (stubs c') q' (fired c'))
      else ret c'
  end.

Definition step (c : AsyncClient) : M AsyncClient := step_loop (asyncReaders c) c.

End RPC.

(* ================================================================== *)
(** * Wire formats, well-formed values and drivers *)

(** The bytes of one declaration, as the wire format lays them out:
    DEFEXPR, the id, the length-prefixed expression, input and output types. *)
Definition declaration (d : RPCDef) : list byte :=
  [x00] ++ le_encode 4 (id d)
    ++ le_encode 8 (len (list_byte_of_string (expr d))) ++ list_byte_of_string (expr d)
    ++ le_encode 8 (len (willPut d)) ++ willPut d
    ++ le_encode 8 (len (willGet d)) ++ willGet d.

Definition declarations (ds : list RPCDef) : list byte := concat (map declaration ds).

Definition version_word : list byte := [x00; x00; x01; x00].

(** The bytes [io<T>::write] sends for a value. *)
Fixpoint wire (T : shape) (x : value) {struct T} : list byte :=
  match T with
  | SPrim _ => mem_of x
  | SUnit => []
  | SEnum _ _ => mem_of x
  | SVariant cs | SNamedVariant _ cs =>
      match x with
      | VVariant tag payload => le_encode 4 tag ++ wire_nth cs (N.to_nat tag) payload
      | _ => []
      end
  | SPair U V =>
      match x with
      | VPair a b => wire U a ++ wire V b
      | _ => []
      end
  | SArray T' n =>
      match x with
      | VArray xs =>
          if can_memcpy T'
          then take (size_mul (N.of_nat (sizeof T')) n) (flat_mem xs)
          else concat (map (wire T') xs)
      | _ => []
      end
  | SVector T' =>
      match x with
      | VVector xs =>
          le_encode 8 (len xs) ++
          (if can_memcpy T'
           then if (0 <? len xs)%N
                then take (size_mul (N.of_nat (sizeof T')) (len xs)) (flat_mem xs)
                else []
           else concat (map (wire T') xs))
      | _ => []
      end
  | SMap K T' =>
      match x with
      | VMap kvs =>
          le_encode 8 (len kvs) ++
          concat (map (fun xp : value * value => wire K (fst xp) ++ wire T' (snd xp)) kvs)
      | _ => []
      end
  | SString =>
      match x with
      | VString cs => le_encode 8 (len cs) ++ cs
      | _ => []
      end
  | STuple fs | SStruct _ fs =>
      match x with
      | VTuple xs => wire_seq fs xs
      | _ => []
      end
  | SAlias _ RT => wire RT x
  end
with wire_nth (cs : shapes) (i : nat) (x : value) {struct cs} : list byte :=
  match cs, i with
  | SNil, _ => []
  | SCons h _, O => wire h x
  | SCons _ t, S i' => wire_nth t i' x
  end
with wire_seq (fs : shapes) (xs : list value) {struct fs} : list byte :=
  match fs, xs with
  | SCons h t, x :: xs' => wire h x ++ wire_seq t xs'
  | _, _ => []
  end.

Section Wellformed.

Variable key_lt : shape -> value -> value -> bool.

Definition is_scalar (w : nat) (x : value) : bool :=
  match x with
  | VPrim m => Nat.eqb (length m) w
  | _ => false
  end.

(** [wf T x]: [x] is an object of the C++ type of shape [T]: scalars have
    their width, a variant holds one of its constructors, sizes fit [size_t],
    the entries of a map are in the order of its keys. *)
Fixpoint wf (T : shape) (x : value) {struct T} : bool :=
  match T with
  | SPrim p => is_scalar (sizeof_prim p) x
  | SUnit => match x with VUnit => true | _ => false end
  | SEnum rep _ => is_scalar (sizeof_prim rep) x
  | SVariant cs | SNamedVariant _ cs =>
      match x with
      | VVariant tag payload =>
          (tag <? count cs)%N && (count cs <? 2 ^ 32)%N && wf_nth cs (N.to_nat tag) payload
      | _ => false
      end
  | SPair U V =>
      match x with
      | VPair a b => wf U a && wf V b
      | _ => false
      end
  | SArray T' n =>
      match x with
      | VArray xs =>
          (len xs =? n)%N && (n <? size_max)%N
          && (N.of_nat (sizeof T') * n <? size_max)%N && forallb (wf T') xs
      | _ => false
      end
  | SVector T' =>
      match x with
      | VVector xs =>
          (len xs <? size_max)%N && (N.of_nat (sizeof T') * len xs <? size_max)%N
          && forallb (wf T') xs
      | _ => false
      end
  | SMap K T' =>
      match x with
      | VMap kvs =>
          (len kvs <? size_max)%N
          && forallb (fun xp : value * value => wf K (fst xp) && wf T' (snd xp)) kvs
          && StdMap.sorted (key_lt K) kvs
      | _ => false
      end
  | SString =>
      match x with
      | VString cs => (len cs <? size_max)%N
      | _ => false
      end
  | STuple fs | SStruct _ fs =>
      match x with
      | VTuple xs => wf_seq fs xs
      | _ => false
      end
  | SAlias _ RT => wf RT x
  end
with wf_nth (cs : shapes) (i : nat) (x : value) {struct cs} : bool :=
  match cs, i with
  | SNil, _ => false
  | SCons h _, O => wf h x
  | SCons _ t, S i' => wf_nth t i' x
  end
with wf_seq (fs : shapes) (xs : list value) {struct fs} : bool :=
  match fs, xs with
  | SNil, [] => true
  | SCons h t, x :: xs' => wf h x && wf_seq t xs'
  | _, _ => false
  end.

End Wellformed.

(** The order of unsigned integer keys, for concrete runs. *)
Definition unsigned_lt (K : shape) (a b : value) : bool :=
  (le_decode (mem_of a) <? le_decode (mem_of b))%N.

(** The shape with every unsigned integer replaced by the signed integer of
    the same width. *)
Definition signed_prim (p : prim) : prim :=
  match p with
  | Tuint16 => Tint16
  | Tuint32 => Tint32
  | Tuint64 => Tint64
  | _ => p
  end.

Fixpoint forget_sign (T : shape) : shape :=
  match T with
  | SPrim p => SPrim (signed_prim p)
  | SUnit => SUnit
  | SEnum rep meta => SEnum (signed_prim rep) meta
  | SVariant cs => SVariant (forget_signs cs)
  | SNamedVariant ctors cs => SNamedVariant ctors (forget_signs cs)
  | SPair U V => SPair (forget_sign U) (forget_sign V)
  | SArray T' n => SArray (forget_sign T') n
  | SVector T' => SVector (forget_sign T')
  | SMap K T' => SMap (forget_sign K) (forget_sign T')
  | SString => SString
  | STuple fs => STuple (forget_signs fs)
  | SStruct names fs => SStruct names (forget_signs fs)
  | SAlias name RT => SAlias name (forget_sign RT)
  end
with forget_signs (fs : shapes) : shapes :=
  match fs with
  | SNil => SNil
  | SCons h t => SCons (forget_sign h) (forget_signs t)
  end.



(** [dest T d]: [d] is an object of shape [T] that a reader may be given to
    fill: as [wf], but sizes and constructors are free, and maps are empty. *)
Fixpoint dest (T : shape) (d : value) {struct T} : bool :=
  match T with
  | SPrim p => is_scalar (sizeof_prim p) d
  | SUnit => match d with VUnit => true | _ => false end
  | SEnum rep _ => is_scalar (sizeof_prim rep) d
  | SVariant _ | SNamedVariant _ _ => match d with VVariant _ _ => true | _ => false end
  | SPair U V =>
      match d with
      | VPair a b => dest U a && dest V b
      | _ => false
      end
  | SArray T' n =>
      match d with
      | VArray xs => (len xs =? n)%N && forallb (dest T') xs
      | _ => false
      end
  | SVector T' =>
      match d with
      | VVector xs => forallb (dest T') xs
      | _ => false
      end
  | SMap _ _ => match d with VMap [] => true | _ => false end
  | SString => match d with VString _ => true | _ => false end
  | STuple fs | SStruct _ fs =>
      match d with
      | VTuple xs => dest_seq fs xs
      | _ => false
      end
  | SAlias _ RT => dest RT d
  end
with dest_seq (fs : shapes) (ds : list value) {struct fs} : bool :=
  match fs, ds with
  | SNil, [] => true
  | SCons h t, d :: ds' => dest h d && dest_seq t ds'
  | _, _ => false
  end.

(** Every vector of raw-copied elements inside the shape has elements of one
    byte (the vectors for which [n] elements are [n] bytes). *)
Fixpoint narrow_vectors (T : shape) : bool :=
  match T with
  | SPrim _ | SUnit | SEnum _ _ | SString => true
  | SVariant cs | SNamedVariant _ cs => narrow_vectors_all cs
  | SPair U V => narrow_vectors U && narrow_vectors V
  | SArray T' _ => narrow_vectors T'
  | SVector T' =>
      narrow_vectors T' && (if can_memcpy T' then Nat.eqb (sizeof T') 1 else true)
  | SMap K T' => narrow_vectors K && narrow_vectors T'
  | STuple fs | SStruct _ fs => narrow_vectors_all fs
  | SAlias _ RT => narrow_vectors RT
  end
with narrow_vectors_all (fs : shapes) : bool :=
  match fs with
  | SNil => true
  | SCons h t => narrow_vectors h && narrow_vectors_all t
  end.

(** The entries of an encoded map, and what assigning or inserting them one
    after the other makes of a map. *)
Definition assign_all (lt : value -> value -> bool) (kvs m : list (value * value)) :=
  fold_left (fun m (xp : value * value) => StdMap.assign lt (fst xp) (snd xp) m) kvs m.
Definition insert_all (lt : value -> value -> bool) (kvs m : list (value * value)) :=
  fold_left (fun m (xp : value * value) => StdMap.insert lt (fst xp) (snd xp) m) kvs m.
Definition wire_entries (K T : shape) (kvs : list (value * value)) : list byte :=
  concat (map (fun xp : value * value => wire K (fst xp) ++ wire T (snd xp)) kvs).

(** Every key of [m] is before [k]. *)
Definition below (lt : value -> value -> bool) (m : list (value * value)) (k : value) : bool :=
  forallb (fun xp : value * value => lt (fst xp) k && negb (lt k (fst xp))) m.

(** ** Driving a resumable reader *)

Definition reader := rstate -> value -> M (bool * rstate * value).

(** The peer's next byte reaches the socket. *)
Definition arrive (b : byte) : M unit :=
  fun s => (Ok tt, set_inb (inb s ++ [b]) s).

(** [drive f bs o x]: the bytes [bs] arrive one at a time and the reader is
    called once after each; the result lists what each call returned. *)
Fixpoint drive (f : reader) (bs : list byte) (o : rstate) (x : value)
    : M (list bool * rstate * value) :=
  match bs with
  | [] => ret ([], o, x)
  | b :: bs' =>
      arrive b ;;;
      r <- f o x ;;
      let '(done, o', x') := r in
      r' <- drive f bs' o' x' ;;
      let '(dones, o'', x'') := r' in
      ret (done :: dones, o'', x'')
  end.

(** One call with one byte at hand: the call takes the byte and returns. *)
Definition tick (f : reader) (b : byte) (o : rstate) (x : value)
    (done : bool) (o' : rstate) (x' : value) : Prop :=
  forall out c bl fl,
    f o x (mkSocket out [b] c bl fl) = (Ok (done, o', x'), mkSocket out [] c bl fl).

(** Calls that each take their byte and return [false]. *)
Inductive quiet (f : reader) : list byte -> rstate -> value -> rstate -> value -> Prop :=
| quiet_nil o x : quiet f [] o x o x
| quiet_cons b bs o x o1 x1 o' x' :
    tick f b o x false o1 x1 -> quiet f bs o1 x1 o' x' -> quiet f (b :: bs) o x o' x'.

(** The reader returns [false] for every byte but the last, and [true] there. *)
Definition run (f : reader) (bs : list byte) (o : rstate) (x : value)
    (o' : rstate) (x' : value) : Prop :=
  exists init last o1 x1,
    bs = init ++ [last] /\ quiet f init o x o1 x1 /\ tick f last o1 x1 true o' x'.

(** No map inside the shape. *)
Fixpoint mapfree (T : shape) : bool :=
  match T with
  | SPrim _ | SUnit | SEnum _ _ | SString => true
  | SVariant cs | SNamedVariant _ cs => mapfree_all cs
  | SPair U V => mapfree U && mapfree V
  | SArray T' _ => mapfree T'
  | SVector T' => mapfree T'
  | SMap _ _ => false
  | STuple fs | SStruct _ fs => mapfree_all fs
  | SAlias _ RT => mapfree RT
  end
with mapfree_all (fs : shapes) : bool :=
  match fs with
  | SNil => true
  | SCons h t => mapfree h && mapfree_all t
  end.

(** [steady T]: no part of the shape is written as zero bytes (no unit, no
    empty tuple, no array of no elements), and the keys and values of maps
    hold no map. *)
Fixpoint steady (T : shape) : bool :=
  match T with
  | SPrim _ | SEnum _ _ | SString => true
  | SUnit => false
  | SVariant cs | SNamedVariant _ cs => steady_all cs
  | SPair U V => steady U && steady V
  | SArray T' n => (0 <? n)%N && steady T'
  | SVector T' => steady T'
  | SMap K T' => steady K && steady T' && mapfree K && mapfree T'
  | STuple fs | SStruct _ fs => (0 <? count fs)%N && (count fs <? 2 ^ 32)%N && steady_all fs
  | SAlias _ RT => steady RT
  end
with steady_all (fs : shapes) : bool :=
  match fs with
  | SNil => true
  | SCons h t => steady h && steady_all t
  end.

(** [state_ok T o]: a reader state some earlier use may have left: the
    scratch key and value of a map reader are objects of their shapes. *)
Fixpoint state_ok (T : shape) (o : rstate) {struct T} : bool :=
  match T with
  | SPrim _ | SUnit | SEnum _ _ | SString => true
  | SVariant _ | SNamedVariant _ _ => true
  | SPair U V => state_ok U (Field.fstState o) && state_ok V (Field.sndState o)
  | SArray T' _ => state_ok T' (Field.elemS o)
  | SVector T' => state_ok T' (Field.elemS o)
  | SMap K T' =>
      state_ok K (Field.kS o) && state_ok T' (Field.tS o)
      && dest K (Field.k K o) && dest T' (Field.t T' o)
  | STuple _ | SStruct _ _ => true
  | SAlias _ RT => state_ok RT o
  end.

(** An integer field of [w] bytes after the byte [b] was stored at its
    offset [i], and after a run of bytes was stored from offset [i] on. *)
Definition poke (w : nat) (n : N) (i : nat) (b : byte) : N :=
  le_decode (blit (le_encode w n) (N.of_nat i) [b]).
Fixpoint pokes (w : nat) (n : N) (i : nat) (bs : list byte) : N :=
  match bs with
  | [] => n
  | b :: bs' => pokes w (poke w n i b) (S i) bs'
  end.
Fixpoint blits (mem : list byte) (i : nat) (bs : list byte) : list byte :=
  match bs with
  | [] => mem
  | b :: bs' => blits (blit mem (N.of_nat i) [b]) (S i) bs'
  end.

(** The fields from the [i]-th on. *)
Fixpoint drop_shapes (i : nat) (fs : shapes) : shapes :=
  match i, fs with
  | O, _ => fs
  | S i', SCons _ t => drop_shapes i' t
  | S _, SNil => SNil
  end.

(** Two keys are equivalent for [lt] when neither is before the other. The
    value the last, and the first, entry of [kvs] with a key equivalent to
    [k] carries. *)
Definition equiv (lt : value -> value -> bool) (a b : value) : bool :=
  negb (lt a b) && negb (lt b a).

(** [lt] is a strict weak ordering, as [std::map] requires of its comparison. *)
Definition strict_weak (lt : value -> value -> bool) : Prop :=
  (forall a b c, lt a b = true -> lt b c = true -> lt a c = true) /\
  (forall a b c, equiv lt a b = true -> equiv lt b c = true -> equiv lt a c = true).

(** ** Runs of an asynchronous client *)

(** What the owner of a client does with it, and what happens to it: calls
    through the stub at a position, calls of [step], bytes from the peer. *)
Inductive op :=
| OpCall (i : nat) (args : list value) (k : K)
| OpCallVoid (i : nat) (args : list value)
| OpStep
| OpArrive (bs : list byte).

Definition arrive_all (bs : list byte) : M unit :=
  fun s => (Ok tt, set_inb (inb s ++ bs) s).

Section Ops.
Variable key_lt : shape -> value -> value -> bool.

Definition run_op (o : op) (c : AsyncClient) : M AsyncClient :=
  match o with
  | OpCall i args k => async_call i args k c
  | OpCallVoid i args => async_call_void i args c
  | OpStep => step key_lt c
  | OpArrive bs => arrive_all bs ;;; ret c
  end.

Fixpoint run_ops (ops : list op) (c : AsyncClient) : M AsyncClient :=
  match ops with
  | [] => ret c
  | o :: ops' => c' <- run_op o c ;; run_ops ops' c'
  end.

End Ops.

(** The continuations handed to the calls with a result, in issue order. *)
Fixpoint issued (ops : list op) : list K :=
  match ops with
  | [] => []
  | OpCall _ _ k :: ops' => k :: issued ops'
  | _ :: ops' => issued ops'
  end.

(** The continuations a stub holds. *)
Definition ks_at (fs : list AsyncRPCFunc) (i : nat) : list K :=
  match nth_error fs i with
  | Some (AsyncFn _ _ _ ks _ _) => ks
  | _ => []
  end.

(** [in_step c pq]: the calls [pq] (stub, continuation) are pending on [c]:
    the queue of readers lists their stubs in order, and each stub holds the
    continuations of its own calls, in order. *)
Definition in_step (c : AsyncClient) (pq : list (nat * K)) : Prop :=
  map fst pq = asyncReaders c /\
  forall i, ks_at (stubs c) i = map snd (filter (fun e : nat * K => Nat.eqb (fst e) i) pq).

(** What the stub with a result at a position was made from: argument
    shapes, result shape and expression id. *)
Definition signature (fs : list AsyncRPCFunc) (i : nat) : option (shapes * shape * N) :=
  match nth_error fs i with
  | Some (AsyncFn Args R exprid _ _ _) => Some (Args, R, exprid)
  | _ => None
  end.

Definition result_shape (fs : list AsyncRPCFunc) (i : nat) : option shape :=
  match signature fs i with
  | Some (_, R, _) => Some R
  | None => None
  end.

(** A call through the stub at a position, with its arguments and its
    continuation. *)
Definition acall : Type := nat * list value * K.

Definition call_op (cl : acall) : op :=
  let '(i, a, k) := cl in OpCall i a k.

Definition pending_of (calls : list acall) : list (nat * K) :=
  map (fun cl : acall => (fst (fst cl), snd cl)) calls.

(** The call names a stub with a result and its arguments are objects of
    the stub's argument types. *)
Definition callable (key_lt : shape -> value -> value -> bool)
    (fs : list AsyncRPCFunc) (cl : acall) : bool :=
  match signature fs (fst (fst cl)) with
  | Some (Args, _, _) => wf_seq key_lt Args (snd (fst cl))
  | None => false
  end.

(** The bytes of the request of a call. *)
Definition invoke_frame (fs : list AsyncRPCFunc) (cl : acall) : list byte :=
  match signature fs (fst (fst cl)) with
  | Some (Args, _, exprid) =>
      [HNET_CMD_INVOKE] ++ le_encode 4 exprid ++ wire (STuple Args) (VTuple (snd (fst cl)))
  | None => []
  end.

(** A stub between two replies: its reader is prepared, its result object
    can be filled, and its result shape has no part of zero width. *)
Definition ready_stub (f : AsyncRPCFunc) : Prop :=
  match f with
  | AsyncFn _ R _ _ r pr =>
      steady R = true /\ dest R r = true /\
      exists o, pr = prepare R o /\ state_ok R o = true
  | AsyncVoidFn _ _ => True
  end.

Definition ready (c : AsyncClient) : Prop := Forall ready_stub (stubs c).

(** [answers fs pq vs]: [vs] holds one result for each pending call, an
    object of the result type of the call's stub. *)
Fixpoint answers (key_lt : shape -> value -> value -> bool)
    (fs : list AsyncRPCFunc) (pq : list (nat * K)) (vs : list value) : bool :=
  match pq, vs with
  | [], [] => true
  | (i, _) :: pq', v :: vs' =>
      match result_shape fs i with
      | Some R => wf key_lt R v && answers key_lt fs pq' vs'
      | None => false
      end
  | _, _ => false
  end.

(** The bytes of the peer's replies to the pending calls, in issue order. *)
Fixpoint reply_wire (fs : list AsyncRPCFunc) (pq : list (nat * K)) (vs : list value)
    : list byte :=
  match pq, vs with
  | (i, _) :: pq', v :: vs' =>
      match result_shape fs i with
      | Some R => wire R v ++ reply_wire fs pq' vs'
      | None => []
      end
  | _, _ => []
  end.

(** The bytes reach the client one at a time, and its owner calls [step]
    after each. *)
Definition feed (bs : list byte) : list op :=
  flat_map (fun b => [OpArrive [b]; OpStep]) bs.

(** A socket in non-blocking mode with nothing to read, its peer alive. *)
Definition waiting (s : socket) : bool :=
  match inb s with [] => negb (peer_closed s) && negb (blocking s) | _ => false end.

(** [sends f g a]: on a socket whose [send] works, [f a] returns and has
    appended the bytes [g a] to what the peer receives. *)
Definition sends {A} (f : A -> M unit) (g : A -> list byte) (a : A) : Prop :=
  forall o i c b, f a (mkSocket o i c b false) = (Ok tt, mkSocket (o ++ g a) i c b false).

(* ================================================================== *)
(** * Further drivers and views of values *)

(** The entries of a map as pairs, and the characters of a string as
    scalars: what a vector with the same content holds. *)
Definition entry_pair (xp : value * value) : value := VPair (fst xp) (snd xp).
Definition char_value (b : byte) : value := VPrim [b].

(* ================================================================== *)
(** * The generated clients *)

(** One entry [(N, T, E)] of the list given to [DEFINE_NET_CLIENT] or
    [DEFINE_ASYNC_NET_CLIENT]: the function type [T] (its result, [None]
    for [void], and its arguments) and the expression [E]. *)
Record Command := mkCommand {
  cmd_result : option shape;
  cmd_args   : shapes;
  cmd_expr   : string
}.

(** [enum ExprIDs { NullExpr = 0, exprID_n ... }]: the entry at position [k]
    of the list, counting from 0, gets [k + 1]. *)
Definition NullExpr : N := 0.
Definition exprID (k : nat) : N := N.of_nat (S k).

Section Clients.

Variable encoding : desc -> list byte.

(** [makeRPCDefs]: [PRIV_HNET_CLIENT_MAKE_RPCDEF] for each entry in turn. *)
Fixpoint makeRPCDefs_from (k : nat) (C : list Command) : list RPCDef :=
  match C with
  | [] => []
  | c :: C' =>
      makeRPCDef encoding (exprID k) (cmd_expr c) (cmd_result c) (cmd_args c)
        :: makeRPCDefs_from (S k) C'
  end.
Definition makeRPCDefs (C : list Command) : list RPCDef := makeRPCDefs_from 0 C.

(** [PRIV_HNET_CLIENT_INIT_ASYNC_RPCFUNC]: the member made for an entry. *)
Definition async_stub (k : nat) (c : Command) : AsyncRPCFunc :=
  match cmd_result c with
  | Some R => newAsyncFn (cmd_args c) R (exprID k)
  | None => newAsyncVoidFn (cmd_args c) (exprID k)
  end.
Fixpoint async_stubs_from (k : nat) (C : list Command) : list AsyncRPCFunc :=
  match C with
  | [] => []
  | c :: C' => async_stub k c :: async_stubs_from (S k) C'
  end.

(** The constructor [T(int fd)] of an asynchronous client, run on the
    socket [fd]. *)
Definition AsyncClient_new (C : list Command) : M AsyncClient :=
  initSession (makeRPCDefs C) ;;; ret (mkAsyncClient (async_stubs_from 0 C) [] []).

(** [closeC]: the socket is closed (the caller drops its state) and the
    queue of readers is replaced by an empty one. *)
Definition closeC (c : AsyncClient) : AsyncClient :=
  mkAsyncClient (stubs c) [] (fired c).

(** [reconnect(int fd)], run on the socket [fd]. *)
Definition reconnect (C : list Command) (c : AsyncClient) : M AsyncClient :=
  let c' := closeC c in
  initSession (makeRPCDefs C) ;;; ret c'.

End Clients.

(* ================================================================== *)
(** * Connections *)

(** What [makeConnection(hostport)] throws by itself. *)
Inductive dial_error :=
| EPort (hostport : string).   (* "Failed to determine port: " + hostport *)

Section Dial.

(** [makeConnection(localAddr, host, port)] resolves the names and connects
    a socket: the system calls it makes are outside the embedding. It is a
    parameter, with whatever outcome [A] it has. *)
Variable A : Type.
Variable makeConnection : string -> string -> string -> A.

(** [makeConnection(host, port)] *)
Definition makeConnection_host (host port : string) : A :=
  makeConnection "" host port.

(** [makeConnection(localAddr, host, size_t port)]: [ss << port]. *)
Definition makeConnection_local_port (localAddr host : string) (port : N) : A :=
  makeConnection localAddr host (decimal port).

(** [makeConnection(host, size_t port)] *)
Definition makeConnection_port (host : string) (port : N) : A :=
  makeConnection_local_port "" host port.

(** [makeConnection(hostport)]: [find(':')], then the two [substr]. *)
Definition makeConnection_hostport (hostport : string) : dial_error + A :=
  match String.index 0 ":" hostport with
  | None => inl (EPort hostport)
  | Some p =>
      inr (makeConnection_host (substring 0 p hostport)
             (substring (p + 1) (String.length hostport) hostport))
  end.

End Dial.

(** No character of the string is a colon. *)
Fixpoint colon_free (s : string) : bool :=
  match s with
  | EmptyString => true
  | String a s' => negb (Ascii.eqb a ":") && colon_free s'
  end.

(* ================================================================== *)
(** * Sessions that end early *)

(** [reads_as m w a]: the peer has sent [w], then more, then closed; [m]
    consumes [w] and returns [a]. *)
Definition reads_as {A} (m : M A) (w : list byte) (a : A) : Prop :=
  forall o rest b f, m (mkSocket o (w ++ rest) true b f) = (Ok a, mkSocket o rest true b f).

(** [cuts m w]: the peer has sent a proper prefix of [w], then closed; [m]
    throws "Remote process closed session prematurely", having consumed
    what there was. *)
Definition cuts {A} (m : M A) (w : list byte) : Prop :=
  forall p q o b f,
    w = p ++ q -> q <> [] ->
    m (mkSocket o p true b f) = (Err EClosed, mkSocket o [] true b f).

(* ================================================================== *)
(** * What a descriptor tells of a variant *)

(** The constructors that [descVariantTy<0, n, Ts...>::type()] lists: the
    first, and the second if there is one. *)
Definition cut_two (cs : shapes) : shapes :=
  match cs with
  | SCons c0 (SCons c1 _) => SCons c0 (SCons c1 SNil)
  | _ => cs
  end.

(** Every anonymous variant inside the shape, cut down to them. *)
Fixpoint variants_cut (T : shape) : shape :=
  match T with
  | SPrim _ | SUnit | SEnum _ _ | SString => T
  | SVariant cs => SVariant (cut_two (variants_cut_all cs))
  | SNamedVariant ctors cs => SNamedVariant ctors (variants_cut_all cs)
  | SPair U V => SPair (variants_cut U) (variants_cut V)
  | SArray T' n => SArray (variants_cut T') n
  | SVector T' => SVector (variants_cut T')
  | SMap K T' => SMap (variants_cut K) (variants_cut T')
  | STuple fs => STuple (variants_cut_all fs)
  | SStruct names fs => SStruct names (variants_cut_all fs)
  | SAlias name RT => SAlias name (variants_cut RT)
  end
with variants_cut_all (fs : shapes) : shapes :=
  match fs with
  | SNil => SNil
  | SCons h t => SCons (variants_cut h) (variants_cut_all t)
  end.

(* ================================================================== *)
(** * Maps of maps, read by the resumable reader *)

Definition entries_of (v : value) : list (value * value) :=
  match v with
  | VMap m => m
  | _ => []
  end.

(** What the resumable reader of a map makes of its entries when the values
    are maps themselves. The value under construction, [o->t], is not
    emptied between two entries: each value is inserted into what [o->t]
    holds already ([mt]), and a copy of the outcome is what the entry gets. *)
Fixpoint leak (lt : value -> value -> bool) (mt : list (value * value))
    (kvs : list (value * value)) : list (value * value) :=
  match kvs with
  | [] => []
  | (k, v) :: rest =>
      let mt' := insert_all lt (entries_of v) mt in
      (k, VMap mt') :: leak lt mt' rest
  end.

(* ================================================================== *)
(** * C strings *)

(** [strlen(x)], on the memory at [x]: the bytes before the first NUL. *)
Fixpoint strlen (mem : list byte) : nat :=
  match mem with
  | [] => 0
  | b :: mem' => if Byte.eqb b x00 then 0 else S (strlen mem')
  end.

(** The writer of [io<const char*>], which has no reader: the length
    [strlen(x)], then that many bytes from [x]. *)
Definition write_cstr (mem : list byte) : M unit :=
  let n := strlen mem in
  send_size (N.of_nat n) ;;; sendData (firstn n mem).

(** No byte of the list is NUL. *)
Definition nul_free (cs : list byte) : bool :=
  forallb (fun b => negb (Byte.eqb b x00)) cs.

(** ** What a call can throw *)



(* ================================================================== *)
(** * Facts about bytes and the socket primitives *)

Module BytesFacts.

Lemma to_N_byte_of_N n : Byte.to_N (byte_of_N n) = (n mod 256)%N.
Proof.
  unfold byte_of_N.
  destruct (Byte.of_N (n mod 256)) eqn:E.
  - now apply Byte.to_of_N.
  - apply Byte.of_N_None_iff in E.
    pose proof (N.mod_upper_bound n 256). lia.
Qed.

Lemma byte_of_to_N b : byte_of_N (Byte.to_N b) = b.
Proof.
  unfold byte_of_N.
  rewrite N.mod_small by (pose proof (Byte.to_N_bounded b); lia).
  now rewrite Byte.of_to_N.
Qed.

Lemma le_encode_length w n : length (le_encode w n) = w.
Proof. revert n; induction w; simpl; intros; [reflexivity | now rewrite IHw]. Qed.

Lemma le_decode_encode w n : le_decode (le_encode w n) = (n mod 256 ^ N.of_nat w)%N.
Proof.
  revert n; induction w; intros n.
  - simpl. now rewrite N.mod_1_r.
  - cbn [le_encode le_decode]. rewrite IHw, to_N_byte_of_N.
    rewrite Nat2N.inj_succ, N.pow_succ_r'.
    rewrite N.Div0.mod_mul_r. lia.
Qed.

Lemma le_decode_encode_small w n :
  (n < 256 ^ N.of_nat w)%N -> le_decode (le_encode w n) = n.
Proof. intros. rewrite le_decode_encode. now apply N.mod_small. Qed.

Lemma le_encode_decode bs : le_encode (length bs) (le_decode bs) = bs.
Proof.
  induction bs as [|b bs IH]; [reflexivity|].
  cbn [length le_encode le_decode]. f_equal.
  - unfold byte_of_N.
    replace ((Byte.to_N b + 256 * le_decode bs) mod 256)%N with (Byte.to_N b).
    + now rewrite Byte.of_to_N.
    + pose proof (Byte.to_N_bounded b).
      rewrite (N.mul_comm 256), N.Div0.mod_add. symmetry. apply N.mod_small. lia.
  - replace ((Byte.to_N b + 256 * le_decode bs) / 256)%N with (le_decode bs); [exact IH|].
    pose proof (Byte.to_N_bounded b).
    rewrite (N.mul_comm 256), N.div_add by lia.
    rewrite N.div_small by lia. lia.
Qed.

Lemma le_decode_bound bs : (le_decode bs < 256 ^ N.of_nat (length bs))%N.
Proof.
  induction bs as [|b bs IH]; [simpl; lia|].
  cbn [length le_decode]. rewrite Nat2N.inj_succ, N.pow_succ_r'.
  pose proof (Byte.to_N_bounded b). lia.
Qed.

Lemma len_app {A : Type} (l l' : list A) : len (l ++ l') = (len l + len l')%N.
Proof. unfold len. rewrite length_app. lia. Qed.

Lemma firstn_len_app {A : Type} (l l' : list A) : firstn (N.to_nat (len l)) (l ++ l') = l.
Proof.
  unfold len. rewrite Nat2N.id, firstn_app, Nat.sub_diag, firstn_all. simpl.
  apply app_nil_r.
Qed.

Lemma skipn_len_app {A : Type} (l l' : list A) : skipn (N.to_nat (len l)) (l ++ l') = l'.
Proof.
  unfold len. rewrite Nat2N.id, skipn_app, Nat.sub_diag, skipn_all. reflexivity.
Qed.

End BytesFacts.
Import BytesFacts.

Module SocketFacts.

Lemma sendData_ok d o i c b :
  sendData d (mkSocket o i c b false) = (Ok tt, mkSocket (o ++ d) i c b false).
Proof. destruct d; simpl; [now rewrite app_nil_r | reflexivity]. Qed.

Lemma recvData_ok bs rest o c b f :
  recvData (len bs) (mkSocket o (bs ++ rest) c b f) = (Ok bs, mkSocket o rest c b f).
Proof.
  unfold recvData. cbn [inb].
  destruct (N.eqb_spec (len bs) 0) as [E|E].
  - destruct bs; [reflexivity | discriminate].
  - rewrite len_app. destruct (N.leb_spec (len bs) (len bs + len rest)); [|lia].
    unfold set_inb. cbn. now rewrite firstn_len_app, skipn_len_app.
Qed.

Lemma recvData_n n bs rest o c b f :
  n = len bs ->
  recvData n (mkSocket o (bs ++ rest) c b f) = (Ok bs, mkSocket o rest c b f).
Proof. intros ->. apply recvData_ok. Qed.

Lemma send_size_ok n o i c b :
  send_size n (mkSocket o i c b false) = (Ok tt, mkSocket (o ++ le_encode 8 n) i c b false).
Proof. apply sendData_ok. Qed.

Lemma recv_size_ok n rest o c b f :
  (n < size_max)%N ->
  recv_size (mkSocket o (le_encode 8 n ++ rest) c b f) = (Ok n, mkSocket o rest c b f).
Proof.
  intros Hn. unfold recv_size, bind.
  rewrite recvData_n with (bs := le_encode 8 n).
  - unfold ret. now rewrite le_decode_encode_small.
  - unfold len. now rewrite le_encode_length.
Qed.

End SocketFacts.
Import SocketFacts.

(* ================================================================== *)
(** * The session handshake *)

Module Handshake.

Lemma sendString_ok x o i c b :
  sendString x (mkSocket o i c b false) =
  (Ok tt, mkSocket (o ++ le_encode 8 (len (list_byte_of_string x)) ++ list_byte_of_string x)
            i c b false).
Proof.
  unfold sendString, bind. rewrite send_size_ok, sendData_ok. now rewrite <- app_assoc.
Qed.

Lemma sendBytes_ok x o i c b :
  sendBytes x (mkSocket o i c b false) =
  (Ok tt, mkSocket (o ++ le_encode 8 (len x) ++ x) i c b false).
Proof.
  unfold sendBytes, bind. rewrite send_size_ok.
  destruct x as [|y x]; cbn [len length N.of_nat N.ltb N.compare].
  - unfold ret. now rewrite app_nil_r.
  - replace (0 <? len (y :: x))%N with true by (symmetry; apply N.ltb_lt; unfold len; simpl; lia).
    rewrite sendData_ok. now rewrite <- app_assoc.
Qed.

Lemma recvString_ok msg rest o c b f :
  (len msg < size_max)%N ->
  recvString (mkSocket o (le_encode 8 (len msg) ++ msg ++ rest) c b f) =
  (Ok (string_of_list_byte msg), mkSocket o rest c b f).
Proof.
  intros H. unfold recvString, bind. rewrite recv_size_ok by exact H.
  now rewrite recvData_ok.
Qed.

(** The writes of one round of the loop, up to the read of the reply. *)
Lemma defineAll_cons d ds o i c b :
  defineAll (d :: ds) (mkSocket o i c b false) =
  (r <- recvData 1 ;;
   match r with
   | [y] => if Byte.eqb y HNET_RESULT_FAIL
            then err <- recvString ;; throw (EDefine (define_failure d err))
            else defineAll ds
   | _ => throw EUndefined
   end) (mkSocket (o ++ declaration d) i c b false).
Proof.
  cbn [defineAll]. unfold bind at 1. rewrite sendData_ok.
  unfold bind at 1. rewrite sendData_ok.
  unfold bind at 1. rewrite sendString_ok.
  unfold bind at 1. rewrite sendBytes_ok.
  unfold bind at 1. rewrite sendBytes_ok.
  unfold declaration, HNET_CMD_DEFEXPR. now rewrite <- !app_assoc.
Qed.

Lemma defineAll_accepted pre : forall acks rest o c b,
  length acks = length pre ->
  Forall (fun y => y <> x00) acks ->
  forall ds,
  defineAll (pre ++ ds) (mkSocket o (acks ++ rest) c b false) =
  defineAll ds (mkSocket (o ++ declarations pre) rest c b false).
Proof.
  induction pre as [|d pre IH]; intros acks rest o c b Hl Hnz ds.
  - destruct acks; [|discriminate]. unfold declarations. simpl. now rewrite app_nil_r.
  - destruct acks as [|a acks]; [discriminate|].
    inversion Hnz as [|? ? Ha Hnz']; subst.
    cbn [app]. rewrite defineAll_cons. unfold bind at 1.
    change (a :: acks ++ rest) with ([a] ++ acks ++ rest).
    rewrite recvData_n with (bs := [a]) by reflexivity.
    destruct (Byte.eqb a HNET_RESULT_FAIL) eqn:E.
    + apply Byte.byte_dec_bl in E. contradiction.
    + rewrite IH by (auto; simpl in Hl; lia).
      unfold declarations. cbn [map concat]. now rewrite <- app_assoc.
Qed.

End Handshake.

(** C3. [initSession] writes the version word 00 00 01 00, then for each
    declaration in order the DEFEXPR opcode 0, the id, the length-prefixed
    expression and the two length-prefixed type encodings, and reads one
    result byte. While the bytes read are nonzero the loop goes on, and ends
    well after the last declaration. On a zero byte it reads a length-prefixed
    message and throws an error made of the expression, the id and that
    message; nothing of the later declarations has been written. *)
Theorem initSession_handshake :
  forall (pre : list RPCDef) (acks : list byte) (o : list byte) (c b : bool),
    length acks = length pre ->
    Forall (fun y => y <> x00) acks ->
    (forall rest,
       initSession pre (mkSocket o (acks ++ rest) c b false) =
       (Ok tt, mkSocket (o ++ version_word ++ declarations pre) rest c b false))
    /\
    (forall d post msg rest,
       (len msg < size_max)%N ->
       initSession (pre ++ d :: post)
         (mkSocket o (acks ++ [x00] ++ le_encode 8 (len msg) ++ msg ++ rest) c b false) =
       (Err (EDefine ("While trying to define '" ++ expr d ++ "' with id="
                        ++ decimal (id d) ++ ": " ++ string_of_list_byte msg)%string),
        mkSocket (o ++ version_word ++ declarations (pre ++ [d])) rest c b false)).
Proof.
  intros pre acks o c b Hl Hnz. split.
  - intros rest. unfold initSession, bind. rewrite sendData_ok.
    rewrite <- (app_nil_r pre) at 1.
    rewrite Handshake.defineAll_accepted by assumption.
    cbn [defineAll]. unfold ret. now rewrite <- app_assoc.
  - intros d post msg rest Hm. unfold initSession, bind. rewrite sendData_ok.
    rewrite Handshake.defineAll_accepted by assumption.
    rewrite Handshake.defineAll_cons. unfold bind.
    rewrite recvData_n with (bs := [x00]) by reflexivity.
    change (Byte.eqb x00 HNET_RESULT_FAIL) with true. cbv iota beta.
    rewrite Handshake.recvString_ok by exact Hm.
    unfold throw, define_failure, declarations.
    rewrite map_app, concat_app. cbn [map concat].
    now rewrite app_nil_r, <- !app_assoc.
Qed.

Lemma initSession_handshake_witness :
  let d1 := mkRPCDef 1 "inc" [x01] [x02] in
  let d2 := mkRPCDef 2 "dec" [x03] [x04] in
  let d3 := mkRPCDef 3 "neg" [x05] [x06] in
  let msg := list_byte_of_string "type mismatch" in
  initSession [d1; d2; d3]
    (mkSocket [] ([x01] ++ [x00] ++ le_encode 8 (len msg) ++ msg ++ []) true true false) =
  (Err (EDefine "While trying to define 'dec' with id=2: type mismatch"),
   mkSocket ([] ++ version_word ++ declarations ([d1] ++ [d2])) [] true true false).
Proof.
  intros d1 d2 d3 msg.
  assert (Hnz : Forall (fun y => y <> x00) [x01])
    by (constructor; [discriminate | constructor]).
  exact (proj2 (initSession_handshake [d1] [x01] [] true true eq_refl Hnz)
           d2 [d3] msg [] eq_refl).
Defined.

(* ================================================================== *)
(** * What [write] sends *)

Module WriteFacts.

Ltac bool_hyps :=
  repeat match goal with
         | H : (_ && _)%bool = true |- _ => apply andb_prop in H; destruct H
         end.

Ltac bool_props :=
  bool_hyps;
  repeat match goal with
         | H : (_ <? _)%N = true |- _ => apply N.ltb_lt in H
         | H : (_ =? _)%N = true |- _ => apply N.eqb_eq in H
         | H : Nat.eqb _ _ = true |- _ => apply Nat.eqb_eq in H
         | H : negb _ = true |- _ => apply negb_true_iff in H
         end.

Lemma sends_bind {A} (f1 f2 : A -> M unit) g1 g2 a :
  sends f1 g1 a -> sends f2 g2 a ->
  sends (fun a => f1 a ;;; f2 a) (fun a => g1 a ++ g2 a) a.
Proof.
  intros H1 H2 o i c b. unfold bind. rewrite H1, H2. now rewrite app_assoc.
Qed.

Lemma forM_sends {A} (f : A -> M unit) (g : A -> list byte) (ok : A -> bool) xs :
  (forall a, ok a = true -> sends f g a) ->
  forallb ok xs = true ->
  forall o i c b,
    forM_ f xs (mkSocket o i c b false) =
    (Ok tt, mkSocket (o ++ concat (map g xs)) i c b false).
Proof.
  intros Hf. induction xs as [|a xs IH]; intros Hall o i c b.
  - simpl. unfold ret. now rewrite app_nil_r.
  - simpl in Hall. bool_hyps. cbn [forM_ map concat]. unfold bind.
    rewrite (Hf a) by assumption. rewrite IH by assumption. now rewrite app_assoc.
Qed.

Lemma write_scalar_sends w x :
  is_scalar w x = true -> sends write_scalar mem_of x.
Proof.
  destruct x; try discriminate. intros _ o i c b. apply sendData_ok.
Qed.

Section Write.
Variable key_lt : shape -> value -> value -> bool.

Local Abbreviation P := (fun T : shape =>
  forall x, wf key_lt T x = true -> sends (write T) (wire T) x).
Local Abbreviation Q := (fun fs : shapes =>
  (forall n x, wf_nth key_lt fs n x = true -> sends (write_nth fs n) (wire_nth fs n) x)
  /\ (forall xs, wf_seq key_lt fs xs = true -> sends (write_seq fs) (wire_seq fs) xs)).

Lemma write_variant cs : Q cs -> P (SVariant cs).
Proof.
  intros [Hn _] x Hx o i c b. destruct x; try discriminate.
  cbn [wf] in Hx. bool_hyps. cbn [write wire]. unfold bind.
  rewrite sendData_ok, Hn by assumption. now rewrite app_assoc.
Qed.

Lemma write_tuple fs : Q fs -> P (STuple fs).
Proof.
  intros [_ Hs] x Hx o i c b. destruct x; try discriminate.
  cbn [wf] in Hx. cbn [write wire]. now apply Hs.
Qed.

Lemma write_wire_all : (forall T, P T) /\ (forall fs, Q fs).
Proof.
  apply shape_shapes_ind.
  - (* SPrim *) intros p x Hx. now apply write_scalar_sends with (w := sizeof_prim p).
  - (* SUnit *) intros x _ o i c b. cbn. unfold ret. now rewrite app_nil_r.
  - (* SEnum *) intros rep meta x Hx. now apply write_scalar_sends with (w := sizeof_prim rep).
  - (* SVariant *) intros cs IH. now apply write_variant.
  - (* SNamedVariant *) intros ctors cs IH. now apply write_variant.
  - (* SPair *) intros U IHU V IHV x Hx o i c b. destruct x; try discriminate.
    cbn [wf] in Hx. bool_hyps. cbn [write wire]. unfold bind.
    rewrite IHU, IHV by assumption. now rewrite app_assoc.
  - (* SArray *) intros T IH n x Hx o i c b. destruct x; try discriminate.
    cbn [wf] in Hx. bool_hyps. cbn [write wire].
    destruct (can_memcpy T).
    + apply sendData_ok.
    + now apply forM_sends with (ok := wf key_lt T).
  - (* SVector *) intros T IH x Hx o i c b. destruct x; try discriminate.
    cbn [wf] in Hx. bool_hyps. cbn [write wire]. cbv zeta. unfold bind.
    rewrite send_size_ok. rewrite app_assoc.
    destruct (can_memcpy T).
    + destruct (0 <? len xs)%N.
      * apply sendData_ok.
      * unfold ret. now rewrite app_nil_r.
    + now apply forM_sends with (ok := wf key_lt T).
  - (* SMap *) intros K IHK T IHT x Hx o i c b. destruct x; try discriminate.
    cbn [wf] in Hx. bool_hyps. cbn [write wire]. unfold bind.
    rewrite send_size_ok. rewrite app_assoc.
    apply forM_sends with
      (ok := fun xp : value * value => wf key_lt K (fst xp) && wf key_lt T (snd xp)).
    + intros [k v] Hkv. cbn [fst snd] in *. bool_hyps.
      apply (sends_bind (fun xp => write K (fst xp)) (fun xp => write T (snd xp))
                        (fun xp => wire K (fst xp)) (fun xp => wire T (snd xp))).
      * intros o' i' c' b'. now apply IHK.
      * intros o' i' c' b'. now apply IHT.
    + assumption.
  - (* SString *) intros x Hx o i c b. destruct x; try discriminate.
    cbn [write wire]. unfold bind. rewrite send_size_ok, sendData_ok.
    now rewrite app_assoc.
  - (* STuple *) intros fs IH. now apply write_tuple.
  - (* SStruct *) intros names fs IH. now apply write_tuple.
  - (* SAlias *) intros name RT IH x Hx. cbn [wf] in Hx. cbn [write wire]. now apply IH.
  - (* SNil *) split.
    + intros n x Hx. destruct n; discriminate.
    + intros xs Hx o i c b. destruct xs; [|discriminate]. cbn. unfold ret.
      now rewrite app_nil_r.
  - (* SCons *) intros h IHh t [IHn IHs]. split.
    + intros n x Hx. destruct n; cbn [wf_nth write_nth wire_nth] in *.
      * now apply IHh.
      * now apply IHn.
    + intros xs Hx o i c b. destruct xs as [|x xs]; [discriminate|].
      cbn [wf_seq] in Hx. bool_hyps. cbn [write_seq wire_seq]. unfold bind.
      rewrite IHh, IHs by assumption. now rewrite app_assoc.
Qed.

Lemma write_wire T x o i c b :
  wf key_lt T x = true ->
  write T x (mkSocket o i c b false) = (Ok tt, mkSocket (o ++ wire T x) i c b false).
Proof. intros H. now apply (proj1 write_wire_all). Qed.

Lemma write_seq_wire fs xs o i c b :
  wf_seq key_lt fs xs = true ->
  write_seq fs xs (mkSocket o i c b false) = (Ok tt, mkSocket (o ++ wire_seq fs xs) i c b false).
Proof. intros H. now apply (proj2 write_wire_all). Qed.

End Write.
End WriteFacts.

(* ================================================================== *)
(** * Synchronous calls *)

Module CallFacts.

(** What a synchronous stub writes before it reads. *)
Lemma call_frame :
  forall key_lt exprid Args args o i c b,
    wf_seq key_lt Args args = true ->
    (forall R,
       RPCFunc_call key_lt exprid Args R args (mkSocket o i c b false) =
       read key_lt R (default_value R)
         (mkSocket (o ++ [x02] ++ le_encode 4 exprid ++ wire (STuple Args) (VTuple args))
            i c b false))
    /\ RPCFunc_call_void exprid Args args (mkSocket o i c b false) =
       (Ok tt,
        mkSocket (o ++ [x02] ++ le_encode 4 exprid ++ wire (STuple Args) (VTuple args))
          i c b false).
Proof.
  intros key_lt exprid Args args o i c b Hwf.
  assert (Hw : forall A (k : M A),
             (write (SPrim Tuint8) (VPrim [HNET_CMD_INVOKE]) ;;;
              write (SPrim Tuint32) (VPrim (le_encode 4 exprid)) ;;;
              oSeq_write Args args ;;; k) (mkSocket o i c b false) =
             k (mkSocket (o ++ [x02] ++ le_encode 4 exprid ++ wire_seq Args args) i c b false)).
  { intros A k. unfold bind, oSeq_write. cbn [write write_scalar].
    rewrite !sendData_ok. rewrite (WriteFacts.write_seq_wire key_lt) by exact Hwf.
    now rewrite <- !app_assoc. }
  split.
  - intros R. unfold RPCFunc_call. apply Hw.
  - unfold RPCFunc_call_void.
    specialize (Hw unit (ret tt)). unfold bind, ret in *.
    destruct (write (SPrim Tuint8) (VPrim [HNET_CMD_INVOKE]) (mkSocket o i c b false))
      as [[[]|e] s1]; [|discriminate].
    destruct (write (SPrim Tuint32) (VPrim (le_encode 4 exprid)) s1)
      as [[[]|e] s2]; [|discriminate].
    destruct (oSeq_write Args args s2) as [[[]|e] s3]; [|discriminate].
    exact Hw.
Qed.

End CallFacts.

(** C4. A synchronous call writes the INVOKE opcode 2, the id and the
    arguments in declared order (the bytes of the tuple of the arguments),
    then reads the result with the blocking reader of its shape and returns
    it; the stub of a function without result writes the same bytes and
    reads nothing. *)
Theorem RPCFunc_frame :
  forall key_lt exprid Args args o i c b,
    wf_seq key_lt Args args = true ->
    (forall R,
       RPCFunc_call key_lt exprid Args R args (mkSocket o i c b false) =
       read key_lt R (default_value R)
         (mkSocket (o ++ [x02] ++ le_encode 4 exprid ++ wire (STuple Args) (VTuple args))
            i c b false))
    /\ RPCFunc_call_void exprid Args args (mkSocket o i c b false) =
       (Ok tt,
        mkSocket (o ++ [x02] ++ le_encode 4 exprid ++ wire (STuple Args) (VTuple args))
          i c b false).
Proof. exact CallFacts.call_frame. Qed.

(** [echo_i32(42)]: 02, the id, 2a 00 00 00 go out; 2a 00 00 00 comes in. *)
Lemma RPCFunc_frame_witness :
  RPCFunc_call unsigned_lt 1 (SCons (SPrim Tint32) SNil) (SPrim Tint32)
    [VPrim [x2a; x00; x00; x00]] (mkSocket [] [x2a; x00; x00; x00] false true false) =
  (Ok (VPrim [x2a; x00; x00; x00]),
   mkSocket [x02; x01; x00; x00; x00; x2a; x00; x00; x00] [] false true false).
Proof.
  rewrite (proj1 (RPCFunc_frame unsigned_lt 1 (SCons (SPrim Tint32) SNil)
                    [VPrim [x2a; x00; x00; x00]] [] [x2a; x00; x00; x00] false true
                    eq_refl)).
  reflexivity.
Defined.

Module LineFacts.















End LineFacts.

(* ================================================================== *)
(** * What makes a blocking read throw *)

Module FailFacts.










End FailFacts.




(* ================================================================== *)
(** * The flags and the descriptors *)

(** C6, on the code. The flag of a fixed array is [false] whatever its
    element is: for [int32_t[4]] it is not the flag of [int32_t]. *)
Theorem fixed_array_never_memcpy :
  can_memcpy (SPrim Tint32) = true /\
  can_memcpy (SArray (SPrim Tint32) 4) = false /\
  forall T n, can_memcpy (SArray T n) = false.
Proof.
  repeat split. intros T n. cbn [can_memcpy]. now destruct (can_memcpy T).
Qed.

(** The rest of the table: scalars and enumerations are copied as memory, an
    alias follows what it names, every other composite is not. *)
Lemma can_memcpy_table :
  (forall p, can_memcpy (SPrim p) = true) /\
  (forall rep meta, can_memcpy (SEnum rep meta) = true) /\
  (forall name RT, can_memcpy (SAlias name RT) = can_memcpy RT) /\
  can_memcpy SUnit = false /\
  (forall U V, can_memcpy (SPair U V) = false) /\
  (forall fs, can_memcpy (STuple fs) = false) /\
  (forall names fs, can_memcpy (SStruct names fs) = false) /\
  (forall cs, can_memcpy (SVariant cs) = false) /\
  (forall ctors cs, can_memcpy (SNamedVariant ctors cs) = false) /\
  (forall T, can_memcpy (SVector T) = false) /\
  (forall K T, can_memcpy (SMap K T) = false) /\
  can_memcpy SString = false.
Proof. repeat split. Qed.

Module DescFacts.

Lemma signed_prim_name p : prim_name (signed_prim p) = prim_name p.
Proof. now destruct p. Qed.

Lemma forget_sign_types :
  (forall T, type_of (forget_sign T) = type_of T) /\
  (forall fs, types_of (forget_signs fs) = types_of fs /\
              forall i, accFields i (forget_signs fs) = accFields i fs).
Proof.
  apply shape_shapes_ind; intros; try apply conj; intros;
    cbn [forget_sign forget_signs type_of types_of accFields];
    rewrite ?signed_prim_name; try reflexivity;
    repeat match goal with H : _ /\ _ |- _ => destruct H end;
    try congruence.
  - (* SVariant *)
    destruct cs as [|h [|h' t]]; cbn [forget_signs types_of] in *; try reflexivity;
      repeat match goal with H : _ :: _ = _ :: _ |- _ => injection H as ? ? end;
      congruence.
  - (* STuple *)
    destruct fs; cbn [forget_signs] in *; [reflexivity|].
    match goal with H : forall i, _ = _ |- _ => now rewrite H end.
Qed.

End DescFacts.

(** C10. An unsigned integer has the descriptor of the signed integer of
    its width: [short], [int] and [long]. Hence two signatures that differ
    only in the signedness of integers anywhere in their shapes give the same
    declaration, whatever the encoding of descriptors is. *)
Theorem unsigned_share_descriptors :
  type_of (SPrim Tuint16) = DPrim "short" None /\
  type_of (SPrim Tint16) = DPrim "short" None /\
  type_of (SPrim Tuint32) = DPrim "int" None /\
  type_of (SPrim Tint32) = DPrim "int" None /\
  type_of (SPrim Tuint64) = DPrim "long" None /\
  type_of (SPrim Tint64) = DPrim "long" None /\
  (forall T, type_of (forget_sign T) = type_of T) /\
  (forall encoding exprid e R Args,
     makeRPCDef encoding exprid e (option_map forget_sign R) (forget_signs Args) =
     makeRPCDef encoding exprid e R Args).
Proof.
  repeat split.
  - apply DescFacts.forget_sign_types.
  - intros encoding exprid e R Args. unfold makeRPCDef, inputType, outputType.
    f_equal.
    + f_equal.
      change (type_of (forget_sign (STuple Args)) = type_of (STuple Args)).
      apply DescFacts.forget_sign_types.
    + destruct R as [T|]; [cbn [option_map]|reflexivity].
      f_equal. apply DescFacts.forget_sign_types.
Qed.

(* ================================================================== *)
(** * Blocking reads of vectors *)

(** C1, on the code. The blocking reader of a vector of scalars asks for
    [n] bytes where [n] is the number of elements: of the four bytes of the
    one [int32_t] that [write] sent, one is read, the element comes out as
    4 where 0x01020304 went in, and three bytes stay in the socket. *)
Theorem vector_blocking_read_short :
  let T := SVector (SPrim Tint32) in
  let x := VVector [VPrim [x04; x03; x02; x01]] in
  wf unsigned_lt T x = true /\
  wire T x = le_encode 8 1 ++ [x04; x03; x02; x01] /\
  read unsigned_lt T (default_value T) (mkSocket [] (wire T x) true true false) =
  (Ok (VVector [VPrim [x04; x00; x00; x00]]),
   mkSocket [] [x03; x02; x01] true true false).
Proof. repeat split. Qed.

(* ================================================================== *)
(** * Blocking reads give back what was written *)

Module ReadFacts.
Import WriteFacts.

Lemma is_scalar_inv w x : is_scalar w x = true -> exists m, x = VPrim m /\ length m = w.
Proof.
  destruct x; try discriminate. cbn. intros H. apply Nat.eqb_eq in H. eauto.
Qed.

Lemma memcpy_dest_scalar T : can_memcpy T = true ->
  forall d, dest T d = true -> is_scalar (sizeof T) d = true.
Proof.
  induction T; cbn [can_memcpy sizeof dest]; try discriminate; auto.
  destruct (can_memcpy T); discriminate.
Qed.

Lemma memcpy_wf_scalar key_lt T : can_memcpy T = true ->
  forall x, wf key_lt T x = true -> is_scalar (sizeof T) x = true.
Proof.
  induction T; cbn [can_memcpy sizeof wf]; try discriminate; auto.
  destruct (can_memcpy T); discriminate.
Qed.

Lemma flat_mem_cons x xs : flat_mem (x :: xs) = mem_of x ++ flat_mem xs.
Proof. reflexivity. Qed.

Lemma flat_mem_length w xs :
  forallb (is_scalar w) xs = true -> length (flat_mem xs) = w * length xs.
Proof.
  induction xs as [|x xs IH]; intros H; [simpl; lia|].
  cbn [forallb] in H. bool_hyps. rewrite flat_mem_cons, length_app, IH by assumption.
  destruct (is_scalar_inv _ _ H) as (m & -> & Hm). cbn [mem_of length]. lia.
Qed.

Lemma unflat_flat w xs :
  forallb (is_scalar w) xs = true -> unflat w (length xs) (flat_mem xs) = xs.
Proof.
  unfold unflat. induction xs as [|x xs IH]; intros H; [reflexivity|].
  cbn [forallb] in H. bool_hyps.
  destruct (is_scalar_inv _ _ H) as (m & -> & Hm).
  rewrite flat_mem_cons. cbn [mem_of length chunks map].
  rewrite firstn_app, skipn_app, <- Hm, Nat.sub_diag, firstn_all, skipn_all.
  cbn [firstn skipn app]. rewrite app_nil_r. f_equal. rewrite Hm. now apply IH.
Qed.

Lemma blit_all dst src : length dst = length src -> blit dst 0 src = src.
Proof.
  intros H. unfold blit. cbn [N.to_nat firstn app Nat.add].
  rewrite skipn_all2 by lia. apply app_nil_r.
Qed.

Lemma take_all n mem : n = len mem -> take n mem = mem.
Proof. intros ->. unfold take, len. rewrite Nat2N.id. apply firstn_all. Qed.

Lemma forallb_impl {A} (p q : A -> bool) xs :
  (forall a, p a = true -> q a = true) -> forallb p xs = true -> forallb q xs = true.
Proof.
  intros H. induction xs; cbn; [reflexivity|]. intros E. bool_hyps.
  now rewrite H, IHxs.
Qed.

Lemma forallb_repeat {A} (p : A -> bool) a n : p a = true -> forallb p (repeat a n) = true.
Proof. intros H. induction n; cbn; [reflexivity | now rewrite H, IHn]. Qed.

Lemma forallb_firstn {A} (p : A -> bool) n xs :
  forallb p xs = true -> forallb p (firstn n xs) = true.
Proof.
  revert n. induction xs; intros [|n] H; cbn in *; try reflexivity.
  bool_hyps. now rewrite H, IHxs.
Qed.

Lemma resize_length n d xs : length (resize n d xs) = N.to_nat n.
Proof.
  unfold resize. rewrite length_app, length_firstn, repeat_length. lia.
Qed.

Lemma resize_forallb p n d xs :
  p d = true -> forallb p xs = true -> forallb p (resize n d xs) = true.
Proof.
  intros Hd Hxs. unfold resize. rewrite forallb_app.
  now rewrite forallb_firstn, forallb_repeat.
Qed.

Lemma dest_default :
  (forall T, dest T (default_value T) = true) /\
  (forall fs, dest_seq fs (default_seq fs) = true).
Proof.
  apply shape_shapes_ind; intros; cbn [dest dest_seq default_value default_seq];
    try reflexivity; auto.
  - cbn. rewrite repeat_length. apply Nat.eqb_refl.
  - cbn. rewrite repeat_length. apply Nat.eqb_refl.
  - now rewrite H, H0.
  - rewrite forallb_repeat by assumption. unfold len. rewrite repeat_length, N2Nat.id.
    now rewrite N.eqb_refl.
  - now rewrite H, H0.
Qed.

End ReadFacts.

Module MapFacts.
Import WriteFacts.
Section Order.
Variable lt : value -> value -> bool.

Lemma assign_below k v m :
  below lt m k = true -> StdMap.assign lt k v m = m ++ [(k, v)].
Proof.
  induction m as [|[k' v'] m IH]; intros H; [reflexivity|].
  cbn [below forallb fst] in H. bool_hyps. cbn [StdMap.assign app].
  apply negb_true_iff in H1. rewrite H1, H. now rewrite IH.
Qed.

Lemma insert_below k v m :
  below lt m k = true -> StdMap.insert lt k v m = m ++ [(k, v)].
Proof.
  induction m as [|[k' v'] m IH]; intros H; [reflexivity|].
  cbn [below forallb fst] in H. bool_hyps. cbn [StdMap.insert app].
  apply negb_true_iff in H1. rewrite H1, H. now rewrite IH.
Qed.

Lemma below_snoc m k v k' :
  below lt m k' = true -> lt k k' = true -> lt k' k = false ->
  below lt (m ++ [(k, v)]) k' = true.
Proof.
  intros Hm H1 H2. unfold below. rewrite forallb_app. fold (below lt m k').
  rewrite Hm. cbn. now rewrite H1, H2.
Qed.

Lemma below_all_snoc m k v kvs :
  forallb (fun xp : value * value => below lt m (fst xp)) kvs = true ->
  StdMap.above lt k kvs = true ->
  forallb (fun xp : value * value => below lt (m ++ [(k, v)]) (fst xp)) kvs = true.
Proof.
  induction kvs as [|[k' v'] kvs IH]; intros Hb Ha; [reflexivity|].
  cbn [forallb fst] in *. cbn [StdMap.above] in Ha.
  apply andb_prop in Hb. destruct Hb as [Hb1 Hb2].
  apply andb_prop in Ha. destruct Ha as [Ha Ha3].
  apply andb_prop in Ha. destruct Ha as [Ha1 Ha2].
  apply negb_true_iff in Ha2.
  rewrite below_snoc by assumption. now apply IH.
Qed.

Lemma fold_sorted (put : value -> value -> list (value * value) -> list (value * value)) :
  (forall k v m, below lt m k = true -> put k v m = m ++ [(k, v)]) ->
  forall kvs m,
    forallb (fun xp : value * value => below lt m (fst xp)) kvs = true ->
    StdMap.sorted lt kvs = true ->
    fold_left (fun m (xp : value * value) => put (fst xp) (snd xp) m) kvs m = m ++ kvs.
Proof.
  intros Hput. induction kvs as [|[k v] kvs IH]; intros m Hb Hs.
  - cbn. now rewrite app_nil_r.
  - cbn [forallb fst] in Hb. cbn [StdMap.sorted] in Hs.
    apply andb_prop in Hb. destruct Hb as [Hb1 Hb2].
    apply andb_prop in Hs. destruct Hs as [Hs1 Hs2].
    cbn [fold_left fst snd]. rewrite Hput by assumption.
    rewrite IH; [now rewrite <- app_assoc | | assumption].
    now apply below_all_snoc.
Qed.

Lemma assign_all_sorted kvs :
  StdMap.sorted lt kvs = true -> assign_all lt kvs [] = kvs.
Proof.
  intros H. unfold assign_all. rewrite (fold_sorted (StdMap.assign lt)); auto using assign_below.
  clear H. induction kvs; cbn; auto.
Qed.

Lemma insert_all_sorted kvs :
  StdMap.sorted lt kvs = true -> insert_all lt kvs [] = kvs.
Proof.
  intros H. unfold insert_all. rewrite (fold_sorted (StdMap.insert lt)); auto using insert_below.
  clear H. induction kvs; cbn; auto.
Qed.

End Order.
End MapFacts.

Module RoundTrip.
Import WriteFacts ReadFacts.
Section Read.
Variable key_lt : shape -> value -> value -> bool.

(** Reading what [write] sent for [x] yields [x] and leaves what follows. *)
Local Abbreviation reads := (fun T : shape =>
  forall x d o rest c b f,
    wf key_lt T x = true -> dest T d = true ->
    read key_lt T d (mkSocket o (wire T x ++ rest) c b f) = (Ok x, mkSocket o rest c b f)).

Lemma read_scalar_ok w x o rest c b f :
  is_scalar w x = true ->
  read_scalar w (mkSocket o (mem_of x ++ rest) c b f) = (Ok x, mkSocket o rest c b f).
Proof.
  intros H. destruct (is_scalar_inv _ _ H) as (m & -> & Hm).
  unfold read_scalar, bind. cbn [mem_of].
  rewrite recvData_n with (bs := m) by (unfold len; now rewrite Hm).
  reflexivity.
Qed.

Lemma mapM_reads T : reads T ->
  forall xs ds o rest c b f,
    length ds = length xs ->
    forallb (wf key_lt T) xs = true -> forallb (dest T) ds = true ->
    mapM (read key_lt T) ds (mkSocket o (concat (map (wire T) xs) ++ rest) c b f) =
    (Ok xs, mkSocket o rest c b f).
Proof.
  intros HT. induction xs as [|x xs IH]; intros [|d ds] o rest c b f Hl Hx Hd;
    try discriminate; [reflexivity|].
  cbn [forallb] in Hx, Hd. bool_hyps. cbn [map concat mapM]. unfold bind.
  rewrite <- app_assoc, HT by assumption.
  rewrite IH by (auto; simpl in Hl; lia). reflexivity.
Qed.

Lemma read_entries_wire K T : reads K -> reads T ->
  forall kvs m o rest c b f,
    forallb (fun xp : value * value => wf key_lt K (fst xp) && wf key_lt T (snd xp)) kvs = true ->
    read_entries (key_lt K) (read key_lt K (default_value K)) (read key_lt T (default_value T))
      (length kvs) m (mkSocket o (wire_entries K T kvs ++ rest) c b f) =
    (Ok (assign_all (key_lt K) kvs m), mkSocket o rest c b f).
Proof.
  intros HK HT. induction kvs as [|[k v] kvs IH]; intros m o rest c b f H; [reflexivity|].
  cbn [forallb fst snd] in H. bool_hyps.
  unfold wire_entries. cbn [length read_entries map concat fst snd]. unfold bind.
  rewrite <- !app_assoc.
  rewrite HK by (auto; apply dest_default).
  rewrite HT by (auto; apply dest_default).
  now rewrite IH.
Qed.

Lemma narrow_scalar_flat T xs :
  can_memcpy T = true -> sizeof T = 1 ->
  forallb (wf key_lt T) xs = true -> length (flat_mem xs) = length xs.
Proof.
  intros Hc Hw Hx. rewrite (flat_mem_length 1); [lia|].
  rewrite <- Hw. eapply forallb_impl; [|exact Hx]. now apply memcpy_wf_scalar.
Qed.

Lemma read_variant cs :
  (forall n x o rest c b f, wf_nth key_lt cs n x = true ->
     read_nth key_lt cs n (mkSocket o (wire_nth cs n x ++ rest) c b f) =
     (Ok x, mkSocket o rest c b f)) ->
  forall x d o rest c b f,
    wf key_lt (SVariant cs) x = true ->
    read key_lt (SVariant cs) d (mkSocket o (wire (SVariant cs) x ++ rest) c b f) =
    (Ok x, mkSocket o rest c b f).
Proof.
  intros IH x d o rest c b f Hx. destruct x; try discriminate.
  cbn [wf] in Hx. bool_props. cbn [read wire]. unfold bind.
  rewrite <- app_assoc.
  change (le_encode 4 tag) with (mem_of (VPrim (le_encode 4 tag))) at 1.
  rewrite read_scalar_ok by (cbn [is_scalar]; rewrite le_encode_length; reflexivity).
  cbn [mem_of].
  rewrite le_decode_encode_small by (change (256 ^ N.of_nat 4)%N with (2 ^ 32)%N; lia).
  now rewrite IH.
Qed.

Lemma read_wire_all :
  (forall T, narrow_vectors T = true -> reads T) /\
  (forall fs, narrow_vectors_all fs = true ->
     (forall n x o rest c b f, wf_nth key_lt fs n x = true ->
        read_nth key_lt fs n (mkSocket o (wire_nth fs n x ++ rest) c b f) =
        (Ok x, mkSocket o rest c b f)) /\
     (forall xs ds o rest c b f, wf_seq key_lt fs xs = true -> dest_seq fs ds = true ->
        read_seq key_lt fs ds (mkSocket o (wire_seq fs xs ++ rest) c b f) =
        (Ok xs, mkSocket o rest c b f))).
Proof.
  apply shape_shapes_ind.
  - (* SPrim *) intros p _ x d o rest c b f Hx _. cbn [read wire]. now apply read_scalar_ok.
  - (* SUnit *) intros _ x d o rest c b f Hx Hd. destruct x, d; try discriminate. reflexivity.
  - (* SEnum *) intros rep meta _ x d o rest c b f Hx _. cbn [read wire]. now apply read_scalar_ok.
  - (* SVariant *) intros cs IH Hn x d o rest c b f Hx _.
    exact (read_variant cs (proj1 (IH Hn)) x d o rest c b f Hx).
  - (* SNamedVariant *) intros ctors cs IH Hn x d o rest c b f Hx _.
    exact (read_variant cs (proj1 (IH Hn)) x d o rest c b f Hx).
  - (* SPair *) intros U IHU V IHV Hn x d o rest c b f Hx Hd.
    destruct x, d; try discriminate. cbn [wf dest narrow_vectors] in *. bool_props.
    cbn [read wire]. unfold bind. rewrite <- app_assoc.
    rewrite IHU, IHV by assumption. reflexivity.
  - (* SArray *) intros T IH n Hn x d o rest c b f Hx Hd.
    destruct x as [| | | |xs| | | |], d as [| | | |ds| | | |]; try discriminate.
    cbn [wf dest narrow_vectors] in *. bool_props.
    assert (Hlen : length ds = length xs) by (unfold len in *; lia).
    cbn [read wire]. destruct (can_memcpy T) eqn:Hc.
    + assert (Hsx : forallb (is_scalar (sizeof T)) xs = true)
        by (eapply forallb_impl; [|eassumption]; now apply memcpy_wf_scalar).
      assert (Hsd : forallb (is_scalar (sizeof T)) ds = true)
        by (eapply forallb_impl; [|eassumption]; now apply memcpy_dest_scalar).
      pose proof (flat_mem_length _ _ Hsx) as Lx.
      pose proof (flat_mem_length _ _ Hsd) as Ld.
      assert (Hsz : size_mul (N.of_nat (sizeof T)) n = len (flat_mem xs)).
      { unfold size_mul. rewrite N.mod_small by assumption. unfold len in *. lia. }
      unfold bind. rewrite take_all by exact Hsz.
      rewrite recvData_n with (bs := flat_mem xs) by exact Hsz.
      rewrite blit_all by lia.
      replace (N.to_nat n) with (length xs) by (unfold len in *; lia).
      now rewrite unflat_flat.
    + unfold bind. rewrite (mapM_reads T (IH Hn)) by assumption. reflexivity.
  - (* SVector *) intros T IH Hn x d o rest c b f Hx Hd.
    destruct x as [| | | | |xs| | |], d as [| | | | |ds| | |]; try discriminate.
    cbn [wf dest narrow_vectors] in *. bool_hyps.
    assert (HnT : narrow_vectors T = true) by assumption.
    assert (Hwx : forallb (wf key_lt T) xs = true) by assumption.
    assert (Hdd : forallb (dest T) ds = true) by assumption.
    bool_props.
    cbn [read wire]. unfold bind. rewrite <- app_assoc, recv_size_ok by assumption.
    pose proof (resize_length (len xs) (default_value T) ds) as Hrl.
    destruct (can_memcpy T) eqn:Hc; bool_props.
    + assert (Hw1 : sizeof T = 1) by assumption.
      pose proof (narrow_scalar_flat T xs Hc Hw1 Hwx) as Lx.
      destruct (N.ltb_spec 0 (len xs)) as [Hpos|Hz].
      * assert (Hsz : size_mul (N.of_nat (sizeof T)) (len xs) = len (flat_mem xs)).
        { unfold size_mul. rewrite N.mod_small by assumption. unfold len. lia. }
        rewrite take_all by exact Hsz.
        rewrite recvData_n with (bs := flat_mem xs) by (unfold len; lia).
        rewrite blit_all.
        -- replace (N.to_nat (len xs)) with (length xs) by (unfold len; lia).
           rewrite unflat_flat; [reflexivity|].
           eapply forallb_impl; [|exact Hwx]. now apply memcpy_wf_scalar.
        -- rewrite (flat_mem_length 1).
           ++ rewrite Hrl. unfold len. lia.
           ++ rewrite <- Hw1. apply resize_forallb.
              ** apply memcpy_dest_scalar; [assumption | apply dest_default].
              ** eapply forallb_impl; [|exact Hdd]. now apply memcpy_dest_scalar.
      * assert (xs = []) by (destruct xs; [reflexivity | unfold len in Hz; simpl in Hz; lia]).
        subst xs. reflexivity.
    + rewrite (mapM_reads T (IH HnT)); try assumption; [reflexivity | |].
      * rewrite Hrl. unfold len. lia.
      * apply resize_forallb; [apply dest_default | assumption].
  - (* SMap *) intros K IHK T IHT Hn x d o rest c b f Hx Hd.
    destruct x as [| | | | | |kvs| |], d as [| | | | | |[|]| |]; try discriminate.
    cbn [wf narrow_vectors] in *. bool_props.
    cbn [read wire]. unfold bind. rewrite <- app_assoc, recv_size_ok by assumption.
    replace (N.to_nat (len kvs)) with (length kvs) by (unfold len; lia).
    fold (wire_entries K T kvs).
    rewrite (read_entries_wire K T) by auto.
    now rewrite MapFacts.assign_all_sorted.
  - (* SString *) intros _ x d o rest c b f Hx _. destruct x; try discriminate.
    cbn [wf] in Hx. bool_props.
    cbn [read wire]. unfold bind. rewrite <- app_assoc, recv_size_ok by assumption.
    now rewrite recvData_ok.
  - (* STuple *) intros fs IH Hn x d o rest c b f Hx Hd.
    destruct x, d; try discriminate. cbn [wf dest narrow_vectors] in *.
    cbn [read wire]. unfold bind. now rewrite (proj2 (IH Hn)).
  - (* SStruct *) intros names fs IH Hn x d o rest c b f Hx Hd.
    destruct x, d; try discriminate. cbn [wf dest narrow_vectors] in *.
    cbn [read wire]. unfold bind. now rewrite (proj2 (IH Hn)).
  - (* SAlias *) intros name RT IH Hn x d o rest c b f Hx Hd.
    cbn [wf dest narrow_vectors read wire] in *. now apply IH.
  - (* SNil *) intros _. split.
    + intros n x o rest c b f Hx. destruct n; discriminate.
    + intros xs ds o rest c b f Hx Hd. destruct xs, ds; try discriminate. reflexivity.
  - (* SCons *) intros h IHh t IHt Hn. cbn [narrow_vectors_all] in Hn. bool_hyps.
    assert (Hh : narrow_vectors h = true) by assumption.
    assert (Ht : narrow_vectors_all t = true) by assumption.
    destruct (IHt Ht) as [IHn IHs]. split.
    + intros n x o rest c b f Hx. destruct n; cbn [wf_nth read_nth wire_nth] in *.
      * apply IHh; auto. apply dest_default.
      * now apply IHn.
    + intros xs ds o rest c b f Hx Hd. destruct xs as [|x xs], ds as [|d ds]; try discriminate.
      cbn [wf_seq dest_seq] in *. bool_hyps. cbn [read_seq wire_seq]. unfold bind.
      rewrite <- app_assoc, IHh, IHs by assumption. reflexivity.
Qed.

Lemma read_wire T x d o rest c b f :
  narrow_vectors T = true -> wf key_lt T x = true -> dest T d = true ->
  read key_lt T d (mkSocket o (wire T x ++ rest) c b f) = (Ok x, mkSocket o rest c b f).
Proof. intros Hn. now apply (proj1 read_wire_all). Qed.

End Read.
End RoundTrip.

(* ================================================================== *)
(** * Resumable reads, one byte at a time *)

Module Resume.
Import WriteFacts ReadFacts.

Lemma quiet_app f bs1 bs2 o x o1 x1 o2 x2 :
  quiet f bs1 o x o1 x1 -> quiet f bs2 o1 x1 o2 x2 -> quiet f (bs1 ++ bs2) o x o2 x2.
Proof.
  induction 1; intros H2; [exact H2|].
  cbn [app]. econstructor; eauto.
Qed.

Lemma quiet_one f b o x o' x' : tick f b o x false o' x' -> quiet f [b] o x o' x'.
Proof. intros H. econstructor; [exact H | constructor]. Qed.

Lemma run_intro f init last o x o1 x1 o' x' :
  quiet f init o x o1 x1 -> tick f last o1 x1 true o' x' ->
  run f (init ++ [last]) o x o' x'.
Proof. intros H1 H2. exists init, last, o1, x1. auto. Qed.

(** A reader that stays quiet through [bs1] and then runs through [bs2]. *)
Lemma quiet_run f bs1 bs2 o x o1 x1 o2 x2 :
  quiet f bs1 o x o1 x1 -> run f bs2 o1 x1 o2 x2 -> run f (bs1 ++ bs2) o x o2 x2.
Proof.
  intros H1 (init & last & o3 & x3 & -> & H2 & H3).
  rewrite app_assoc. eapply run_intro; [|exact H3]. eapply quiet_app; eauto.
Qed.

Lemma run_nonempty f bs o x o' x' : run f bs o x o' x' -> bs <> [].
Proof. intros (init & last & ? & ? & -> & _). now destruct init. Qed.

(** What the driver sees of a quiet stretch and of a run. *)
Lemma quiet_drive f bs o x o' x' :
  quiet f bs o x o' x' ->
  forall (k : list bool * rstate * value -> M (list bool * rstate * value)) rest out c bl fl,
    (r <- drive f (bs ++ rest) o x ;; k r) (mkSocket out [] c bl fl) =
    (r <- drive f rest o' x' ;;
     let '(dones, o'', x'') := r in k (repeat false (length bs) ++ dones, o'', x''))
      (mkSocket out [] c bl fl).
Proof.
  induction 1 as [o x | b bs o x o1 x1 o' x' Ht Hq IH]; intros k rest out c bl fl.
  - cbn [app length repeat]. unfold bind.
    destruct (drive f rest o x (mkSocket out [] c bl fl)) as [[[[ds o2] x2]|e] s2]; reflexivity.
  - cbn [app length repeat drive]. unfold bind at 1 2 3. unfold arrive, set_inb.
    cbn [inb outb peer_closed blocking send_fails app]. rewrite Ht.
    specialize (IH (fun r => let '(dones, o'', x'') := r in k (false :: dones, o'', x''))
                   rest out c bl fl).
    unfold bind in *.
    destruct (drive f (bs ++ rest) o1 x1 (mkSocket out [] c bl fl))
      as [[[[ds o2] x2]|e] s2]; cbn in IH |- *.
    + rewrite IH.
      destruct (drive f rest o' x' (mkSocket out [] c bl fl))
        as [[[[ds3 o3] x3]|e3] s3]; reflexivity.
    + rewrite IH.
      destruct (drive f rest o' x' (mkSocket out [] c bl fl))
        as [[[[ds3 o3] x3]|e3] s3]; reflexivity.
Qed.

Lemma run_drive f bs o x o' x' :
  run f bs o x o' x' ->
  forall out c bl fl,
    drive f bs o x (mkSocket out [] c bl fl) =
    (Ok (repeat false (length bs - 1) ++ [true], o', x'), mkSocket out [] c bl fl).
Proof.
  intros (init & last & o1 & x1 & -> & Hq & Ht) out c bl fl.
  pose proof (quiet_drive f init o x o1 x1 Hq ret [last] out c bl fl) as H.
  unfold bind, ret in H.
  destruct (drive f (init ++ [last]) o x (mkSocket out [] c bl fl))
    as [[[[ds o2] x2]|e] s2]; rewrite H; clear H;
    cbn [drive]; unfold bind, arrive, set_inb, ret;
    cbn [inb outb peer_closed blocking send_fails app]; rewrite Ht;
    rewrite length_app; cbn [length]; rewrite Nat.add_sub; reflexivity.
Qed.

Lemma recvDataPartial_one sz b out c bl fl :
  sz <> 0%N ->
  recvDataPartial sz (mkSocket out [b] c bl fl) = (Ok [b], mkSocket out [] c bl fl).
Proof.
  intros H. unfold recvDataPartial. cbn [inb].
  destruct (N.eqb_spec sz 0); [contradiction|].
  replace (N.to_nat (N.min sz (len [b]))) with 1%nat; [reflexivity|].
  unfold len. cbn [length]. lia.
Qed.

(** ** Scalars and sizes *)

Lemma blit_one mem i b :
  blit mem (N.of_nat i) [b] = firstn i mem ++ [b] ++ skipn (S i) mem.
Proof. unfold blit. rewrite Nat2N.id. cbn [length]. now rewrite Nat.add_1_r. Qed.

Lemma blit_one_length mem i b : i < length mem -> length (blit mem (N.of_nat i) [b]) = length mem.
Proof.
  intros H. rewrite blit_one, !length_app, length_firstn, length_skipn. cbn [length]. lia.
Qed.

Lemma blit_one_split pre s suf b :
  blit (pre ++ s :: suf) (N.of_nat (length pre)) [b] = (pre ++ [b]) ++ suf.
Proof.
  rewrite blit_one. rewrite firstn_app, Nat.sub_diag, firstn_all. cbn [firstn].
  rewrite app_nil_r. rewrite skipn_app.
  replace (S (length pre) - length pre) with 1 by lia.
  rewrite skipn_all2 by lia. cbn [skipn app]. now rewrite <- app_assoc.
Qed.

Lemma blits_split bs : forall pre suf,
  length suf = length bs ->
  forall tail, blits (pre ++ suf ++ tail) (length pre) bs = pre ++ bs ++ tail.
Proof.
  induction bs as [|b bs IH]; intros pre suf Hl tail.
  - destruct suf; [reflexivity | discriminate].
  - destruct suf as [|s suf]; [discriminate|]. cbn [blits].
    change ((s :: suf) ++ tail) with (s :: (suf ++ tail)).
    rewrite blit_one_split.
    replace (S (length pre)) with (length (pre ++ [b])) by (rewrite length_app; cbn; lia).
    rewrite IH by (simpl in Hl; lia). now rewrite <- app_assoc.
Qed.

Lemma blits_all bs mem : length mem = length bs -> blits mem 0 bs = bs.
Proof.
  intros H. pose proof (blits_split bs [] mem H []) as E.
  cbn [app length] in E. now rewrite !app_nil_r in E.
Qed.

Lemma size_sub_small a b : (b <= a)%N -> (a < size_max)%N -> size_sub a b = (a - b)%N.
Proof.
  intros H1 H2. unfold size_sub.
  replace (size_max + a - b)%N with ((a - b) + 1 * size_max)%N by lia.
  rewrite N.Div0.mod_add. apply N.mod_small. lia.
Qed.

Lemma scalar_tick w i mem b :
  i < w -> w < 256 ->
  tick (accum_scalar w) b (RCount (N.of_nat i)) (VPrim mem)
       (Nat.eqb (S i) w) (RCount (N.of_nat (S i))) (VPrim (blit mem (N.of_nat i) [b])).
Proof.
  intros Hi Hw out c bl fl. unfold accum_scalar, bind.
  rewrite recvDataPartial_one.
  - unfold ret. cbn [mem_of].
    assert (E : ((N.of_nat i + len [b]) mod 256)%N = N.of_nat (S i))
      by (unfold len; cbn [length]; rewrite N.mod_small; lia).
    rewrite E. repeat f_equal.
    destruct (Nat.eqb_spec (S i) w), (N.eqb_spec (N.of_nat (S i)) (N.of_nat w)); auto; lia.
  - rewrite size_sub_small; unfold size_max; lia.
Qed.

(** A reader that counts bytes into a buffer of [L] bytes: [S j] is its state
    after [j] bytes, [V mem] the object whose storage is [mem]. *)
Lemma counter_run_from (f : reader) (S_ : nat -> rstate) (V : list byte -> value) L :
  (forall j mem b, j < L -> length mem = L ->
     tick f b (S_ j) (V mem) (Nat.eqb (S j) L) (S_ (S j)) (V (blit mem (N.of_nat j) [b]))) ->
  forall rest pre suf,
    length pre + length rest = L -> length suf = length rest -> rest <> [] ->
    run f rest (S_ (length pre)) (V (pre ++ suf)) (S_ L) (V (pre ++ rest)).
Proof.
  intros Hstep. induction rest as [|b rest IH]; intros pre suf Hl Hs Hne; [contradiction|].
  destruct suf as [|s suf]; [discriminate|].
  pose proof (Hstep (length pre) (pre ++ s :: suf) b) as Ht.
  rewrite blit_one_split in Ht. cbn [length] in Hl, Hs.
  assert (Hlen : length (pre ++ s :: suf) = L) by (rewrite length_app; cbn [length]; lia).
  destruct rest as [|b' rest].
  - destruct suf; [|discriminate]. rewrite app_nil_r in Ht.
    replace (Nat.eqb (S (length pre)) L) with true in Ht
      by (symmetry; apply Nat.eqb_eq; cbn in Hl; lia).
    replace (S (length pre)) with L in Ht by (cbn in Hl; lia).
    eapply (run_intro _ [] b); [constructor|]. apply Ht; [cbn in Hl; lia | exact Hlen].
  - replace (Nat.eqb (S (length pre)) L) with false in Ht
      by (symmetry; apply Nat.eqb_neq; cbn in Hl; lia).
    change (b :: b' :: rest) with ([b] ++ b' :: rest).
    eapply quiet_run.
    + apply quiet_one. apply Ht; [cbn in Hl; lia | exact Hlen].
    + replace (S (length pre)) with (length (pre ++ [b])) by (rewrite length_app; cbn; lia).
      replace (pre ++ [b] ++ b' :: rest) with ((pre ++ [b]) ++ b' :: rest)
        by now rewrite <- app_assoc.
      apply IH.
      * rewrite length_app. cbn in *. lia.
      * cbn in *. lia.
      * discriminate.
Qed.

Lemma counter_run (f : reader) (S_ : nat -> rstate) (V : list byte -> value) body mem0 :
  (forall j mem b, j < length body -> length mem = length body ->
     tick f b (S_ j) (V mem) (Nat.eqb (S j) (length body)) (S_ (S j))
          (V (blit mem (N.of_nat j) [b]))) ->
  length mem0 = length body -> body <> [] ->
  run f body (S_ 0) (V mem0) (S_ (length body)) (V body).
Proof.
  intros Hstep Hl Hne.
  exact (counter_run_from f S_ V (length body) Hstep body [] mem0 eq_refl Hl Hne).
Qed.

(** A scalar of [w] bytes is complete when its last byte arrives. *)
Lemma scalar_run w x d :
  0 < w -> w < 256 -> is_scalar w x = true -> is_scalar w d = true ->
  run (accum_scalar w) (mem_of x) (RCount 0) d (RCount (N.of_nat w)) x.
Proof.
  intros H0 Hw Hx Hd.
  destruct (is_scalar_inv _ _ Hx) as (m & -> & Hm).
  destruct (is_scalar_inv _ _ Hd) as (m0 & -> & Hm0).
  cbn [mem_of]. subst w.
  apply (counter_run (accum_scalar (length m)) (fun j => RCount (N.of_nat j)) VPrim m m0).
  - intros j mem b Hj _. apply scalar_tick; lia.
  - lia.
  - destruct m; [cbn in H0; lia | discriminate].
Qed.

Lemma sizeof_prim_range p : 0 < sizeof_prim p /\ sizeof_prim p < 256.
Proof. destruct p; cbn; lia. Qed.

(** [accum_scalar] on an integer field of [w] bytes that holds [n]. *)
Lemma field_tick w i n b :
  i < w -> w < 256 ->
  tick (accum_scalar w) b (RCount (N.of_nat i)) (VPrim (le_encode w n))
       (Nat.eqb (S i) w) (RCount (N.of_nat (S i)))
       (VPrim (blit (le_encode w n) (N.of_nat i) [b])).
Proof. intros. now apply scalar_tick. Qed.

Lemma size_tick i n b out c bl fl :
  i < 8 ->
  accum_size (RCount (N.of_nat i)) n (mkSocket out [b] c bl fl) =
  (Ok (Nat.eqb (S i) 8, RCount (N.of_nat (S i)), poke 8 n i b), mkSocket out [] c bl fl).
Proof.
  intros Hi. unfold accum_size, bind, size_t_width.
  rewrite (field_tick 8 i n b) by lia. reflexivity.
Qed.

Lemma encode_poke w n i b :
  i < w -> le_encode w (poke w n i b) = blit (le_encode w n) (N.of_nat i) [b].
Proof.
  intros Hi. unfold poke.
  rewrite <- (le_encode_decode (blit (le_encode w n) (N.of_nat i) [b])) at 2.
  now rewrite blit_one_length, le_encode_length by (rewrite le_encode_length; lia).
Qed.

Lemma pokes_blits w bs : forall i n,
  bs <> [] -> i + length bs <= w -> pokes w n i bs = le_decode (blits (le_encode w n) i bs).
Proof.
  induction bs as [|b bs IH]; intros i n Hne Hl; [contradiction|].
  cbn [pokes blits]. destruct bs as [|b' bs].
  - reflexivity.
  - rewrite IH by (try discriminate; cbn [length] in *; lia).
    now rewrite encode_poke by (cbn [length] in *; lia).
Qed.

Lemma pokes_snoc w bs : forall i n b,
  pokes w n i (bs ++ [b]) = poke w (pokes w n i bs) (i + length bs) b.
Proof.
  induction bs as [|b0 bs IH]; intros i n b; cbn [app pokes length].
  - now rewrite Nat.add_0_r.
  - rewrite IH. f_equal. lia.
Qed.

Lemma pokes_all w N n :
  0 < w -> (N < 256 ^ N.of_nat w)%N -> pokes w n 0 (le_encode w N) = N.
Proof.
  intros Hw H. rewrite pokes_blits.
  - rewrite blits_all by now rewrite !le_encode_length.
    now apply le_decode_encode_small.
  - destruct w; [lia | discriminate].
  - now rewrite le_encode_length.
Qed.

Lemma last_split {A} (l : list A) n :
  length l = S n -> exists init last, l = init ++ [last] /\ length init = n.
Proof.
  intros H. destruct (exists_last (l := l)) as (init & last & ->).
  - destruct l; discriminate.
  - exists init, last. split; [reflexivity|]. rewrite length_app in H. cbn in H. lia.
Qed.

Lemma field_quiet w (f : reader) (W : rstate -> N -> rstate * value) :
  (forall i n b, S i < w ->
     tick f b (fst (W (RCount (N.of_nat i)) n)) (snd (W (RCount (N.of_nat i)) n)) false
          (fst (W (RCount (N.of_nat (S i))) (poke w n i b)))
          (snd (W (RCount (N.of_nat (S i))) (poke w n i b)))) ->
  forall bs i n, S (i + length bs) <= w ->
    quiet f bs (fst (W (RCount (N.of_nat i)) n)) (snd (W (RCount (N.of_nat i)) n))
          (fst (W (RCount (N.of_nat (i + length bs))) (pokes w n i bs)))
          (snd (W (RCount (N.of_nat (i + length bs))) (pokes w n i bs))).
Proof.
  intros Hstep. induction bs as [|b bs IH]; intros i n Hl.
  - cbn [length pokes]. rewrite Nat.add_0_r. constructor.
  - cbn [length pokes] in *. econstructor.
    + apply Hstep. lia.
    + replace (i + S (length bs)) with (S i + length bs) by lia. apply IH. lia.
Qed.

(** The bytes of an integer field of [S w] bytes read by a composite reader
    whose state and object are [W lenS n] while the field holds [n]: [w] quiet
    calls, and the field holds the integer with the last byte. *)
Lemma field_phase w (f : reader) (W : rstate -> N -> rstate * value) N n0 :
  S w < 256 -> (N < 256 ^ N.of_nat (S w))%N ->
  (forall i n b, S i < S w ->
     tick f b (fst (W (RCount (N.of_nat i)) n)) (snd (W (RCount (N.of_nat i)) n)) false
          (fst (W (RCount (N.of_nat (S i))) (poke (S w) n i b)))
          (snd (W (RCount (N.of_nat (S i))) (poke (S w) n i b)))) ->
  exists init last nw,
    le_encode (S w) N = init ++ [last] /\
    quiet f init (fst (W (RCount 0) n0)) (snd (W (RCount 0) n0))
          (fst (W (RCount (N.of_nat w)) nw)) (snd (W (RCount (N.of_nat w)) nw)) /\
    tick (accum_scalar (S w)) last (RCount (N.of_nat w)) (VPrim (le_encode (S w) nw))
         true (RCount (N.of_nat (S w))) (VPrim (le_encode (S w) N)).
Proof.
  intros Hw HN Hstep.
  destruct (last_split (le_encode (S w) N) w (le_encode_length (S w) N))
    as (init & last & E & Lw).
  exists init, last, (pokes (S w) n0 0 init). split; [exact E|]. split.
  - pose proof (field_quiet (S w) f W Hstep init 0 n0) as Hq.
    rewrite Lw in Hq. apply Hq. lia.
  - pose proof (field_tick (S w) w (pokes (S w) n0 0 init) last) as Ht.
    rewrite Nat.eqb_refl in Ht.
    replace (blit (le_encode (S w) (pokes (S w) n0 0 init)) (N.of_nat w) [last])
      with (le_encode (S w) N) in Ht; [apply Ht; lia|].
    rewrite <- encode_poke by lia.
    pose proof (pokes_snoc (S w) init 0 n0 last) as Hs. rewrite Lw in Hs. cbn [Nat.add] in Hs.
    rewrite <- Hs, <- E. rewrite pokes_all; [reflexivity | lia | exact HN].
Qed.

(** The eight bytes of a size: seven quiet calls, and the size is there
    with the eighth. *)
Lemma size_phase (f : reader) (W : rstate -> N -> rstate) (X : value) N n0 :
  (N < size_max)%N ->
  (forall i n b, i < 7 ->
     tick f b (W (RCount (N.of_nat i)) n) X false (W (RCount (N.of_nat (S i))) (poke 8 n i b)) X) ->
  exists first7 b7 n7,
    le_encode 8 N = first7 ++ [b7] /\
    quiet f first7 (W (RCount 0) n0) X (W (RCount 7) n7) X /\
    forall out c bl fl,
      accum_size (RCount 7) n7 (mkSocket out [b7] c bl fl) =
      (Ok (true, RCount 8, N), mkSocket out [] c bl fl).
Proof.
  intros HN Hstep.
  destruct (field_phase 7 f (fun lenS n => (W lenS n, X)) N n0) as (i7 & b7 & n7 & E & Hq & Ht).
  - lia.
  - exact HN.
  - intros i n b Hi. cbn [fst snd]. apply Hstep. lia.
  - exists i7, b7, n7. split; [exact E|]. split; [exact Hq|].
    intros out c bl fl. unfold accum_size, bind, size_t_width. rewrite Ht.
    unfold ret. cbn [fst snd mem_of]. repeat f_equal.
    now apply le_decode_encode_small.
Qed.

Ltac lenlia := unfold len, size_max in *; cbn [length] in *; lia.

Lemma size_add_one j L (b : byte) : (N.of_nat j < L)%N -> (L < size_max)%N ->
  size_add (N.of_nat j) (len [b]) = N.of_nat (S j).
Proof.
  intros H1 H2. unfold size_add, len. cbn [length]. rewrite N.mod_small; lia.
Qed.

Lemma len_one (b : byte) : len [b] = 1%N.
Proof. reflexivity. Qed.

Lemma resize_bytes_length n cs : length (resize_bytes n cs) = N.to_nat n.
Proof.
  unfold resize_bytes. rewrite length_app, length_firstn, repeat_length. lia.
Qed.

Lemma eqb_nat_N a b : N.eqb (N.of_nat a) (N.of_nat b) = Nat.eqb a b.
Proof.
  destruct (Nat.eqb_spec a b), (N.eqb_spec (N.of_nat a) (N.of_nat b)); auto; lia.
Qed.

Lemma memcpy_sizeof T : can_memcpy T = true -> 0 < sizeof T < 256.
Proof.
  induction T; cbn [can_memcpy sizeof]; try discriminate; auto using sizeof_prim_range.
  destruct (can_memcpy T); discriminate.
Qed.

Lemma chunks_length w n mem : length (chunks w n mem) = n.
Proof. revert mem. induction n; intros; cbn; [reflexivity | now rewrite IHn]. Qed.

Lemma unflat_length w n mem : length (unflat w n mem) = n.
Proof. unfold unflat. now rewrite length_map, chunks_length. Qed.

Lemma flat_unflat w n : forall mem, length mem = w * n -> flat_mem (unflat w n mem) = mem.
Proof.
  unfold flat_mem, unflat. induction n; intros mem H.
  - rewrite Nat.mul_0_r in H. destruct mem; [reflexivity | discriminate].
  - cbn [chunks map concat mem_of]. rewrite IHn.
    + apply firstn_skipn.
    + rewrite length_skipn. lia.
Qed.

Lemma unflat_scalars w n mem :
  length mem = w * n -> forallb (is_scalar w) (unflat w n mem) = true.
Proof.
  unfold unflat. revert mem. induction n; intros mem H; [reflexivity|].
  cbn [chunks map forallb is_scalar]. rewrite IHn by (rewrite length_skipn; lia).
  rewrite length_firstn. replace (Nat.min w (length mem)) with w by lia.
  now rewrite Nat.eqb_refl.
Qed.

(** A buffer of scalars filled byte by byte: the bytes of [xs] arrive into
    the storage of [ds]. *)
Lemma blob_run (f : reader) (S_ : nat -> rstate) (V : list value -> value) w xs ds :
  0 < w ->
  (forall j mem b, j < w * length xs -> length mem = w * length xs ->
     tick f b (S_ j) (V (unflat w (length xs) mem)) (Nat.eqb (S j) (w * length xs)) (S_ (S j))
          (V (unflat w (length xs) (blit mem (N.of_nat j) [b])))) ->
  forallb (is_scalar w) xs = true -> forallb (is_scalar w) ds = true ->
  length ds = length xs -> xs <> [] ->
  run f (flat_mem xs) (S_ 0) (V ds) (S_ (w * length xs)) (V xs).
Proof.
  intros Hw Hstep Hx Hd Hl Hne.
  pose proof (flat_mem_length _ _ Hx) as Lx. pose proof (flat_mem_length _ _ Hd) as Ld.
  rewrite <- (unflat_flat w xs Hx) at 3.
  rewrite <- (unflat_flat w ds Hd) at 1. rewrite Hl, <- Lx.
  apply (counter_run f S_ (fun mem => V (unflat w (length xs) mem))
           (flat_mem xs) (flat_mem ds)).
  - intros j mem b Hj Hm. rewrite Lx in *. now apply Hstep.
  - lia.
  - destruct xs as [|x xs]; [contradiction|]. intros E.
    apply (f_equal (@length byte)) in E. rewrite Lx in E. cbn in E. lia.
Qed.

Section Shapes.
Variable key_lt : shape -> value -> value -> bool.

(** Fed the bytes of [x] one at a time from a prepared state, the reader of
    [T] returns [true] with the last byte, and [x] is read. *)
Local Abbreviation runs T :=
  (forall x d o0,
    wf key_lt T x = true -> dest T d = true -> state_ok T o0 = true ->
    exists o', run (accum key_lt T) (wire T x) (prepare T o0) d o' x /\ state_ok T o' = true).

Lemma runs_scalar T w :
  (forall o x, accum key_lt T o x = accum_scalar w o x) ->
  (forall o, prepare T o = RCount 0) ->
  (forall x, wire T x = mem_of x) ->
  (forall x, wf key_lt T x = is_scalar w x) -> (forall d, dest T d = is_scalar w d) ->
  (forall o, state_ok T o = true) ->
  0 < w < 256 -> runs T.
Proof.
  intros Ha Hp Hwi Hwf Hd Hs Hw x d o0 Hx Hdd _.
  exists (RCount (N.of_nat w)). split; [|apply Hs].
  rewrite Hp, Hwi. rewrite Hwf in Hx. rewrite Hd in Hdd.
  destruct (scalar_run w x d) as (init & last & o1 & x1 & E & Hq & Ht); try assumption; try lia.
  exists init, last, o1, x1. repeat split; [exact E | | ].
  - clear - Hq Ha. induction Hq; econstructor; eauto.
    intros out c bl fl. rewrite Ha. apply H.
  - intros out c bl fl. rewrite Ha. apply Ht.
Qed.

Lemma runs_prim p : runs (SPrim p).
Proof.
  apply (runs_scalar (SPrim p) (sizeof_prim p)); try reflexivity.
  apply sizeof_prim_range.
Qed.

Lemma runs_enum rep meta : runs (SEnum rep meta).
Proof.
  apply (runs_scalar (SEnum rep meta) (sizeof_prim rep)); try reflexivity.
  apply sizeof_prim_range.
Qed.

Lemma runs_string : runs SString.
Proof.
  intros x d o0 Hx Hd _. destruct x as [| | | | | | |cs|], d as [| | | | | | |cs0|]; try discriminate.
  cbn [wf] in Hx. bool_props. cbn [prepare wire].
  set (br0 := Field.bytesRead o0). set (bl0 := Field.byteLen o0).
  destruct (size_phase (accum key_lt SString)
              (fun lenS n => RLenBytes true lenS br0 n) (VString cs0) (len cs) bl0)
    as (first7 & b7 & n7 & E & Hq & Hlast); [assumption| |].
  { intros i n b Hi out c bl fl. cbn [accum]. unfold bind.
    rewrite size_tick by lia.
    replace (Nat.eqb (S i) 8) with false by (symmetry; apply Nat.eqb_neq; lia).
    reflexivity. }
  exists (RLenBytes false (RCount 8) (len cs) (len cs)). split; [|reflexivity].
  rewrite E.
  assert (Hb7 : tick (accum key_lt SString) b7 (RLenBytes true (RCount 7) br0 n7) (VString cs0)
                  (0 =? len cs)%N (RLenBytes false (RCount 8) 0 (len cs))
                  (VString (resize_bytes (len cs) cs0))).
  { intros out c bl fl. cbn [accum]. unfold bind. rewrite Hlast. reflexivity. }
  destruct cs as [|c0 cs].
  - rewrite app_nil_r. eapply run_intro; [exact Hq|]. exact Hb7.
  - replace (0 =? len (c0 :: cs))%N with false in Hb7 by (symmetry; apply N.eqb_neq; unfold len; cbn; lia).
    rewrite <- app_assoc. eapply quiet_run; [exact Hq|].
    eapply quiet_run; [apply quiet_one; exact Hb7|].
    pose proof (counter_run (accum key_lt SString)
                  (fun j => RLenBytes false (RCount 8) (N.of_nat j) (len (c0 :: cs))) VString
                  (c0 :: cs) (resize_bytes (len (c0 :: cs)) cs0)) as Hrun.
    apply Hrun; clear Hrun.
    + intros j mem b Hj Hm out c bl fl. cbn [accum]. unfold bind.
      rewrite recvDataPartial_one by (rewrite size_sub_small; lenlia).
      unfold ret, lenbytes_done. cbn [Field.readLen Field.bytesRead Field.byteLen negb andb].
      rewrite (size_add_one j (len (c0 :: cs)) b) by lenlia.
      unfold len at 1. now rewrite eqb_nat_N.
    + rewrite resize_bytes_length. unfold len. lia.
    + discriminate.
Qed.

(** ** Composite readers *)

(** A composite reader that hands its bytes to a part: while the part is
    quiet, so is the composite. *)
Lemma quiet_map (f g : reader) (wo : rstate -> rstate) (wx : value -> value) :
  (forall b o x o1 x1, tick g b o x false o1 x1 ->
                       tick f b (wo o) (wx x) false (wo o1) (wx x1)) ->
  forall bs o x o' x', quiet g bs o x o' x' -> quiet f bs (wo o) (wx x) (wo o') (wx x').
Proof.
  intros Hstep bs o x o' x' Hq. induction Hq; econstructor; eauto.
Qed.

Lemma state_ok_fresh :
  forall T, state_ok T RFresh = true.
Proof.
  induction T; cbn [state_ok Field.fstState Field.sndState Field.elemS Field.kS Field.tS
                    Field.k Field.t]; auto.
  - now rewrite IHT1, IHT2.
  - rewrite IHT1, IHT2. now rewrite !(proj1 dest_default).
Qed.

Lemma state_ok_prepare : forall T o, state_ok T o = true -> state_ok T (prepare T o) = true.
Proof.
  induction T; intros o H; cbn [state_ok prepare] in *; auto.
  - bool_hyps. cbn [Field.fstState Field.sndState]. now rewrite IHT1, IHT2.
  - destruct (can_memcpy T); cbn [Field.elemS]; [apply state_ok_fresh | now apply IHT].
  - destruct (can_memcpy T); cbn [Field.elemS]; [apply state_ok_fresh | assumption].
Qed.

Lemma pair_tick_fst U V b su a done su1 a1 sv db :
  tick (accum key_lt U) b su a done su1 a1 ->
  tick (accum key_lt (SPair U V)) b (RPair true su sv) (VPair a db)
       false (RPair (negb done) su1 sv) (VPair a1 db).
Proof. intros H out c bl fl. cbn [accum]. unfold bind. now rewrite H. Qed.

Lemma pair_tick_snd U V b sv x done sv1 x1 su a :
  tick (accum key_lt V) b sv x done sv1 x1 ->
  tick (accum key_lt (SPair U V)) b (RPair false su sv) (VPair a x)
       done (RPair false su sv1) (VPair a x1).
Proof. intros H out c bl fl. cbn [accum]. unfold bind. now rewrite H. Qed.

Lemma runs_pair U V : runs U -> runs V -> runs (SPair U V).
Proof.
  intros HU HV x d o0 Hx Hd Ho.
  destruct x as [| | |xa xb| | | | |], d as [| | |da db| | | | |]; try discriminate.
  cbn [wf dest state_ok] in *. bool_hyps.
  destruct (HU xa da (Field.fstState o0)) as (oU & (iA & lA & o1 & x1 & EA & QA & TA) & SU);
    try assumption.
  destruct (HV xb db (Field.sndState o0)) as (oV & (iB & lB & o2 & x2 & EB & QB & TB) & SV);
    try assumption.
  exists (RPair false oU oV). split; [|cbn; now rewrite SU, SV].
  cbn [prepare wire]. rewrite EA, EB.
  set (sv := prepare V (Field.sndState o0)).
  replace ((iA ++ [lA]) ++ iB ++ [lB]) with ((iA ++ [lA] ++ iB) ++ [lB])
    by now rewrite <- !app_assoc.
  eapply run_intro.
  - eapply quiet_app.
    + apply (quiet_map (accum key_lt (SPair U V)) (accum key_lt U)
               (fun su => RPair true su sv) (fun a => VPair a db)); [|exact QA].
      intros b o x ? ? Ht. exact (pair_tick_fst U V b o x false _ _ sv db Ht).
    + eapply quiet_app.
      * apply quiet_one. exact (pair_tick_fst U V lA o1 x1 true _ _ sv db TA).
      * apply (quiet_map (accum key_lt (SPair U V)) (accum key_lt V)
                 (fun s => RPair false oU s) (fun v => VPair xa v)); [|exact QB].
        intros b o x ? ? Ht. now apply pair_tick_snd.
  - now apply pair_tick_snd.
Qed.

Lemma runs_alias name RT : runs RT -> runs (SAlias name RT).
Proof. intros H. exact H. Qed.

Lemma nth_shape_wf cs : forall n x,
  wf_nth key_lt cs n x = true -> exists C, nth_shape cs n = Some C.
Proof.
  induction cs as [|h t IH].
  - intros n x H. destruct n; discriminate.
  - intros [|n] x H; cbn in *; eauto.
Qed.

Lemma nth_shape_facts cs : forall n C,
  nth_shape cs n = Some C ->
  (forall o x, accum_nth key_lt cs n o x = accum key_lt C o x) /\
  (forall x, wire_nth cs n x = wire C x) /\
  (forall x, wf_nth key_lt cs n x = wf key_lt C x) /\
  (forall o, prepare_nth cs n o = prepare C o).
Proof.
  induction cs as [|h t IH].
  - intros n C H. destruct n; discriminate.
  - intros [|n] C H; cbn in H.
    + injection H as <-. repeat split.
    + destruct (IH n C H) as (H1 & H2 & H3 & H4). repeat split; cbn; auto.
Qed.

Lemma runs_variant cs :
  (forall n C, nth_shape cs n = Some C -> runs C) -> runs (SVariant cs).
Proof.
  intros IH x d o0 Hx Hd _.
  destruct x as [| |tag p| | | | | |], d as [| |tag0 p0| | | | | |]; try discriminate.
  cbn [wf] in Hx. bool_props.
  destruct (nth_shape_wf cs _ _ H0) as (C & HC).
  destruct (nth_shape_facts cs _ C HC) as (Ha & Hw & Hwf & _).
  rewrite Hwf in H0.
  destruct (IH _ C HC p (default_value C) RFresh)
    as (oC & (iP & lP & o1 & x1 & EP & QP & TP) & SC);
    [assumption | apply dest_default | apply state_ok_fresh |].
  set (pt0 := Field.ptag o0). set (ps0 := Field.payloadState o0).
  set (f := accum key_lt (SVariant cs)).
  destruct (field_phase 3 f (fun lenS n => (RVariant true lenS pt0 ps0, VVariant n p0)) tag tag0)
    as (iT & lT & nT & ET & QT & TT).
  { lia. }
  { change (256 ^ N.of_nat 4)%N with (2 ^ 32)%N. lia. }
  { intros i n b Hi out c bl fl. cbn [fst snd]. subst f. cbn [accum]. unfold bind.
    rewrite (field_tick 4 i n b) by lia.
    replace (Nat.eqb (S i) 4) with false by (symmetry; apply Nat.eqb_neq; lia).
    reflexivity. }
  cbn [fst snd] in QT.
  assert (Tlast : tick f lT (RVariant true (RCount 3) pt0 ps0) (VVariant nT p0) false
                    (RVariant false (RCount 4) tag (prepare C RFresh))
                    (VVariant tag (default_value C))).
  { intros out c bl fl. subst f. cbn [accum]. unfold bind. rewrite TT.
    cbn [mem_of].
    rewrite le_decode_encode_small by (change (256 ^ N.of_nat 4)%N with (2 ^ 32)%N; lia).
    now rewrite HC. }
  exists (RVariant false (RCount 4) tag oC). split; [|reflexivity].
  cbn [prepare wire]. fold pt0 ps0. rewrite ET, Hw, EP.
  replace ((iT ++ [lT]) ++ iP ++ [lP]) with ((iT ++ [lT] ++ iP) ++ [lP])
    by now rewrite <- !app_assoc.
  assert (Hlift : forall b o x done o' x',
             tick (accum key_lt C) b o x done o' x' ->
             tick f b (RVariant false (RCount 4) tag o) (VVariant tag x) done
                  (RVariant false (RCount 4) tag o') (VVariant tag x')).
  { intros b o x done o' x' Ht out c bl fl. subst f. cbn [accum]. unfold bind.
    rewrite Ha, Ht. reflexivity. }
  eapply run_intro.
  - eapply quiet_app; [exact QT|]. eapply quiet_app; [apply quiet_one; exact Tlast|].
    apply (quiet_map f (accum key_lt C) (fun o => RVariant false (RCount 4) tag o)
             (fun v => VVariant tag v)); [|exact QP].
    intros b o x ? ? Ht. now apply Hlift.
  - now apply Hlift.
Qed.

Lemma runs_named_variant ctors cs :
  (forall n C, nth_shape cs n = Some C -> runs C) -> runs (SNamedVariant ctors cs).
Proof. intros IH. exact (runs_variant cs IH). Qed.

Lemma size_mul_small a b : (a * b < size_max)%N -> size_mul a b = (a * b)%N.
Proof. intros H. unfold size_mul. now apply N.mod_small. Qed.

Lemma runs_array_memcpy T n :
  can_memcpy T = true -> (0 < n)%N -> runs (SArray T n).
Proof.
  intros Hc Hn x d o0 Hx Hd _.
  destruct x as [| | | |xs| | | |], d as [| | | |ds| | | |]; try discriminate.
  cbn [wf dest] in *. bool_props.
  destruct (memcpy_sizeof T Hc) as [Hw0 Hw1].
  assert (Hsx : forallb (is_scalar (sizeof T)) xs = true)
    by (eapply forallb_impl; [|eassumption]; now apply memcpy_wf_scalar).
  assert (Hsd : forallb (is_scalar (sizeof T)) ds = true)
    by (eapply forallb_impl; [|eassumption]; now apply memcpy_dest_scalar).
  pose proof (flat_mem_length _ _ Hsx) as Lx.
  assert (Hlen : length ds = length xs) by lenlia.
  assert (HL : size_mul (N.of_nat (sizeof T)) n = N.of_nat (sizeof T * length xs))
    by (rewrite size_mul_small; lenlia).
  exists (RBytes (N.of_nat (sizeof T * length xs))). split; [|apply state_ok_fresh].
  cbn [prepare wire]. rewrite Hc.
  rewrite take_all by (rewrite HL; lenlia).
  apply (blob_run (accum key_lt (SArray T n)) (fun j => RBytes (N.of_nat j)) VArray
           (sizeof T) xs ds); try assumption.
  - intros j mem b Hj Hm out c bl fl. cbn [accum]. rewrite Hc. unfold bind.
    rewrite HL.
    rewrite recvDataPartial_one by (rewrite size_sub_small; lenlia).
    unfold ret. rewrite unflat_length, flat_unflat by exact Hm.
    rewrite (size_add_one j (N.of_nat (sizeof T * length xs)) b) by lenlia.
    now rewrite eqb_nat_N.
  - destruct xs; [lenlia | discriminate].
Qed.

Lemma runs_vector_memcpy T : can_memcpy T = true -> runs (SVector T).
Proof.
  intros Hc x d o0 Hx Hd _.
  destruct x as [| | | | |xs| | |], d as [| | | | |ds| | |]; try discriminate.
  cbn [wf dest] in *. bool_props.
  destruct (memcpy_sizeof T Hc) as [Hw0 Hw1].
  assert (Hsx : forallb (is_scalar (sizeof T)) xs = true)
    by (eapply forallb_impl; [|eassumption]; now apply memcpy_wf_scalar).
  assert (Hsd : forallb (is_scalar (sizeof T)) ds = true)
    by (eapply forallb_impl; [|eassumption]; now apply memcpy_dest_scalar).
  assert (HL : size_mul (N.of_nat (sizeof T)) (len xs) = N.of_nat (sizeof T * length xs))
    by (rewrite size_mul_small; lenlia).
  set (br0 := Field.bytesRead o0). set (bl0 := Field.byteLen o0).
  set (f := accum key_lt (SVector T)).
  destruct (size_phase f (fun lenS n => RLenBytes true lenS br0 n) (VVector ds) (len xs) bl0)
    as (first7 & b7 & n7 & E & Hq & Hlast); [assumption| |].
  { intros i n b Hi out c bl fl. subst f. cbn [accum]. rewrite Hc. unfold bind.
    rewrite size_tick by lia.
    replace (Nat.eqb (S i) 8) with false by (symmetry; apply Nat.eqb_neq; lia).
    reflexivity. }
  set (L := N.of_nat (sizeof T * length xs)).
  assert (Hb7 : tick f b7 (RLenBytes true (RCount 7) br0 n7) (VVector ds)
                  (0 =? L)%N (RLenBytes false (RCount 8) 0 L)
                  (VVector (resize (len xs) (default_value T) ds))).
  { intros out c bl fl. subst f. cbn [accum]. rewrite Hc. unfold bind. rewrite Hlast.
    rewrite HL. reflexivity. }
  exists (RLenBytes false (RCount 8) L L). split; [|apply state_ok_fresh].
  cbn [prepare wire]. rewrite Hc. fold br0 bl0. rewrite E.
  destruct xs as [|x0 xs].
  - subst L. cbn [length] in *. rewrite Nat.mul_0_r in *.
    change (0 <? len (@nil value))%N with false. cbv iota. rewrite app_nil_r.
    eapply run_intro; [exact Hq|]. exact Hb7.
  - replace (0 <? len (x0 :: xs))%N with true by (symmetry; apply N.ltb_lt; lenlia).
    replace (0 =? L)%N with false in Hb7 by (symmetry; apply N.eqb_neq; subst L; lenlia).
    rewrite take_all
      by (rewrite HL; unfold len; now rewrite (flat_mem_length _ _ Hsx)).
    rewrite <- app_assoc. eapply quiet_run; [exact Hq|].
    eapply quiet_run; [apply quiet_one; exact Hb7|].
    set (ds1 := resize (len (x0 :: xs)) (default_value T) ds).
    assert (Hl1 : length ds1 = length (x0 :: xs))
      by (subst ds1; rewrite resize_length; unfold len; lia).
    apply (blob_run f (fun j => RLenBytes false (RCount 8) (N.of_nat j) L) VVector
             (sizeof T) (x0 :: xs) ds1); try assumption.
    + intros j mem b Hj Hm out c bl fl. subst f. cbn [accum]. rewrite Hc. unfold bind.
      rewrite recvDataPartial_one by (rewrite size_sub_small; subst L; lenlia).
      unfold ret, lenbytes_done. cbn [Field.readLen Field.bytesRead Field.byteLen negb andb].
      rewrite unflat_length, flat_unflat by exact Hm.
      rewrite (size_add_one j L b) by (subst L; lenlia).
      subst L. now rewrite eqb_nat_N.
    + subst ds1. apply resize_forallb; [|assumption].
      apply memcpy_dest_scalar; [assumption | apply dest_default].
    + discriminate.
Qed.

Lemma nth_error_middle {A} (pre : list A) x post :
  nth_error (pre ++ x :: post) (length pre) = Some x.
Proof. rewrite nth_error_app2, Nat.sub_diag by lia. reflexivity. Qed.

Lemma update_middle pre x post y :
  update (pre ++ x :: post) (length pre) y = pre ++ y :: post.
Proof. induction pre; cbn; [reflexivity | now rewrite IHpre]. Qed.

Lemma len_nat {A} (l : list A) : N.to_nat (len l) = length l.
Proof. unfold len. apply Nat2N.id. Qed.

(** The elements of an array or of a vector, read one after the other by a
    composite reader [f] whose state is [C idx elemS] and whose object is
    [V elems]. *)
Section Chain.
Variables (T : shape) (f : reader) (C : N -> rstate -> rstate) (V : list value -> value).
Variable total : N.
Hypothesis HT : runs T.
Hypothesis Hlift : forall b e xi done e1 xi1 pre post,
  tick (accum key_lt T) b e xi done e1 xi1 ->
  (len pre + 1 + len post = total)%N ->
  tick f b (C (len pre) e) (V (pre ++ xi :: post))
       (done && match post with [] => true | _ => false end)
       (if done then C (len pre + 1) (prepare T e1) else C (len pre) e1)
       (V (pre ++ xi1 :: post)).

Lemma chain : forall xs ds pre e,
  length ds = length xs -> xs <> [] ->
  forallb (wf key_lt T) xs = true -> forallb (dest T) ds = true ->
  state_ok T e = true -> (len pre + len xs = total)%N ->
  exists e',
    run f (concat (map (wire T) xs)) (C (len pre) (prepare T e)) (V (pre ++ ds))
        (C total (prepare T e')) (V (pre ++ xs))
    /\ state_ok T e' = true.
Proof.
  induction xs as [|x xs IH]; intros ds pre e Hl Hne Hx Hd He Htot; [contradiction|].
  destruct ds as [|d ds]; [discriminate|].
  cbn [forallb] in Hx, Hd. apply andb_prop in Hx, Hd.
  destruct Hx as [Hx Hxs], Hd as [Hd Hds].
  destruct (HT x d e Hx Hd He) as (e1 & (ini & lst & o1 & x1 & E & Q & Tk) & S1).
  cbn [map concat]. rewrite E.
  assert (Hq : quiet f ini (C (len pre) (prepare T e)) (V (pre ++ d :: ds))
                 (C (len pre) o1) (V (pre ++ x1 :: ds))).
  { apply (quiet_map f (accum key_lt T) (C (len pre)) (fun v => V (pre ++ v :: ds)));
      [|exact Q].
    intros b o y o' y' Ht.
    exact (Hlift b o y false o' y' pre ds Ht ltac:(rewrite <- Htot; lenlia)). }
  pose proof (Hlift lst o1 x1 true e1 x pre ds Tk ltac:(rewrite <- Htot; lenlia)) as Hlast.
  cbn [andb] in Hlast.
  destruct xs as [|x' xs].
  - destruct ds; [|discriminate]. exists e1. split; [|exact S1].
    cbn [map concat]. rewrite app_nil_r.
    replace total with (len pre + 1)%N by (rewrite <- Htot; lenlia).
    eapply run_intro; [exact Hq | exact Hlast].
  - destruct ds as [|d' ds]; [discriminate|].
    destruct (IH (d' :: ds) (pre ++ [x]) e1) as (e' & Hrun & S'); try assumption.
    + cbn in *. lia.
    + discriminate.
    + rewrite <- Htot, len_app. lenlia.
    + exists e'. split; [|exact S'].
      rewrite len_app in Hrun. change (len [x]) with 1%N in Hrun.
      rewrite <- !app_assoc in Hrun. cbn [app] in Hrun.
      rewrite <- app_assoc. eapply quiet_run; [exact Hq|].
      eapply quiet_run; [apply quiet_one; exact Hlast | exact Hrun].
Qed.

End Chain.

Lemma vector_done_at lenS idx e (xs : list value) :
  vector_done (RVecIter false lenS idx e) xs = (idx =? len xs)%N.
Proof. reflexivity. Qed.

Lemma runs_vector_iter T : can_memcpy T = false -> runs T -> runs (SVector T).
Proof.
  intros Hc HT x d o0 Hx Hd Ho.
  destruct x as [| | | | |xs| | |], d as [| | | | |ds| | |]; try discriminate.
  cbn [wf dest state_ok] in *. bool_props.
  set (i0 := Field.idx o0). set (e0 := Field.elemS o0).
  set (f := accum key_lt (SVector T)).
  destruct (size_phase f (fun lenS n => RVecIter true lenS n e0) (VVector ds) (len xs) i0)
    as (first7 & b7 & n7 & E & Hq & Hlast); [assumption| |].
  { intros i n b Hi out c bl fl. subst f. cbn [accum]. rewrite Hc. unfold bind.
    rewrite size_tick by lia.
    replace (Nat.eqb (S i) 8) with false by (symmetry; apply Nat.eqb_neq; lia).
    reflexivity. }
  set (ds1 := resize (len xs) (default_value T) ds).
  assert (Hl1 : length ds1 = length xs)
    by (subst ds1; rewrite resize_length; apply len_nat).
  assert (Hd1 : forallb (dest T) ds1 = true)
    by (subst ds1; apply resize_forallb; [apply dest_default | assumption]).
  assert (Hb7 : tick f b7 (RVecIter true (RCount 7) n7 e0) (VVector ds)
                  (0 =? len ds1)%N (RVecIter false (RCount 8) 0 (prepare T e0)) (VVector ds1)).
  { intros out c bl fl. subst f. cbn [accum]. rewrite Hc. unfold bind. rewrite Hlast.
    reflexivity. }
  cbn [prepare wire]. rewrite Hc. fold i0 e0. rewrite E.
  destruct xs as [|x0 xs].
  - exists (RVecIter false (RCount 8) 0 (prepare T e0)).
    split; [|now apply state_ok_prepare].
    destruct ds1; [|discriminate]. cbn [map concat]. rewrite app_nil_r.
    eapply run_intro; [exact Hq | exact Hb7].
  - replace (0 =? len ds1)%N with false in Hb7 by (symmetry; apply N.eqb_neq; lenlia).
    destruct (chain T f (fun idx e => RVecIter false (RCount 8) idx e) VVector
                (len (x0 :: xs)) HT) with (xs := x0 :: xs) (ds := ds1) (pre := @nil value) (e := e0)
      as (e' & Hrun & S'); try assumption; try discriminate; try reflexivity.
    + intros b e xi done e1 xi1 pre post Ht Htot out c bl fl.
      subst f. cbn [accum]. rewrite Hc. unfold bind.
      rewrite len_nat, nth_error_middle, Ht, update_middle.
      unfold ret. destruct done; cbn [andb]; rewrite vector_done_at.
      * rewrite len_app. replace (size_add (len pre) 1) with (len pre + 1)%N
          by (unfold size_add; rewrite N.mod_small; lenlia).
        repeat f_equal. destruct post; [apply N.eqb_eq | apply N.eqb_neq]; lenlia.
      * repeat f_equal. apply N.eqb_neq. rewrite len_app. lenlia.
    + exists (RVecIter false (RCount 8) (len (x0 :: xs)) (prepare T e')).
      split; [|now apply state_ok_prepare].
      rewrite <- app_assoc. eapply quiet_run; [exact Hq|].
      eapply quiet_run; [apply quiet_one; exact Hb7 | exact Hrun].
Qed.

Lemma runs_array_iter T n :
  can_memcpy T = false -> (0 < n)%N -> runs T -> runs (SArray T n).
Proof.
  intros Hc Hn HT x d o0 Hx Hd Ho.
  destruct x as [| | | |xs| | | |], d as [| | | |ds| | | |]; try discriminate.
  cbn [wf dest state_ok] in *. bool_props.
  set (e0 := Field.elemS o0).
  set (f := accum key_lt (SArray T n)).
  destruct (chain T f (fun idx e => RArrIter idx e) VArray n HT)
    with (xs := xs) (ds := ds) (pre := @nil value) (e := e0)
    as (e' & Hrun & S'); try assumption.
  - intros b e xi done e1 xi1 pre post Ht Htot out c bl fl.
    subst f. cbn [accum]. rewrite Hc. unfold bind.
    rewrite len_nat, nth_error_middle, Ht, update_middle.
    unfold ret. destruct done; cbn [andb Field.idx].
    + replace (size_add (len pre) 1) with (len pre + 1)%N
        by (unfold size_add; rewrite N.mod_small; lenlia).
      repeat f_equal. destruct post; [apply N.eqb_eq | apply N.eqb_neq]; lenlia.
    + repeat f_equal. apply N.eqb_neq. lenlia.
  - lenlia.
  - destruct xs; [lenlia | discriminate].
  - exists (RArrIter n (prepare T e')). split; [|now apply state_ok_prepare].
    cbn [prepare wire]. rewrite Hc. exact Hrun.
Qed.

Lemma drop_shapes_cons fs : forall i h t,
  drop_shapes i fs = SCons h t ->
  nth_shape fs i = Some h /\ drop_shapes (S i) fs = t /\ (count fs = N.of_nat i + 1 + count t)%N.
Proof.
  induction fs as [|h0 t0 IH]; intros [|i] h t H; cbn in H; try discriminate.
  - injection H as <- <-. cbn [nth_shape drop_shapes count]. repeat split; lia.
  - destruct (IH i h t H) as (H1 & H2 & H3). cbn [nth_shape count]. repeat split; auto; lia.
Qed.

Lemma wf_seq_length fs : forall xs, wf_seq key_lt fs xs = true -> len xs = count fs.
Proof.
  induction fs as [|h t IH]; intros [|x xs] H; cbn in H; try discriminate; [reflexivity|].
  bool_hyps. cbn [count]. rewrite <- (IH xs) by assumption. lenlia.
Qed.

Lemma dest_seq_length fs : forall ds, dest_seq fs ds = true -> len ds = count fs.
Proof.
  induction fs as [|h t IH]; intros [|x xs] H; cbn in H; try discriminate; [reflexivity|].
  bool_hyps. cbn [count]. rewrite <- (IH xs) by assumption. lenlia.
Qed.

Lemma accum_field_at fs : forall i T pre xi post o s,
  nth_shape fs i = Some T -> length pre = i ->
  accum_field key_lt fs i o (pre ++ xi :: post) s =
  match accum key_lt T o xi s with
  | (Ok (done, o', x'), s') => (Ok (done, o', pre ++ x' :: post), s')
  | (Err e, s') => (Err e, s')
  end.
Proof.
  induction fs as [|h t IH]; intros i T pre xi post o s Hn Hl.
  - destruct i; discriminate.
  - destruct i as [|i]; cbn in Hn.
    + injection Hn as <-. destruct pre; [|discriminate]. cbn [app accum_field].
      unfold bind, ret.
      destruct (accum key_lt h o xi s) as [[[[? ?] ?]|?] ?]; reflexivity.
    + destruct pre as [|p pre]; [discriminate|]. cbn [app accum_field]. unfold bind, ret.
      rewrite (IH i T pre xi post o s Hn) by (cbn in Hl; lia).
      destruct (accum key_lt T o xi s) as [[[[? ?] ?]|?] ?]; reflexivity.
Qed.

Lemma tuple_tick fs i T b e xi done e1 xi1 pre post :
  nth_shape fs i = Some T -> length pre = i ->
  (count fs = N.of_nat i + 1 + len post)%N -> (count fs < 2 ^ 32)%N ->
  tick (accum key_lt T) b e xi done e1 xi1 ->
  tick (accum key_lt (STuple fs)) b (RTuple (N.of_nat i) e) (VTuple (pre ++ xi :: post))
       (done && match post with [] => true | _ => false end)
       (if done
        then match post with
             | [] => RTuple (N.of_nat (S i)) e1
             | _ => RTuple (N.of_nat (S i)) (prepare_nth fs (S i) RFresh)
             end
        else RTuple (N.of_nat i) e1)
       (VTuple (pre ++ xi1 :: post)).
Proof.
  intros Hn Hl Hc Hb Ht out c bl fl. cbn [accum]. unfold bind.
  rewrite Nat2N.id, (accum_field_at fs i T) by assumption. rewrite Ht.
  destruct done; cbn [andb]; [|reflexivity].
  replace ((N.of_nat i + 1) mod 2 ^ 32)%N with (N.of_nat (S i)) by (rewrite N.mod_small; lia).
  destruct post as [|p post].
  - replace (N.of_nat (S i) =? count fs)%N with true by (symmetry; apply N.eqb_eq; lenlia).
    reflexivity.
  - replace (N.of_nat (S i) =? count fs)%N with false by (symmetry; apply N.eqb_neq; lenlia).
    now rewrite Nat2N.id.
Qed.

Lemma tuple_chain fs :
  (forall i T, nth_shape fs i = Some T -> runs T) -> (count fs < 2 ^ 32)%N ->
  forall sfx xs ds pre,
    drop_shapes (length pre) fs = sfx -> sfx <> SNil ->
    wf_seq key_lt sfx xs = true -> dest_seq sfx ds = true ->
    exists e',
      run (accum key_lt (STuple fs)) (wire_seq sfx xs)
          (RTuple (len pre) (prepare_nth fs (length pre) RFresh)) (VTuple (pre ++ ds))
          (RTuple (count fs) e') (VTuple (pre ++ xs)).
Proof.
  intros Hall Hc. induction sfx as [|h t IH]; intros xs ds pre Hdrop Hne Hx Hd; [contradiction|].
  destruct xs as [|x xs], ds as [|d ds]; try discriminate.
  cbn [wf_seq dest_seq] in Hx, Hd. apply andb_prop in Hx, Hd.
  destruct Hx as [Hx Hxs], Hd as [Hd Hds].
  destruct (drop_shapes_cons fs _ h t Hdrop) as (Hn & Hdrop' & Hcnt).
  destruct (nth_shape_facts fs _ h Hn) as (_ & _ & _ & Hprep).
  destruct (Hall _ h Hn x d RFresh Hx Hd (state_ok_fresh h))
    as (e1 & (ini & lst & o1 & x1 & E & Q & Tk) & _).
  pose proof (dest_seq_length t ds Hds) as Lds.
  pose proof (wf_seq_length t xs Hxs) as Lxs.
  set (f := accum key_lt (STuple fs)).
  cbn [wire_seq]. rewrite E, Hprep. unfold len at 1.
  assert (Hq : quiet f ini (RTuple (N.of_nat (length pre)) (prepare h RFresh))
                 (VTuple (pre ++ d :: ds)) (RTuple (N.of_nat (length pre)) o1)
                 (VTuple (pre ++ x1 :: ds))).
  { apply (quiet_map f (accum key_lt h) (RTuple (N.of_nat (length pre)))
             (fun v => VTuple (pre ++ v :: ds))); [|exact Q].
    intros b o y o' y' Ht.
    exact (tuple_tick fs _ h b o y false o' y' pre ds Hn eq_refl
             ltac:(rewrite Hcnt, Lds; reflexivity) Hc Ht). }
  pose proof (tuple_tick fs _ h lst o1 x1 true e1 x pre ds Hn eq_refl
                ltac:(rewrite Hcnt, Lds; reflexivity) Hc Tk) as Hlast.
  cbn [andb] in Hlast.
  destruct t as [|h' t'].
  - destruct xs, ds; try discriminate. exists e1.
    cbn [wire_seq]. rewrite app_nil_r.
    replace (count fs) with (N.of_nat (S (length pre))) by (rewrite Hcnt; cbn [count]; lia).
    eapply run_intro; [exact Hq | exact Hlast].
  - destruct ds as [|d' ds]; [discriminate|].
    destruct (IH xs (d' :: ds) (pre ++ [x])) as (e' & Hrun); try assumption; try discriminate.
    + rewrite length_app. cbn [length]. now rewrite Nat.add_1_r.
    + exists e'. rewrite length_app, len_app in Hrun. cbn [length] in Hrun.
      rewrite Nat.add_1_r in Hrun. change (len [x]) with 1%N in Hrun.
      replace (len pre + 1)%N with (N.of_nat (S (length pre))) in Hrun by lenlia.
      rewrite <- !app_assoc in Hrun. cbn [app] in Hrun.
      rewrite <- app_assoc. eapply quiet_run; [exact Hq|].
      eapply quiet_run; [apply quiet_one; exact Hlast | exact Hrun].
Qed.

Lemma runs_tuple fs :
  (0 < count fs)%N -> (count fs < 2 ^ 32)%N ->
  (forall i T, nth_shape fs i = Some T -> runs T) -> runs (STuple fs).
Proof.
  intros H0 Hc Hall x d o0 Hx Hd _.
  destruct x as [| | | | | | | |xs], d as [| | | | | | | |ds]; try discriminate.
  cbn [wf dest] in *.
  destruct (tuple_chain fs Hall Hc fs xs ds []) as (e' & Hrun); try assumption; try reflexivity.
  - intros ->. cbn in H0. lia.
  - exists (RTuple (count fs) e'). split; [|reflexivity]. exact Hrun.
Qed.

Lemma runs_struct names fs :
  (0 < count fs)%N -> (count fs < 2 ^ 32)%N ->
  (forall i T, nth_shape fs i = Some T -> runs T) -> runs (SStruct names fs).
Proof. intros H0 Hc Hall. exact (runs_tuple fs H0 Hc Hall). Qed.

Lemma quiet_wrap (f g : reader) (W : rstate -> value -> rstate * value) :
  (forall b o x o1 x1, tick g b o x false o1 x1 ->
     tick f b (fst (W o x)) (snd (W o x)) false (fst (W o1 x1)) (snd (W o1 x1))) ->
  forall bs o x o' x', quiet g bs o x o' x' ->
    quiet f bs (fst (W o x)) (snd (W o x)) (fst (W o' x')) (snd (W o' x')).
Proof.
  intros Hstep bs o x o' x' Hq. induction Hq; econstructor; eauto.
Qed.

Lemma wf_dest :
  (forall T, mapfree T = true -> forall x, wf key_lt T x = true -> dest T x = true) /\
  (forall fs, mapfree_all fs = true ->
     forall xs, wf_seq key_lt fs xs = true -> dest_seq fs xs = true).
Proof.
  apply shape_shapes_ind; cbn [mapfree mapfree_all wf wf_seq dest dest_seq].
  - (* SPrim *) auto.
  - (* SUnit *) auto.
  - (* SEnum *) auto.
  - (* SVariant *) intros cs _ _ x. now destruct x.
  - (* SNamedVariant *) intros ctors cs _ _ x. now destruct x.
  - (* SPair *) intros U IHU V IHV Hm x Hx. destruct x; try discriminate. bool_hyps.
    now rewrite IHU, IHV.
  - (* SArray *) intros T IH n Hm x Hx. destruct x; try discriminate. bool_hyps.
    apply andb_true_intro. split; [assumption|].
    eapply forallb_impl; [|eassumption]. now apply IH.
  - (* SVector *) intros T IH Hm x Hx. destruct x; try discriminate. bool_hyps.
    eapply forallb_impl; [|eassumption]. now apply IH.
  - (* SMap *) intros K _ T _ Hm. discriminate.
  - (* SString *) intros _ x. now destruct x.
  - (* STuple *) intros fs IH Hm x Hx. destruct x; try discriminate. now apply IH.
  - (* SStruct *) intros names fs IH Hm x Hx. destruct x; try discriminate. now apply IH.
  - (* SAlias *) auto.
  - (* SNil *) intros _ xs. now destruct xs.
  - (* SCons *) intros h IHh t IHt Hm xs Hx. destruct xs; try discriminate. bool_hyps.
    now rewrite IHh, IHt.
Qed.

Section MapReader.
Variables K T : shape.
Hypothesis HK : runs K.
Hypothesis HT : runs T.
Hypothesis HmK : mapfree K = true.
Hypothesis HmT : mapfree T = true.

Local Abbreviation f := (accum key_lt (SMap K T)).

Lemma map_tick_k b s y done s1 y1 lenS n tS t m :
  n <> 0%N ->
  tick (accum key_lt K) b s y done s1 y1 ->
  tick f b (RMap KS lenS n s y tS t) (VMap m) false
       (if done then RMap TS lenS n s1 y1 (prepare T tS) t else RMap KS lenS n s1 y1 tS t)
       (VMap m).
Proof.
  intros Hn Ht out c bl fl. cbn [accum]. unfold bind. rewrite Ht. unfold ret.
  repeat f_equal. destruct done; unfold map_done; cbn [Field.readS Field.len];
    now apply N.eqb_neq.
Qed.

Lemma map_tick_t b s y done s1 y1 lenS n kS k m :
  n <> 0%N -> (n < size_max)%N ->
  tick (accum key_lt T) b s y done s1 y1 ->
  tick f b (RMap TS lenS n kS k s y) (VMap m) (done && (n =? 1)%N)
       (if done then RMap KS lenS (n - 1) (prepare K kS) k s1 y1
        else RMap TS lenS n kS k s1 y1)
       (VMap (if done then StdMap.insert (key_lt K) k y1 m else m)).
Proof.
  intros Hn Hb Ht out c bl fl. cbn [accum]. unfold bind. rewrite Ht. unfold ret.
  destruct done; cbn [andb]; unfold map_done; cbn [Field.readS Field.len].
  - rewrite size_sub_small by lia.
    replace (n - 1 =? 0)%N with (n =? 1)%N; [reflexivity|].
    destruct (N.eqb_spec n 1), (N.eqb_spec (n - 1) 0); auto; lia.
  - repeat f_equal. now apply N.eqb_neq.
Qed.

Lemma map_chain lenS : forall kvs m kS k tS t,
  kvs <> [] -> (len kvs < size_max)%N ->
  forallb (fun xp : value * value => wf key_lt K (fst xp) && wf key_lt T (snd xp)) kvs = true ->
  state_ok K kS = true -> dest K k = true -> state_ok T tS = true -> dest T t = true ->
  exists kS' k' tS' t',
    run f (wire_entries K T kvs) (RMap KS lenS (len kvs) (prepare K kS) k tS t) (VMap m)
        (RMap KS lenS 0 (prepare K kS') k' tS' t') (VMap (insert_all (key_lt K) kvs m))
    /\ state_ok K kS' = true /\ dest K k' = true /\ state_ok T tS' = true /\ dest T t' = true.
Proof.
  induction kvs as [|[kx vx] kvs IH]; intros m kS k tS t Hne Hlen Hwf HkS Hk HtS Ht;
    [contradiction|].
  cbn [forallb fst snd] in Hwf. apply andb_prop in Hwf. destruct Hwf as [Hwf Hrest].
  apply andb_prop in Hwf. destruct Hwf as [Hkx Hvx].
  destruct (HK kx k kS Hkx Hk HkS) as (kS1 & (iK & lK & o1 & x1 & EK & QK & TK) & SK).
  destruct (HT vx t tS Hvx Ht HtS) as (tS1 & (iT & lT & o2 & x2 & ET & QT & TT) & ST).
  set (n := len ((kx, vx) :: kvs)).
  assert (Hn : n <> 0%N) by (subst n; lenlia).
  assert (Qk : quiet f (iK ++ [lK]) (RMap KS lenS n (prepare K kS) k tS t) (VMap m)
                 (RMap TS lenS n kS1 kx (prepare T tS) t) (VMap m)).
  { eapply quiet_app.
    - apply (quiet_wrap f (accum key_lt K) (fun s y => (RMap KS lenS n s y tS t, VMap m)));
        [|exact QK].
      intros b o x o' x' Hti. cbn [fst snd].
      exact (map_tick_k b o x false o' x' lenS n tS t m Hn Hti).
    - apply quiet_one. exact (map_tick_k lK o1 x1 true kS1 kx lenS n tS t m Hn TK). }
  assert (Qt : quiet f iT (RMap TS lenS n kS1 kx (prepare T tS) t) (VMap m)
                 (RMap TS lenS n kS1 kx o2 x2) (VMap m)).
  { apply (quiet_wrap f (accum key_lt T) (fun s y => (RMap TS lenS n kS1 kx s y, VMap m)));
      [|exact QT].
    intros b o x o' x' Hti. cbn [fst snd].
    exact (map_tick_t b o x false o' x' lenS n kS1 kx m Hn Hlen Hti). }
  pose proof (map_tick_t lT o2 x2 true tS1 vx lenS n kS1 kx m Hn Hlen TT) as Hlast.
  cbn [andb] in Hlast.
  unfold wire_entries. cbn [map concat fst snd]. fold (wire_entries K T kvs).
  unfold insert_all. cbn [fold_left fst snd]. fold (insert_all (key_lt K) kvs).
  rewrite EK, ET.
  assert (Dk : dest K kx = true) by now apply (proj1 wf_dest).
  assert (Dv : dest T vx = true) by now apply (proj1 wf_dest).
  destruct kvs as [|e kvs].
  - exists kS1, kx, tS1, vx. repeat split; try assumption.
    unfold wire_entries. cbn [map concat insert_all fold_left]. rewrite app_nil_r.
    rewrite app_assoc. eapply run_intro; [eapply quiet_app; [exact Qk | exact Qt]|].
    replace (n =? 1)%N with true in Hlast by (symmetry; apply N.eqb_eq; subst n; lenlia).
    replace (n - 1)%N with 0%N in Hlast by (subst n; lenlia).
    exact Hlast.
  - destruct (IH (StdMap.insert (key_lt K) kx vx m) kS1 kx tS1 vx)
      as (kS' & k' & tS' & t' & Hrun & R1 & R2 & R3 & R4); try assumption; try discriminate.
    + subst n. lenlia.
    + exists kS', k', tS', t'. repeat split; try assumption.
      replace (n =? 1)%N with false in Hlast by (symmetry; apply N.eqb_neq; subst n; lenlia).
      replace (n - 1)%N with (len (e :: kvs)) in Hlast by (subst n; lenlia).
      rewrite <- app_assoc. eapply quiet_run; [exact Qk|].
      rewrite <- app_assoc. eapply quiet_run; [exact Qt|].
      eapply quiet_run; [apply quiet_one; exact Hlast | exact Hrun].
Qed.

(** The reader of a map, given a map that holds [m0] already: the entries
    are inserted, in the order they arrive, into [m0]. *)
Lemma map_run kvs m0 o0 :
  (len kvs < size_max)%N ->
  forallb (fun xp : value * value => wf key_lt K (fst xp) && wf key_lt T (snd xp)) kvs = true ->
  state_ok (SMap K T) o0 = true ->
  exists o',
    run f (le_encode 8 (len kvs) ++ wire_entries K T kvs) (prepare (SMap K T) o0) (VMap m0)
        o' (VMap (insert_all (key_lt K) kvs m0))
    /\ state_ok (SMap K T) o' = true.
Proof.
  intros Hlen Hwf Ho. cbn [state_ok] in Ho. bool_hyps.
  set (kS0 := Field.kS o0) in *. set (k0 := Field.k K o0) in *.
  set (tS0 := Field.tS o0) in *. set (t0 := Field.t T o0) in *.
  destruct (size_phase f (fun lenS n => RMap LenS lenS n kS0 k0 tS0 t0) (VMap m0)
              (len kvs) (Field.len o0))
    as (first7 & b7 & n7 & E & Hq & Hlast); [assumption| |].
  { intros i n b Hi out c bl fl. cbn [accum]. unfold bind.
    rewrite size_tick by lia.
    replace (Nat.eqb (S i) 8) with false by (symmetry; apply Nat.eqb_neq; lia).
    reflexivity. }
  assert (Hb7 : tick f b7 (RMap LenS (RCount 7) n7 kS0 k0 tS0 t0) (VMap m0)
                  (len kvs =? 0)%N (RMap KS (RCount 8) (len kvs) (prepare K kS0) k0 tS0 t0)
                  (VMap m0)).
  { intros out c bl fl. cbn [accum]. unfold bind. rewrite Hlast. reflexivity. }
  cbn [prepare]. fold kS0 k0 tS0 t0. rewrite E.
  destruct kvs as [|e kvs].
  - exists (RMap KS (RCount 8) 0 (prepare K kS0) k0 tS0 t0). split.
    + unfold wire_entries. cbn [map concat insert_all fold_left]. rewrite app_nil_r.
      eapply run_intro; [exact Hq | exact Hb7].
    + cbn [state_ok Field.kS Field.tS Field.k Field.t].
      rewrite state_ok_prepare by assumption.
      repeat (apply andb_true_intro; split); auto.
  - replace (len (e :: kvs) =? 0)%N with false in Hb7 by (symmetry; apply N.eqb_neq; lenlia).
    destruct (map_chain (RCount 8) (e :: kvs) m0 kS0 k0 tS0 t0)
      as (kS' & k' & tS' & t' & Hrun & R1 & R2 & R3 & R4); try assumption; try discriminate.
    exists (RMap KS (RCount 8) 0 (prepare K kS') k' tS' t'). split.
    + rewrite <- app_assoc. eapply quiet_run; [exact Hq|].
      eapply quiet_run; [apply quiet_one; exact Hb7 | exact Hrun].
    + cbn [state_ok Field.kS Field.tS Field.k Field.t].
      rewrite state_ok_prepare by assumption.
      repeat (apply andb_true_intro; split); auto.
Qed.

Lemma runs_map : runs (SMap K T).
Proof.
  intros x d o0 Hx Hd Ho.
  destruct x as [| | | | | |kvs| |], d as [| | | | | |[|]| |]; try discriminate.
  cbn [wf] in Hx. bool_props.
  destruct (map_run kvs [] o0) as (o' & Hrun & S'); try assumption.
  exists o'. split; [|exact S'].
  rewrite MapFacts.insert_all_sorted in Hrun by assumption. exact Hrun.
Qed.

End MapReader.

Lemma runs_all :
  (forall T, steady T = true -> runs T) /\
  (forall fs, steady_all fs = true -> forall i T, nth_shape fs i = Some T -> runs T).
Proof.
  apply shape_shapes_ind; cbn [steady steady_all].
  - (* SPrim *) intros p _. apply runs_prim.
  - (* SUnit *) discriminate.
  - (* SEnum *) intros rep meta _. apply runs_enum.
  - (* SVariant *) intros cs IH Hs. apply runs_variant. now apply IH.
  - (* SNamedVariant *) intros ctors cs IH Hs. apply runs_named_variant. now apply IH.
  - (* SPair *) intros U IHU V IHV Hs. bool_hyps. apply runs_pair; auto.
  - (* SArray *) intros T IH n Hs. bool_props. destruct (can_memcpy T) eqn:Hc.
    + now apply runs_array_memcpy.
    + apply runs_array_iter; [assumption | assumption | now apply IH].
  - (* SVector *) intros T IH Hs. destruct (can_memcpy T) eqn:Hc.
    + now apply runs_vector_memcpy.
    + apply runs_vector_iter; auto.
  - (* SMap *) intros K IHK T IHT Hs. bool_hyps. apply runs_map; auto.
  - (* SString *) intros _. apply runs_string.
  - (* STuple *) intros fs IH Hs. bool_props.
    apply runs_tuple; [assumption | assumption | now apply IH].
  - (* SStruct *) intros names fs IH Hs. bool_props.
    apply runs_struct; [assumption | assumption | now apply IH].
  - (* SAlias *) intros name RT IH Hs. apply runs_alias. now apply IH.
  - (* SNil *) intros _ i T H. destruct i; discriminate.
  - (* SCons *) intros h IHh t IHt Hs i T H. bool_hyps. destruct i as [|i]; cbn in H.
    + injection H as <-. now apply IHh.
    + eapply IHt; eauto.
Qed.

(** The resumable reader of a steady shape, driven one byte at a time with
    the bytes [write] sent for [x]: every call but the last returns [false],
    the last returns [true], and the object read is [x]. *)
Lemma resume_wire T x d o0 out c bl fl :
  steady T = true -> wf key_lt T x = true -> dest T d = true -> state_ok T o0 = true ->
  exists o',
    drive (accum key_lt T) (wire T x) (prepare T o0) d (mkSocket out [] c bl fl) =
    (Ok (repeat false (length (wire T x) - 1) ++ [true], o', x), mkSocket out [] c bl fl).
Proof.
  intros Hs Hx Hd Ho.
  destruct (proj1 runs_all T Hs x d o0 Hx Hd Ho) as (o' & Hrun & _).
  exists o'. now apply run_drive.
Qed.

(** ** A call with nothing to read *)

(** Called on a prepared state when no byte has arrived, the reader of [T]
    returns [false] and leaves a prepared state and a destination. *)
Local Abbreviation idles T :=
  (forall x d o0 out fl,
    wf key_lt T x = true -> dest T d = true -> state_ok T o0 = true ->
    exists o1 d1,
      accum key_lt T (prepare T o0) d (mkSocket out [] false false fl)
      = (Ok (false, prepare T o1, d1), mkSocket out [] false false fl)
      /\ state_ok T o1 = true /\ dest T d1 = true
      /\ (o0 = RFresh -> prepare T o1 = prepare T RFresh)).

Lemma scalar_idle w m out fl :
  accum_scalar w (RCount 0) (VPrim m) (mkSocket out [] false false fl)
  = (Ok ((0 =? N.of_nat w)%N, RCount 0, VPrim m), mkSocket out [] false false fl).
Proof. reflexivity. Qed.

Lemma size_idle n out fl :
  accum_size (RCount 0) n (mkSocket out [] false false fl)
  = (Ok (false, RCount 0, le_decode (le_encode size_t_width n)),
     mkSocket out [] false false fl).
Proof. reflexivity. Qed.

Lemma idles_scalar T w :
  (forall o x, accum key_lt T o x = accum_scalar w o x) ->
  (forall o, prepare T o = RCount 0) ->
  (forall d, dest T d = is_scalar w d) ->
  (forall o, state_ok T o = true) ->
  0 < w -> idles T.
Proof.
  intros Ha Hp Hd Hs Hw x d o0 out fl _ Hdd _.
  rewrite Hd in Hdd. destruct (is_scalar_inv _ _ Hdd) as (m & -> & Hm).
  exists RFresh, (VPrim m). rewrite Ha, !Hp, scalar_idle, Hd.
  replace (0 =? N.of_nat w)%N with false by (symmetry; apply N.eqb_neq; lia).
  repeat split; auto.
Qed.

Lemma idles_all :
  (forall T, steady T = true -> idles T) /\
  (forall fs, steady_all fs = true -> forall T, nth_shape fs 0 = Some T -> idles T).
Proof.
  apply shape_shapes_ind; cbn [steady steady_all].
  - (* SPrim *) intros p _.
    apply (idles_scalar (SPrim p) (sizeof_prim p)); try reflexivity.
    apply sizeof_prim_range.
  - (* SUnit *) discriminate.
  - (* SEnum *) intros rep meta _.
    apply (idles_scalar (SEnum rep meta) (sizeof_prim rep)); try reflexivity.
    apply sizeof_prim_range.
  - (* SVariant *) intros cs _ _ x d o0 out fl _ Hd _.
    destruct d as [| |tag payload| | | | | |]; try discriminate.
    exists o0, (VVariant (le_decode (le_encode 4 tag)) payload).
    cbn [prepare accum]. unfold bind. rewrite scalar_idle. repeat split. now intros ->.
  - (* SNamedVariant *) intros ctors cs _ _ x d o0 out fl _ Hd _.
    destruct d as [| |tag payload| | | | | |]; try discriminate.
    exists o0, (VVariant (le_decode (le_encode 4 tag)) payload).
    cbn [prepare accum]. unfold bind. rewrite scalar_idle. repeat split. now intros ->.
  - (* SPair *) intros U IHU V IHV Hs x d o0 out fl Hx Hd Ho. bool_hyps.
    destruct x as [| | |xa xb| | | | |], d as [| | |da db| | | | |]; try discriminate.
    cbn [wf dest state_ok] in *. bool_hyps.
    destruct (IHU ltac:(assumption) xa da (Field.fstState o0) out fl)
      as (u1 & a1 & E & Su & Da & Fu); try assumption.
    exists (RPair true u1 (Field.sndState o0)), (VPair a1 db).
    cbn [prepare accum Field.fstState Field.sndState]. unfold bind. rewrite E.
    cbn [negb]. repeat split.
    + now rewrite Su.
    + now rewrite Da.
    + intros ->. cbn [Field.fstState Field.sndState] in *. now rewrite Fu.
  - (* SArray *) intros T IH n Hs x d o0 out fl Hx Hd Ho. bool_props.
    destruct x as [| | | |xs| | | |], d as [| | | |ds| | | |]; try discriminate.
    cbn [wf dest state_ok] in *. bool_props.
    destruct (can_memcpy T) eqn:Hc.
    + destruct (memcpy_sizeof T Hc) as [Hw0 Hw1].
      assert (Hsd : forallb (is_scalar (sizeof T)) ds = true)
        by (eapply forallb_impl; [|eassumption]; now apply memcpy_dest_scalar).
      exists o0, (VArray ds). cbn [prepare accum]. rewrite Hc. unfold bind.
      rewrite size_mul_small by lenlia.
      change (recvDataPartial ?sz (mkSocket out [] false false fl))
        with (Ok (@nil byte), mkSocket out [] false false fl).
      cbv iota beta. unfold ret, size_add. cbn [len length N.of_nat N.add].
      replace (0 mod size_max =? N.of_nat (sizeof T) * n)%N with false
        by (symmetry; apply N.eqb_neq; unfold size_max; cbn; lia).
      unfold blit. cbn [N.to_nat firstn app length Nat.add skipn].
      rewrite unflat_flat by assumption.
      split; [reflexivity|]. split; [exact Ho|]. split; [|reflexivity].
      cbn [dest]. apply andb_true_intro. split; [now apply N.eqb_eq|assumption].
    + destruct ds as [|d0 ds]; [lenlia|]. destruct xs as [|x0 xs]; [lenlia|].
      cbn [forallb] in *. bool_hyps.
      destruct (IH ltac:(assumption) x0 d0 (Field.elemS o0) out fl)
        as (e1 & d1 & E & Se & Dd & Fe); try assumption.
      exists (RArrIter 0 e1), (VArray (d1 :: ds)).
      cbn [prepare accum]. rewrite Hc. cbn [N.to_nat nth_error]. unfold bind. rewrite E.
      cbn [Field.idx Field.elemS update]. unfold ret.
      replace (0 =? n)%N with false by (symmetry; apply N.eqb_neq; lia).
      repeat split.
      * exact Se.
      * cbn [dest forallb]. rewrite Dd. apply andb_true_intro. split; [|now apply andb_true_intro].
        apply N.eqb_eq. lenlia.
      * intros ->. cbn [Field.elemS] in *. now rewrite Fe.
  - (* SVector *) intros T IH Hs x d o0 out fl Hx Hd Ho.
    destruct d as [| | | | |ds| | |]; try discriminate.
    cbn [prepare accum]. destruct (can_memcpy T) eqn:Hc.
    + exists (RLenBytes true (RCount 0) (Field.bytesRead o0)
                (le_decode (le_encode size_t_width (Field.byteLen o0)))), (VVector ds).
      unfold bind. rewrite size_idle. repeat split; try assumption.
      * cbn [state_ok Field.elemS]. apply state_ok_fresh.
      * now intros ->.
    + exists (RVecIter true (RCount 0)
                (le_decode (le_encode size_t_width (Field.idx o0))) (Field.elemS o0)),
             (VVector ds).
      unfold bind. rewrite size_idle. repeat split; try assumption.
      now intros ->.
  - (* SMap *) intros K _ T _ Hs x d o0 out fl Hx Hd Ho.
    destruct d as [| | | | | |m| |]; try discriminate.
    exists (RMap LenS (RCount 0) (le_decode (le_encode size_t_width (Field.len o0)))
              (Field.kS o0) (Field.k K o0) (Field.tS o0) (Field.t T o0)), (VMap m).
    cbn [prepare accum]. unfold bind. rewrite size_idle. repeat split; try assumption.
    now intros ->.
  - (* SString *) intros _ x d o0 out fl Hx Hd Ho.
    destruct d as [| | | | | | |cs|]; try discriminate.
    exists (RLenBytes true (RCount 0) (Field.bytesRead o0)
              (le_decode (le_encode size_t_width (Field.byteLen o0)))), (VString cs).
    cbn [prepare accum]. unfold bind. rewrite size_idle. repeat split. now intros ->.
  - (* STuple *) intros fs IH Hs x d o0 out fl Hx Hd Ho. bool_props.
    destruct x as [| | | | | | | |xs], d as [| | | | | | | |ds]; try discriminate.
    cbn [wf dest] in *.
    destruct fs as [|h t]; [cbn in *; lia|].
    destruct xs as [|x0 xs]; [discriminate|]. destruct ds as [|d0 ds]; [discriminate|].
    cbn [wf_seq dest_seq] in *. bool_hyps.
    destruct (IH ltac:(assumption) h eq_refl x0 d0 RFresh out fl)
      as (e1 & d1 & E & Se & Dd & Fe); try assumption; [apply state_ok_fresh|].
    exists o0, (VTuple (d1 :: ds)).
    cbn [prepare prepare_nth accum accum_field N.to_nat]. unfold bind. rewrite E.
    cbn [fst snd]. unfold ret. rewrite (Fe eq_refl). repeat split.
    cbn [dest dest_seq]. now rewrite Dd.
  - (* SStruct *) intros names fs IH Hs x d o0 out fl Hx Hd Ho. bool_props.
    destruct x as [| | | | | | | |xs], d as [| | | | | | | |ds]; try discriminate.
    cbn [wf dest] in *.
    destruct fs as [|h t]; [cbn in *; lia|].
    destruct xs as [|x0 xs]; [discriminate|]. destruct ds as [|d0 ds]; [discriminate|].
    cbn [wf_seq dest_seq] in *. bool_hyps.
    destruct (IH ltac:(assumption) h eq_refl x0 d0 RFresh out fl)
      as (e1 & d1 & E & Se & Dd & Fe); try assumption; [apply state_ok_fresh|].
    exists o0, (VTuple (d1 :: ds)).
    cbn [prepare prepare_nth accum accum_field N.to_nat]. unfold bind. rewrite E.
    cbn [fst snd]. unfold ret. rewrite (Fe eq_refl). repeat split.
    cbn [dest dest_seq]. now rewrite Dd.
  - (* SAlias *) intros name RT IH Hs. exact (IH Hs).
  - (* SNil *) intros _ T H. discriminate.
  - (* SCons *) intros h IHh t _ Hs T H. bool_hyps. cbn in H. injection H as <-.
    now apply IHh.
Qed.

End Shapes.

End Resume.

(* ================================================================== *)
(** * Lookups in a map after assignments and insertions *)

Module MapOrder.
Section Order.
Variable lt : value -> value -> bool.
Hypothesis Hlt : strict_weak lt.

Lemma equiv_false_l a b : lt a b = true -> equiv lt a b = false.
Proof. intros H. unfold equiv. now rewrite H. Qed.

Lemma equiv_false_r a b : lt b a = true -> equiv lt a b = false.
Proof. intros H. unfold equiv. rewrite H. apply andb_false_r. Qed.






Ltac order_cases k k1 :=
  destruct (lt k k1) eqn:?; [|destruct (lt k1 k) eqn:?].







End Order.
End MapOrder.

(* ================================================================== *)
(** * Resumable and blocking reads compared *)

(** C2 (as the code has it). For a steady shape (no part of it is written
    as zero bytes, and no map sits inside the key or the value of a map) and
    an object [x] of it, the resumable reader, prepared and then called once
    after each byte of what [write] sent for [x], returns [false] for every
    byte but the last and [true] for the last, and has read [x]. When the
    vectors of raw-copied elements inside the shape have one-byte elements,
    the blocking reader given the same bytes at once reads [x] too. *)
Theorem resumable_read_byte_by_byte :
  forall key_lt T x d o0 out c bl fl,
    steady T = true -> wf key_lt T x = true -> dest T d = true -> state_ok T o0 = true ->
    (exists o',
       drive (accum key_lt T) (wire T x) (prepare T o0) d (mkSocket out [] c bl fl) =
       (Ok (repeat false (length (wire T x) - 1) ++ [true], o', x), mkSocket out [] c bl fl))
    /\ (narrow_vectors T = true ->
        read key_lt T d (mkSocket out (wire T x) c bl fl) = (Ok x, mkSocket out [] c bl fl)).
Proof.
  intros key_lt T x d o0 out c bl fl Hs Hx Hd Ho. split.
  - now apply Resume.resume_wire.
  - intros Hn. rewrite <- (app_nil_r (wire T x)). now apply RoundTrip.read_wire.
Qed.

Lemma resumable_read_byte_by_byte_witness :
  let T := SMap (SPrim Tuint8) (SVector SString) in
  let x := VMap [(VPrim [x01], VVector [VString [x61]; VString []]);
                 (VPrim [x02], VVector [])] in
  read unsigned_lt T (default_value T) (mkSocket [] (wire T x) false false false) =
  (Ok x, mkSocket [] [] false false false).
Proof.
  intros T x.
  apply (resumable_read_byte_by_byte unsigned_lt T x (default_value T) RFresh
           [] false false false); vm_compute; reflexivity.
Defined.

(** C2 as stated fails on the sum [A(u8) | B(Vec<u8>) | C(unit)]: for the
    value [C()] the bytes are the tag 02 00 00 00; the call that receives the
    last of them returns [false], as the three before it. *)
Lemma resumable_read_unit_payload :
  let T := SVariant (SCons (SPrim Tuint8) (SCons (SVector (SPrim Tuint8)) (SCons SUnit SNil))) in
  let x := VVariant 2 VUnit in
  wf unsigned_lt T x = true /\
  wire T x = [x02; x00; x00; x00] /\
  exists o',
    drive (accum unsigned_lt T) (wire T x) (prepare T RFresh) (default_value T)
      (mkSocket [] [] false false false) =
    (Ok ([false; false; false; false], o', x), mkSocket [] [] false false false).
Proof.
  split; [vm_compute; reflexivity|]. split; [vm_compute; reflexivity|].
  eexists. vm_compute. reflexivity.
Qed.

(** On a vector of [int32_t] the two readers differ, by the defect of the
    blocking one: the resumable reader reads what was written. *)
Lemma resumable_read_wide_vector :
  let T := SVector (SPrim Tint32) in
  let x := VVector [VPrim [x04; x03; x02; x01]] in
  exists fl o',
    drive (accum unsigned_lt T) (wire T x) (prepare T RFresh) (default_value T)
      (mkSocket [] [] false false false) =
    (Ok (fl, o', x), mkSocket [] [] false false false)
    /\ fst (read unsigned_lt T (default_value T) (mkSocket [] (wire T x) false false false))
       <> Ok x.
Proof. do 2 eexists. split; [vm_compute; reflexivity | vm_compute; discriminate]. Qed.

(* ================================================================== *)
(** * Asynchronous calls without result *)

(** C8. The asynchronous stub of a function without result writes INVOKE,
    its id and the arguments, and gives the client back as it was: no
    continuation is stored, no reader is queued, [pendingRequests] is what
    it was. *)
Theorem async_void_call_no_entry :
  forall key_lt i Args exprid args (cl : AsyncClient) out inb_ pc b,
    nth_error (stubs cl) i = Some (AsyncVoidFn Args exprid) ->
    wf_seq key_lt Args args = true ->
    exists cl',
      async_call_void i args cl (mkSocket out inb_ pc b false) =
      (Ok cl',
       mkSocket (out ++ [x02] ++ le_encode 4 exprid ++ wire (STuple Args) (VTuple args))
         inb_ pc false false)
      /\ pendingRequests cl' = pendingRequests cl
      /\ asyncReaders cl' = asyncReaders cl
      /\ stubs cl' = stubs cl.
Proof.
  intros key_lt i Args exprid args cl out inb_ pc b Hi Hwf.
  exists cl. split; [|auto].
  unfold async_call_void. rewrite Hi. unfold bind, setBlockingBit, oSeq_write.
  cbn [outb inb peer_closed send_fails write write_scalar].
  rewrite !sendData_ok. rewrite (WriteFacts.write_seq_wire key_lt) by exact Hwf.
  cbn [outb inb peer_closed send_fails]. unfold ret. now rewrite <- !app_assoc.
Qed.

Lemma async_void_call_no_entry_witness :
  let cl := mkAsyncClient [newAsyncVoidFn (SCons (SPrim Tint32) SNil) 1;
                           newAsyncFn (SCons (SPrim Tint32) SNil) (SPrim Tint32) 2]
              [1%nat] [] in
  exists cl',
    async_call_void 0 [VPrim [x07; x00; x00; x00]] cl (mkSocket [] [] false false false) =
    (Ok cl',
     mkSocket ([] ++ [x02] ++ le_encode 4 1
                 ++ wire (STuple (SCons (SPrim Tint32) SNil)) (VTuple [VPrim [x07; x00; x00; x00]]))
       [] false false false)
    /\ pendingRequests cl' = pendingRequests cl
    /\ asyncReaders cl' = asyncReaders cl
    /\ stubs cl' = stubs cl.
Proof.
  intros cl.
  apply (async_void_call_no_entry unsigned_lt 0 (SCons (SPrim Tint32) SNil) 1
           [VPrim [x07; x00; x00; x00]] cl [] [] false false); reflexivity.
Defined.

(* ================================================================== *)
(** * Reading a map into a map that is not empty *)

Lemma unsigned_lt_strict_weak K : strict_weak (unsigned_lt K).
Proof.
  unfold strict_weak, equiv, unsigned_lt. split.
  - intros a b c H1 H2. apply N.ltb_lt in H1, H2. apply N.ltb_lt. lia.
  - intros a b c H1 H2. WriteFacts.bool_props.
    repeat match goal with H : (_ <? _)%N = false |- _ => apply N.ltb_ge in H end.
    apply andb_true_intro. split; apply negb_true_iff, N.ltb_ge; lia.
Qed.

(* ================================================================== *)
(** * What the readers of a map do to the map they are given *)

Module MapKeeps.






End MapKeeps.




(* ================================================================== *)
(** * The asynchronous pipeline *)

Module Pipeline.
Import WriteFacts ReadFacts Resume.

Lemma nth_error_set_nth {A} (l : list A) : forall i j a,
  nth_error (set_nth l i a) j =
  if Nat.eqb j i then match nth_error l i with Some _ => Some a | None => None end
  else nth_error l j.
Proof.
  induction l as [|b l IH]; intros i j a.
  - destruct i, j; cbn; try reflexivity; now destruct (Nat.eqb j i).
  - destruct i, j; cbn; try reflexivity. apply IH.
Qed.

Lemma ks_at_set_nth fs i j f f0 :
  nth_error fs i = Some f0 ->
  ks_at (set_nth fs i f) j =
  if Nat.eqb j i then match f with AsyncFn _ _ _ ks _ _ => ks | _ => [] end else ks_at fs j.
Proof.
  intros H. unfold ks_at. rewrite nth_error_set_nth, H. now destruct (Nat.eqb j i).
Qed.

Section Inv.
Variable key_lt : shape -> value -> value -> bool.

Lemma call_in_step i args k c pq s c' s' :
  in_step c pq -> async_call i args k c s = (Ok c', s') ->
  in_step c' (pq ++ [(i, k)]) /\ fired c' = fired c.
Proof.
  intros [Hq Hks] H. unfold async_call in H.
  destruct (nth_error (stubs c) i) as [[Args R exprid ks r pr|]|] eqn:Hi; try discriminate.
  unfold bind in H.
  destruct (setBlockingBit true s) as [[[]|] s1]; try discriminate.
  destruct (write (SPrim Tuint8) (VPrim [HNET_CMD_INVOKE]) s1) as [[[]|] s2]; try discriminate.
  destruct (write (SPrim Tuint32) (VPrim (le_encode 4 exprid)) s2) as [[[]|] s3];
    try discriminate.
  destruct (oSeq_write Args args s3) as [[[]|] s4]; try discriminate.
  destruct (setBlockingBit false s4) as [[[]|] s5]; try discriminate.
  unfold ret in H. injection H as <- <-. split; [|reflexivity].
  split.
  - cbn [enqueue asyncReaders]. now rewrite map_app, Hq.
  - intros j. cbn [enqueue stubs]. rewrite (ks_at_set_nth _ _ _ _ _ Hi).
    rewrite filter_app, map_app. cbn [filter fst]. rewrite <- Hks.
    destruct (Nat.eqb_spec j i) as [->|Hne].
    + rewrite Nat.eqb_refl. unfold ks_at. now rewrite Hi.
    + replace (Nat.eqb i j) with false by (symmetry; apply Nat.eqb_neq; auto).
      cbn. now rewrite app_nil_r.
Qed.

Lemma call_void_same i args c s c' s' :
  async_call_void i args c s = (Ok c', s') -> c' = c.
Proof.
  intros H. unfold async_call_void in H.
  destruct (nth_error (stubs c) i) as [[|Args exprid]|]; try discriminate.
  unfold bind in H.
  destruct (setBlockingBit true s) as [[[]|] s1]; try discriminate.
  destruct (write (SPrim Tuint8) (VPrim [HNET_CMD_INVOKE]) s1) as [[[]|] s2]; try discriminate.
  destruct (write (SPrim Tuint32) (VPrim (le_encode 4 exprid)) s2) as [[[]|] s3];
    try discriminate.
  destruct (oSeq_write Args args s3) as [[[]|] s4]; try discriminate.
  destruct (setBlockingBit false s4) as [[[]|] s5]; try discriminate.
  unfold ret in H. now injection H as <- <-.
Qed.

(** One [readAndFinish] on the head of the queue. *)
Lemma readAndFinish_in_step i q c pq s done c' s' :
  asyncReaders c = i :: q -> in_step c pq ->
  readAndFinish key_lt i c s = (Ok (done, c'), s') ->
  asyncReaders c' = i :: q /\
  if done
  then exists k pq',
         pq = (i, k) :: pq' /\
         in_step (mkAsyncClient (stubs c') q (fired c')) pq' /\
         map fst (fired c') = map fst (fired c) ++ [k]
  else in_step c' pq /\ fired c' = fired c.
Proof.
  intros Hqueue [Hq Hks] H. unfold readAndFinish in H.
  destruct (nth_error (stubs c) i) as [[Args R exprid ks r pr|]|] eqn:Hi; try discriminate.
  unfold bind in H.
  destruct (accum key_lt R pr r s) as [[[[dn pr'] r']|] s1]; try discriminate.
  destruct pq as [|[i0 k0] pq']; [rewrite Hqueue in Hq; discriminate|].
  cbn [map fst] in Hq. rewrite Hqueue in Hq. injection Hq as -> Hq'.
  pose proof (Hks i) as Hki. unfold ks_at in Hki. rewrite Hi in Hki.
  cbn [filter fst] in Hki. rewrite Nat.eqb_refl in Hki. cbn [map snd] in Hki.
  destruct dn.
  - subst ks. unfold ret in H. injection H as <- <- <-.
    split; [exact Hqueue|]. exists k0, pq'. repeat split.
    + exact Hq'.
    + intros j. cbn [stubs]. rewrite (ks_at_set_nth _ _ _ _ _ Hi).
      specialize (Hks j). cbn [filter fst] in Hks.
      destruct (Nat.eqb_spec j i) as [->|Hne]; [reflexivity|].
      replace (Nat.eqb i j) with false in Hks by (symmetry; apply Nat.eqb_neq; auto).
      exact Hks.
    + cbn [fired]. rewrite map_app. reflexivity.
  - unfold ret in H. injection H as <- <- <-.
    split; [exact Hqueue|]. split; [|reflexivity]. split.
    + cbn [map fst asyncReaders]. now rewrite Hqueue, Hq'.
    + intros j. cbn [stubs]. rewrite (ks_at_set_nth _ _ _ _ _ Hi).
      destruct (Nat.eqb_spec j i) as [->|Hne]; [|apply Hks].
      cbn [filter fst]. now rewrite Nat.eqb_refl.
Qed.

(** [step] delivers some first pending calls, in their order. *)
Lemma step_loop_in_step : forall q c pq s c' s',
  asyncReaders c = q -> in_step c pq ->
  step_loop key_lt q c s = (Ok c', s') ->
  exists n,
    in_step c' (skipn n pq) /\
    map fst (fired c') = map fst (fired c) ++ map snd (firstn n pq).
Proof.
  induction q as [|i q IH]; intros c pq s c' s' Hqueue Hinv H.
  - cbn in H. injection H as <- <-. exists 0. cbn. now rewrite app_nil_r.
  - cbn [step_loop] in H. unfold bind in H.
    destruct (readAndFinish key_lt i c s) as [[[dn c1]|] s1] eqn:Hr; try discriminate.
    destruct (readAndFinish_in_step i q c pq s dn c1 s1 Hqueue Hinv Hr) as [Hq1 Hd].
    destruct dn.
    + destruct Hd as (k & pq' & -> & Hinv' & Hf).
      destruct (IH (mkAsyncClient (stubs c1) q (fired c1)) pq' s1 c' s' eq_refl Hinv' H)
        as (n & Hn & Hfn).
      exists (S n). cbn [skipn firstn map snd]. split; [exact Hn|].
      cbn [fired] in Hfn. rewrite Hfn, Hf. now rewrite <- app_assoc.
    + destruct Hd as [Hinv' Hf]. unfold ret in H. injection H as <- <-.
      exists 0. cbn. rewrite app_nil_r. split; [exact Hinv' | now rewrite Hf].
Qed.

Lemma run_ops_in_step : forall ops c pq s c' s',
  in_step c pq -> run_ops key_lt ops c s = (Ok c', s') ->
  exists pq',
    in_step c' pq' /\
    map fst (fired c') ++ map snd pq' = map fst (fired c) ++ map snd pq ++ issued ops.
Proof.
  induction ops as [|o ops IH]; intros c pq s c' s' Hinv H.
  - cbn in H. injection H as <- <-. exists pq. cbn. now rewrite app_nil_r.
  - cbn [run_ops] in H. unfold bind in H.
    destruct (run_op key_lt o c s) as [[c1|] s1] eqn:Ho; try discriminate.
    destruct o as [i args k | i args | | bs]; cbn [run_op issued] in *.
    + destruct (call_in_step i args k c pq s c1 s1 Hinv Ho) as [Hinv1 Hf].
      destruct (IH c1 _ s1 c' s' Hinv1 H) as (pq' & Hinv' & E).
      exists pq'. split; [exact Hinv'|]. rewrite E, Hf, map_app. cbn [map snd].
      now rewrite <- !app_assoc.
    + apply call_void_same in Ho. subst c1. eauto.
    + unfold step in Ho.
      destruct (step_loop_in_step _ c pq s c1 s1 eq_refl Hinv Ho) as (n & Hinv1 & Hf).
      destruct (IH c1 _ s1 c' s' Hinv1 H) as (pq' & Hinv' & E).
      exists pq'. split; [exact Hinv'|]. rewrite E, Hf.
      rewrite <- (firstn_skipn n pq) at 3. rewrite map_app. now rewrite <- !app_assoc.
    + unfold bind, arrive_all, ret in Ho. injection Ho as <- <-. eauto.
Qed.

End Inv.

(** ** Replies in issue order *)

Lemma set_nth_same {A} (l : list A) : forall i a, nth_error l i = Some a -> set_nth l i a = l.
Proof.
  induction l as [|b l IH]; intros [|i] a H; cbn in *; try discriminate.
  - now injection H as ->.
  - now rewrite IH.
Qed.

Lemma set_nth_twice {A} (l : list A) : forall i a b,
  set_nth (set_nth l i a) i b = set_nth l i b.
Proof.
  induction l as [|x l IH]; intros [|i] a b; cbn; try reflexivity. now rewrite IH.
Qed.

Lemma Forall_set_nth {A} (P : A -> Prop) (l : list A) : forall i a,
  Forall P l -> P a -> Forall P (set_nth l i a).
Proof.
  induction l as [|x l IH]; intros [|i] a Hl Ha; cbn; try assumption;
    inversion Hl; subst; constructor; auto.
Qed.

Lemma signature_set_nth fs i Args R e ks r pr ks' r' pr' :
  nth_error fs i = Some (AsyncFn Args R e ks r pr) ->
  forall j, signature (set_nth fs i (AsyncFn Args R e ks' r' pr')) j = signature fs j.
Proof.
  intros H j. unfold signature. rewrite nth_error_set_nth, H.
  destruct (Nat.eqb_spec j i) as [->|]; [now rewrite H | reflexivity].
Qed.

Section Replies.
Variable key_lt : shape -> value -> value -> bool.

Lemma answers_ext fs fs' : (forall j, signature fs' j = signature fs j) ->
  forall pq vs, answers key_lt fs' pq vs = answers key_lt fs pq vs.
Proof.
  intros H. induction pq as [|[i k] pq IH]; intros [|v vs]; cbn; try reflexivity.
  unfold result_shape. rewrite H, IH. reflexivity.
Qed.

Lemma reply_wire_ext fs fs' : (forall j, signature fs' j = signature fs j) ->
  forall pq vs, reply_wire fs' pq vs = reply_wire fs pq vs.
Proof.
  intros H. induction pq as [|[i k] pq IH]; intros [|v vs]; cbn; try reflexivity.
  unfold result_shape. rewrite H, IH. reflexivity.
Qed.

Lemma run_ops_app a : forall b c s,
  run_ops key_lt (a ++ b) c s =
  match run_ops key_lt a c s with
  | (Ok c', s') => run_ops key_lt b c' s'
  | (Err e, s') => (Err e, s')
  end.
Proof.
  induction a as [|o a IH]; intros b c s; [reflexivity|].
  cbn [app run_ops]. unfold bind. destruct (run_op key_lt o c s) as [[c1|e] s1]; [|reflexivity].
  apply IH.
Qed.

Lemma feed_app a b : feed (a ++ b) = feed a ++ feed b.
Proof. unfold feed. now rewrite flat_map_app. Qed.

(** One [step] of a client whose head reader is called once. *)
Lemma step_head c i q Args R e k ks r pr s done pr1 r1 s1 :
  asyncReaders c = i :: q ->
  nth_error (stubs c) i = Some (AsyncFn Args R e (k :: ks) r pr) ->
  accum key_lt R pr r s = (Ok (done, pr1, r1), s1) ->
  step key_lt c s =
  if done
  then step key_lt
         (mkAsyncClient
            (set_nth (stubs c) i (AsyncFn Args R e ks (default_value R) (prepare R pr1)))
            q (fired c ++ [(k, r1)])) s1
  else (Ok (mkAsyncClient (set_nth (stubs c) i (AsyncFn Args R e (k :: ks) r1 pr1))
              (i :: q) (fired c)), s1).
Proof.
  intros Hq Hi Ha. unfold step at 1. rewrite Hq. cbn [step_loop].
  unfold bind, readAndFinish. rewrite Hi. unfold bind. rewrite Ha.
  destruct done; unfold ret; cbn [stubs fired asyncReaders]; [reflexivity|].
  now rewrite Hq.
Qed.

Lemma in_step_set c pq i f0 f fd :
  in_step c pq -> nth_error (stubs c) i = Some f0 ->
  ks_at [f] 0 = ks_at [f0] 0 ->
  in_step (mkAsyncClient (set_nth (stubs c) i f) (asyncReaders c) fd) pq.
Proof.
  intros [Hq Hks] Hi Hf. split; [exact Hq|]. intros j. cbn [stubs].
  rewrite (ks_at_set_nth _ _ _ _ _ Hi). destruct (Nat.eqb_spec j i) as [->|]; [|apply Hks].
  rewrite <- Hks. unfold ks_at. rewrite Hi. exact Hf.
Qed.

Lemma in_step_head c i k pq :
  in_step c ((i, k) :: pq) ->
  exists Args R e ks r pr,
    nth_error (stubs c) i = Some (AsyncFn Args R e (k :: ks) r pr) /\
    asyncReaders c = i :: map fst pq.
Proof.
  intros [Hq Hks]. specialize (Hks i). cbn [filter fst] in Hks.
  rewrite Nat.eqb_refl in Hks. cbn [map snd] in Hks. unfold ks_at in Hks.
  destruct (nth_error (stubs c) i) as [[Args R e ks r pr|]|]; try discriminate.
  subst ks. now exists Args, R, e, (map snd (filter (fun e0 : nat * K => Nat.eqb (fst e0) i) pq)), r, pr.
Qed.

Lemma in_step_pop c i k pq Args R e ks r pr f fd :
  in_step c ((i, k) :: pq) ->
  nth_error (stubs c) i = Some (AsyncFn Args R e (k :: ks) r pr) ->
  ks_at [f] 0 = ks ->
  in_step (mkAsyncClient (set_nth (stubs c) i f) (map fst pq) fd) pq.
Proof.
  intros [Hq Hks] Hi Hf. split; [reflexivity|]. intros j. cbn [stubs].
  rewrite (ks_at_set_nth _ _ _ _ _ Hi). specialize (Hks j). cbn [filter fst] in Hks.
  destruct (Nat.eqb_spec j i) as [->|Hne].
  - rewrite Nat.eqb_refl in Hks. cbn [map snd] in Hks. unfold ks_at in Hks.
    rewrite Hi in Hks. injection Hks as <-. exact Hf.
  - replace (Nat.eqb i j) with false in Hks by (symmetry; apply Nat.eqb_neq; auto).
    exact Hks.
Qed.

(** The bytes before the last of a reply: each [step] calls the head reader,
    which takes its byte and returns [false]. *)
Lemma feed_quiet R i q Args e k ks bs pr r pr1 r1 :
  quiet (accum key_lt R) bs pr r pr1 r1 ->
  forall fs fd out fl,
    nth_error fs i = Some (AsyncFn Args R e (k :: ks) r pr) ->
    run_ops key_lt (feed bs) (mkAsyncClient fs (i :: q) fd) (mkSocket out [] false false fl)
    = (Ok (mkAsyncClient (set_nth fs i (AsyncFn Args R e (k :: ks) r1 pr1)) (i :: q) fd),
       mkSocket out [] false false fl).
Proof.
  induction 1 as [o x | b bs o x o1 x1 o' x' Ht _ IH]; intros fs fd out fl Hi.
  - cbn. unfold ret. now rewrite (set_nth_same _ _ _ Hi).
  - cbn [feed flat_map app run_ops run_op]. unfold bind at 1 2. unfold arrive_all, ret.
    unfold set_inb. cbn [inb outb peer_closed blocking send_fails app]. unfold bind.
    rewrite (step_head (mkAsyncClient fs (i :: q) fd) i q Args R e k ks x o _ false o1 x1 _
               eq_refl Hi (Ht out false false fl)).
    cbn [stubs fired]. fold (feed bs).
    rewrite (IH (set_nth fs i (AsyncFn Args R e (k :: ks) x1 o1)) fd out fl).
    + now rewrite set_nth_twice.
    + rewrite nth_error_set_nth, Nat.eqb_refl, Hi. reflexivity.
Qed.

(** A [step] when nothing has arrived leaves the client as it is, but for
    the head reader, which stays prepared. *)
Lemma step_idle c pq vs out fl :
  in_step c pq -> ready c -> answers key_lt (stubs c) pq vs = true ->
  exists c',
    step key_lt c (mkSocket out [] false false fl) = (Ok c', mkSocket out [] false false fl)
    /\ in_step c' pq /\ ready c' /\ fired c' = fired c
    /\ (forall j, signature (stubs c') j = signature (stubs c) j).
Proof.
  intros Hin Hr Ha. destruct pq as [|[i k] pq].
  - exists c. pose proof (proj1 Hin) as Hq. unfold step. rewrite <- Hq. cbn.
    repeat split; auto; apply Hin.
  - destruct (in_step_head _ _ _ _ Hin) as (Args & R & e & ks & r & pr & Hi & Hq).
    destruct vs as [|v vs]; [discriminate|]. cbn [answers] in Ha.
    assert (HR : result_shape (stubs c) i = Some R)
      by (unfold result_shape, signature; now rewrite Hi).
    rewrite HR in Ha. bool_hyps.
    assert (Hrs : ready_stub (AsyncFn Args R e (k :: ks) r pr)).
    { unfold ready in Hr. rewrite Forall_forall in Hr. apply Hr.
      eapply nth_error_In; eauto. }
    destruct Hrs as (Hs & Hd & o & -> & Ho).
    destruct (proj1 (idles_all key_lt) R Hs v r o out fl) as (o1 & d1 & E & So & Dd & _);
      try assumption.
    rewrite (step_head _ i _ Args R e k ks _ _ _ _ _ _ _ Hq Hi E).
    eexists. split; [reflexivity|]. rewrite <- Hq. repeat split.
    + exact (proj1 (in_step_set c _ i _ (AsyncFn Args R e (k :: ks) d1 (prepare R o1))
                      (fired c) Hin Hi eq_refl)).
    + exact (proj2 (in_step_set c _ i _ (AsyncFn Args R e (k :: ks) d1 (prepare R o1))
                      (fired c) Hin Hi eq_refl)).
    + apply Forall_set_nth; [exact Hr|]. cbn. eauto.
    + cbn [stubs]. intros j. now apply (signature_set_nth _ i Args R e (k :: ks) r (prepare R o)).
Qed.

(** With the replies to the pending calls arriving in issue order, a byte
    at a time and a [step] after each, every continuation is handed its
    reply, in issue order, and no call is left pending. *)
Lemma replies_delivered : forall pq c vs out fl,
  in_step c pq -> ready c -> answers key_lt (stubs c) pq vs = true ->
  exists c',
    run_ops key_lt (feed (reply_wire (stubs c) pq vs)) c (mkSocket out [] false false fl)
    = (Ok c', mkSocket out [] false false fl)
    /\ fired c' = fired c ++ combine (map snd pq) vs
    /\ asyncReaders c' = [] /\ in_step c' [] /\ ready c'.
Proof.
  induction pq as [|[i k] pq IH]; intros c vs out fl Hin Hr Ha.
  - destruct vs; [|discriminate]. exists c. cbn. rewrite app_nil_r.
    destruct Hin as [Hq Hks]. repeat split; auto.
  - destruct (in_step_head _ _ _ _ Hin) as (Args & R & e & ks & r & pr & Hi & Hq).
    destruct vs as [|v vs]; [discriminate|]. cbn [answers reply_wire] in *.
    assert (HR : result_shape (stubs c) i = Some R)
      by (unfold result_shape, signature; now rewrite Hi).
    rewrite HR in Ha |- *. bool_hyps.
    assert (Hrs : ready_stub (AsyncFn Args R e (k :: ks) r pr)).
    { unfold ready in Hr. rewrite Forall_forall in Hr. apply Hr.
      eapply nth_error_In; eauto. }
    destruct Hrs as (Hs & Hd & o & -> & Ho).
    destruct (proj1 (runs_all key_lt) R Hs v r o) as (o' & Hrun & So'); try assumption.
    destruct Hrun as (init & last & o1 & x1 & E & Hquiet & Hlast).
    rewrite E, <- !app_assoc, !feed_app, !run_ops_app.
    destruct c as [fs qs fd]. cbn [stubs asyncReaders fired] in *. subst qs.
    rewrite (feed_quiet R i (map fst pq) Args e k ks init _ _ _ _ Hquiet fs fd out fl Hi).
    set (fs1 := set_nth fs i (AsyncFn Args R e (k :: ks) x1 o1)).
    assert (Hi1 : nth_error fs1 i = Some (AsyncFn Args R e (k :: ks) x1 o1))
      by (unfold fs1; rewrite nth_error_set_nth, Nat.eqb_refl, Hi; reflexivity).
    cbn [feed flat_map app run_ops run_op]. unfold bind at 1 2. unfold arrive_all, ret.
    unfold set_inb. cbn [inb outb peer_closed blocking send_fails app]. unfold bind at 1.
    rewrite (step_head (mkAsyncClient fs1 (i :: map fst pq) fd) i (map fst pq) Args R e k ks
               x1 o1 _ true o' v _ eq_refl Hi1 (Hlast out false false fl)).
    cbn [stubs fired]. unfold fs1. rewrite set_nth_twice.
    set (f2 := AsyncFn Args R e ks (default_value R) (prepare R o')).
    set (c2 := mkAsyncClient (set_nth fs i f2) (map fst pq) (fd ++ [(k, v)])).
    assert (Hin2 : in_step c2 pq)
      by exact (in_step_pop _ i k pq Args R e ks r (prepare R o) f2 _ Hin Hi eq_refl).
    assert (Hr2 : ready c2).
    { apply Forall_set_nth; [exact Hr|]. cbn. repeat split; auto.
      - apply (proj1 dest_default).
      - eauto. }
    assert (Hsh2 : forall j, signature (stubs c2) j = signature fs j)
      by (intros j; cbn [stubs]; unfold f2; now apply (signature_set_nth fs i Args R e (k :: ks) r (prepare R o))).
    assert (Ha2 : answers key_lt (stubs c2) pq vs = true)
      by (rewrite (answers_ext _ _ Hsh2); assumption).
    destruct (step_idle c2 pq vs out fl Hin2 Hr2 Ha2) as (c3 & E3 & Hin3 & Hr3 & Hf3 & Hsh3).
    rewrite E3.
    assert (Hsh : forall j, signature (stubs c3) j = signature fs j)
      by (intros j; now rewrite Hsh3, Hsh2).
    assert (Ha3 : answers key_lt (stubs c3) pq vs = true)
      by (rewrite (answers_ext _ _ Hsh); assumption).
    destruct (IH c3 vs out fl Hin3 Hr3 Ha3) as (c' & E' & Hf' & Hq' & Hin' & Hr').
    exists c'. rewrite (reply_wire_ext _ _ Hsh) in E'. unfold feed in E' |- *. rewrite E'.
    split; [reflexivity|]. split; [|split; [exact Hq' | split; [exact Hin' | exact Hr']]].
    rewrite Hf', Hf3. cbn [fired c2 map snd combine]. now rewrite <- app_assoc.
Qed.

(** ** Issuing the calls *)

Lemma callable_ext fs fs' : (forall j, signature fs' j = signature fs j) ->
  forall cl, callable key_lt fs' cl = callable key_lt fs cl.
Proof. intros H cl. unfold callable. now rewrite H. Qed.

Lemma invoke_frame_ext fs fs' : (forall j, signature fs' j = signature fs j) ->
  forall cl, invoke_frame fs' cl = invoke_frame fs cl.
Proof. intros H cl. unfold invoke_frame. now rewrite H. Qed.

Lemma signature_inv fs i Args R e :
  signature fs i = Some (Args, R, e) ->
  exists ks r pr, nth_error fs i = Some (AsyncFn Args R e ks r pr).
Proof.
  unfold signature. destruct (nth_error fs i) as [[A R' e' ks r pr|]|]; try discriminate.
  intros H. injection H as -> -> ->. eauto.
Qed.

Lemma async_call_ok i args k c Args R e ks r pr out inb_ pc b :
  nth_error (stubs c) i = Some (AsyncFn Args R e ks r pr) ->
  wf_seq key_lt Args args = true ->
  async_call i args k c (mkSocket out inb_ pc b false) =
  (Ok (mkAsyncClient (set_nth (stubs c) i (AsyncFn Args R e (ks ++ [k]) r pr))
         (asyncReaders c ++ [i]) (fired c)),
   mkSocket (out ++ [HNET_CMD_INVOKE] ++ le_encode 4 e ++ wire (STuple Args) (VTuple args))
     inb_ pc false false).
Proof.
  intros Hi Hwf. unfold async_call. rewrite Hi. unfold bind, setBlockingBit, oSeq_write.
  cbn [outb inb peer_closed send_fails write write_scalar].
  rewrite !sendData_ok. rewrite (WriteFacts.write_seq_wire key_lt) by exact Hwf.
  cbn [outb inb peer_closed send_fails]. unfold ret, enqueue.
  cbn [stubs asyncReaders fired]. now rewrite <- !app_assoc.
Qed.

Lemma calls_issued : forall calls c pq out b,
  in_step c pq -> ready c -> forallb (callable key_lt (stubs c)) calls = true ->
  exists c1,
    run_ops key_lt (map call_op calls) c (mkSocket out [] false b false)
    = (Ok c1,
       mkSocket (out ++ concat (map (invoke_frame (stubs c)) calls)) [] false
         (match calls with [] => b | _ => false end) false)
    /\ in_step c1 (pq ++ pending_of calls) /\ ready c1 /\ fired c1 = fired c
    /\ (forall j, signature (stubs c1) j = signature (stubs c) j).
Proof.
  induction calls as [|[[i a] k] calls IH]; intros c pq out b Hin Hr Hc.
  - exists c. cbn. rewrite !app_nil_r. unfold ret. auto.
  - cbn [forallb] in Hc. apply andb_prop in Hc. destruct Hc as [Hc0 Hc].
    unfold callable in Hc0. cbn [fst snd] in Hc0.
    destruct (signature (stubs c) i) as [[[Args R] e]|] eqn:Hsig; [|discriminate].
    destruct (signature_inv _ _ _ _ _ Hsig) as (ks & r & pr & Hi).
    pose proof (async_call_ok i a k c Args R e ks r pr out [] false b Hi Hc0) as E.
    destruct (call_in_step i a k c pq _ _ _ Hin E) as [Hin1 Hf1].
    set (c0 := mkAsyncClient (set_nth (stubs c) i (AsyncFn Args R e (ks ++ [k]) r pr))
                 (asyncReaders c ++ [i]) (fired c)) in *.
    assert (Hsig0 : forall j, signature (stubs c0) j = signature (stubs c) j)
      by (intros j; now apply (signature_set_nth _ i Args R e ks r pr)).
    assert (Hr0 : ready c0).
    { apply Forall_set_nth; [exact Hr|].
      unfold ready in Hr. rewrite Forall_forall in Hr.
      exact (Hr _ (nth_error_In _ _ Hi)). }
    assert (Hc1 : forallb (callable key_lt (stubs c0)) calls = true).
    { rewrite <- Hc. clear - Hsig0. induction calls as [|cl calls IHc]; [reflexivity|].
      cbn [forallb]. now rewrite IHc, (callable_ext _ _ Hsig0). }
    destruct (IH c0 (pq ++ [(i, k)])
                (out ++ [HNET_CMD_INVOKE] ++ le_encode 4 e ++ wire (STuple Args) (VTuple a))
                false Hin1 Hr0 Hc1)
      as (c1 & E1 & Hin' & Hr' & Hf' & Hsig').
    exists c1. cbn [map call_op run_ops run_op]. unfold bind. rewrite E, E1.
    split; [|split; [|split; [exact Hr'|split]]].
    + f_equal. f_equal.
      * cbn [map concat].
        replace (invoke_frame (stubs c) (i, a, k))
          with ([HNET_CMD_INVOKE] ++ le_encode 4 e ++ wire (STuple Args) (VTuple a))
          by (unfold invoke_frame; cbn [fst snd]; now rewrite Hsig).
        rewrite <- !app_assoc. do 4 f_equal.
        f_equal. apply map_ext. intros cl. now apply invoke_frame_ext.
      * now destruct calls.
    + rewrite <- app_assoc in Hin'. exact Hin'.
    + now rewrite Hf'.
    + intros j. now rewrite Hsig', Hsig0.
Qed.

Lemma pending_conts calls : map snd (pending_of calls) = map snd calls.
Proof. unfold pending_of. rewrite map_map. reflexivity. Qed.

(** The calls are issued, then the replies arrive in issue order. *)
Lemma issue_then_replies c calls vs out b :
  in_step c [] -> ready c ->
  forallb (callable key_lt (stubs c)) calls = true ->
  answers key_lt (stubs c) (pending_of calls) vs = true ->
  exists c',
    run_ops key_lt
      (map call_op calls ++ feed (reply_wire (stubs c) (pending_of calls) vs))
      c (mkSocket out [] false b false)
    = (Ok c',
       mkSocket (out ++ concat (map (invoke_frame (stubs c)) calls)) [] false
         (match calls with [] => b | _ => false end) false)
    /\ fired c' = fired c ++ combine (map snd calls) vs
    /\ pendingRequests c' = 0%N.
Proof.
  intros Hin Hr Hc Ha.
  destruct (calls_issued calls c [] out b Hin Hr Hc) as (c1 & E1 & Hin1 & Hr1 & Hf1 & Hsig1).
  cbn [app] in Hin1. rewrite run_ops_app, E1.
  destruct calls as [|cl calls].
  - destruct vs; [|discriminate]. exists c1. split; [reflexivity|]. split.
    + rewrite Hf1. cbn. now rewrite app_nil_r.
    + unfold pendingRequests. now rewrite <- (proj1 Hin1).
  - assert (Ha1 : answers key_lt (stubs c1) (pending_of (cl :: calls)) vs = true)
      by (rewrite (answers_ext _ _ Hsig1); exact Ha).
    destruct (replies_delivered _ c1 vs
                (out ++ concat (map (invoke_frame (stubs c)) (cl :: calls))) false
                Hin1 Hr1 Ha1) as (c' & E' & Hf' & Hq' & _ & _).
    exists c'. rewrite <- (reply_wire_ext _ _ Hsig1), E'. repeat split.
    + now rewrite Hf', Hf1, pending_conts.
    + unfold pendingRequests. now rewrite Hq'.
Qed.

End Replies.

End Pipeline.

(** C5.  Asynchronous calls c1, ..., cN are issued on one session whose
    stubs are between replies, and the peer replies in issue order: the
    replies reach the client a byte at a time and [step] is called after
    each byte.  Then every call and every [step] returns, the requests were
    written in issue order, and the continuations were invoked in exactly
    the order c1, ..., cN, each with the result the peer sent for its call;
    no request is left pending.  Second part: one [step] calls [accum] once
    on the head reader; if the value is complete ([done]), the head
    continuation is invoked with the result read, the result object and
    the reader state are made anew, the head of the queue is popped and
    [step] goes on with the next reader; otherwise [step] stops there.
    Third part, for result types of any shape and every interleaving of
    calls, steps and arrivals of bytes that returns: the continuations
    invoked so far, followed by those of the calls still pending (in the
    order of the queue of readers), are the continuations of the calls in
    issue order. *)
Theorem async_replies_in_issue_order :
  forall key_lt,
    (forall c calls vs out b,
        in_step c [] -> ready c ->
        forallb (callable key_lt (stubs c)) calls = true ->
        answers key_lt (stubs c) (pending_of calls) vs = true ->
        exists c',
          run_ops key_lt
            (map call_op calls ++ feed (reply_wire (stubs c) (pending_of calls) vs))
            c (mkSocket out [] false b false)
          = (Ok c',
             mkSocket (out ++ concat (map (invoke_frame (stubs c)) calls)) [] false
               (match calls with [] => b | _ => false end) false)
          /\ fired c' = fired c ++ combine (map snd calls) vs
          /\ pendingRequests c' = 0%N)
    /\
    (forall c i q Args R e k ks r pr s done pr1 r1 s1,
        asyncReaders c = i :: q ->
        nth_error (stubs c) i = Some (AsyncFn Args R e (k :: ks) r pr) ->
        accum key_lt R pr r s = (Ok (done, pr1, r1), s1) ->
        step key_lt c s =
        if done
        then step key_lt
               (mkAsyncClient
                  (set_nth (stubs c) i
                     (AsyncFn Args R e ks (default_value R) (prepare R pr1)))
                  q (fired c ++ [(k, r1)])) s1
        else (Ok (mkAsyncClient (set_nth (stubs c) i (AsyncFn Args R e (k :: ks) r1 pr1))
                    (i :: q) (fired c)), s1))
    /\
    (forall ops c s c' s',
        in_step c [] ->
        run_ops key_lt ops c s = (Ok c', s') ->
        exists pq,
          in_step c' pq /\
          map fst (fired c') ++ map snd pq = map fst (fired c) ++ issued ops).
Proof.
  intros key_lt. split; [|split].
  - intros c calls vs out b. apply Pipeline.issue_then_replies.
  - intros c i q Args R e k ks r pr s done pr1 r1 s1. apply Pipeline.step_head.
  - intros ops c s c' s' Hin Hrun.
    exact (Pipeline.run_ops_in_step key_lt ops c [] s c' s' Hin Hrun).
Qed.

Lemma async_replies_in_issue_order_witness :
  let f := newAsyncFn (SCons (SPrim Tint32) SNil) (SPrim Tint32) 1 in
  let g := newAsyncFn SNil SString 2 in
  let cl := mkAsyncClient [f; g] [] [] in
  let seven := VPrim [x07; x00; x00; x00] in
  let eight := VPrim [x08; x00; x00; x00] in
  let calls : list acall := [(0%nat, [seven], 10%nat); (1%nat, [], 11%nat);
                             (0%nat, [eight], 12%nat)] in
  let vs := [VPrim [x01; x00; x00; x00]; VString [x68; x69]; VPrim [x02; x00; x00; x00]] in
  (exists c',
      run_ops unsigned_lt
        (map call_op calls ++ feed (reply_wire (stubs cl) (pending_of calls) vs))
        cl (mkSocket [] [] false true false)
      = (Ok c',
         mkSocket ([] ++ concat (map (invoke_frame (stubs cl)) calls)) [] false false false)
      /\ fired c' = fired cl ++ combine (map snd calls) vs
      /\ pendingRequests c' = 0%N)
  /\
  (let c1 := mkAsyncClient [AsyncFn (SCons (SPrim Tint32) SNil) (SPrim Tint32) 1 [10%nat]
                              (default_value (SPrim Tint32)) (RCount 0); g] [0%nat] [] in
   step unsigned_lt c1 (mkSocket [] [x01] false false false) =
   (Ok (mkAsyncClient
          (set_nth (stubs c1) 0
             (AsyncFn (SCons (SPrim Tint32) SNil) (SPrim Tint32) 1 [10%nat]
                (VPrim [x01; x00; x00; x00]) (RCount 1)))
          [0%nat] (fired c1)),
    mkSocket [] [] false false false))
  /\
  (let ops := [OpCall 0 [seven] 10%nat; OpCall 1 [] 11%nat;
               OpArrive [x01; x00; x00; x00]; OpStep; OpCall 0 [eight] 12%nat] in
   let r := run_ops unsigned_lt ops cl (mkSocket [] [] false true false) in
   let c' := match fst r with Ok c' => c' | Err _ => cl end in
   fired c' = [(10%nat, VPrim [x01; x00; x00; x00])] /\
   exists pq,
     in_step c' pq /\
     map fst (fired c') ++ map snd pq = map fst (fired cl) ++ issued ops).
Proof.
  intros f g cl seven eight calls vs. split; [|split].
  - apply (proj1 (async_replies_in_issue_order unsigned_lt) cl calls vs [] true).
    + split; [reflexivity|]. intros [|[|[|i]]]; reflexivity.
    + repeat constructor; exists RFresh; split; reflexivity.
    + vm_compute; reflexivity.
    + vm_compute; reflexivity.
  - intros c1.
    apply (proj1 (proj2 (async_replies_in_issue_order unsigned_lt)) c1 0%nat [] (SCons (SPrim Tint32) SNil)
             (SPrim Tint32) 1%N 10%nat [] (default_value (SPrim Tint32)) (RCount 0)
             (mkSocket [] [x01] false false false) false (RCount 1)
             (VPrim [x01; x00; x00; x00]) (mkSocket [] [] false false false));
      vm_compute; reflexivity.
  - intros ops r c'. split; [vm_compute; reflexivity|].
    apply (proj2 (proj2 (async_replies_in_issue_order unsigned_lt)) ops cl
             (mkSocket [] [] false true false) c' (snd r)).
    + split; [reflexivity|]. intros [|[|[|i]]]; reflexivity.
    + vm_compute; reflexivity.
Defined.

(* ================================================================== *)
(** * Encodings shared between shapes *)

Module SharedWire.
Import WriteFacts ReadFacts.

Lemma forM_map {A B} (g : A -> B) (f : B -> M unit) (h : A -> M unit) :
  (forall a s, f (g a) s = h a s) ->
  forall xs s, forM_ f (map g xs) s = forM_ h xs s.
Proof.
  intros H. induction xs as [|x xs IH]; intros s; [reflexivity|].
  cbn [map forM_]. unfold bind. rewrite H. destruct (h x s) as [[[]|e] s1]; auto.
Qed.

Lemma len_map {A B} (g : A -> B) xs : len (map g xs) = len xs.
Proof. unfold len. now rewrite length_map. Qed.

Lemma flat_chars cs : flat_mem (map char_value cs) = cs.
Proof. induction cs as [|c cs IH]; [reflexivity|]. cbn. unfold flat_mem in IH. now rewrite IH. Qed.

Lemma map_write K T kvs s :
  write (SMap K T) (VMap kvs) s =
  write (SVector (SPair K T)) (VVector (map entry_pair kvs)) s.
Proof.
  cbn [write can_memcpy]. rewrite len_map. unfold bind.
  destruct (send_size (len kvs) s) as [[[]|e] s1]; [|reflexivity].
  symmetry. apply forM_map. reflexivity.
Qed.

Lemma string_write cs s :
  (len cs < size_max)%N ->
  write SString (VString cs) s =
  write (SVector (SPrim Tchar)) (VVector (map char_value cs)) s.
Proof.
  intros H. cbn [write can_memcpy sizeof sizeof_prim]. rewrite len_map, flat_chars. unfold bind.
  destruct (send_size (len cs) s) as [[[]|e] s1]; [|reflexivity].
  destruct cs as [|c cs]; [reflexivity|].
  replace (0 <? len (c :: cs))%N with true by (symmetry; apply N.ltb_lt; unfold len; cbn; lia).
  unfold take, size_mul. rewrite N.mul_1_l, N.mod_small by exact H.
  unfold len. rewrite Nat2N.id. now rewrite firstn_all.
Qed.

Section Entries.
Variable key_lt : shape -> value -> value -> bool.

Lemma wf_entries K T kvs :
  forallb (fun xp : value * value => wf key_lt K (fst xp) && wf key_lt T (snd xp)) kvs = true ->
  forallb (wf key_lt (SPair K T)) (map entry_pair kvs) = true.
Proof.
  induction kvs as [|[k v] kvs IH]; intros H; [reflexivity|].
  cbn [forallb map entry_pair fst snd wf] in *. apply andb_prop in H. destruct H as [H1 H2].
  now rewrite H1, IH.
Qed.

Lemma wf_chars cs : forallb (wf key_lt (SPrim Tchar)) (map char_value cs) = true.
Proof. induction cs as [|c cs IH]; [reflexivity|]. cbn [map forallb]. now rewrite IH. Qed.

Lemma map_wire K T kvs :
  wire (SMap K T) (VMap kvs) = wire (SVector (SPair K T)) (VVector (map entry_pair kvs)).
Proof.
  cbn [wire can_memcpy]. rewrite len_map, map_map. reflexivity.
Qed.

Lemma string_wire cs :
  (len cs < size_max)%N ->
  wire SString (VString cs) = wire (SVector (SPrim Tchar)) (VVector (map char_value cs)).
Proof.
  intros H. cbn [wire can_memcpy sizeof sizeof_prim]. rewrite len_map, flat_chars.
  destruct cs as [|c cs]; [reflexivity|].
  replace (0 <? len (c :: cs))%N with true by (symmetry; apply N.ltb_lt; unfold len; cbn; lia).
  unfold take, size_mul. rewrite N.mul_1_l, N.mod_small by exact H.
  unfold len. rewrite Nat2N.id. now rewrite firstn_all.
Qed.

End Entries.
End SharedWire.

(** X1. A map is written as the vector of its entries, taken as pairs in
    the order of the keys, and declared with the same descriptor: the two
    writers do the same to every socket. So, when no vector of scalars wider
    than a byte is inside the keys or the values (the blocking reader
    misreads those), the blocking reader of the vector of pairs reads, from
    what was written for a map, the entries in order. *)
Theorem map_written_as_vector_of_pairs :
  forall key_lt K T kvs,
    (forall s,
        write (SMap K T) (VMap kvs) s =
        write (SVector (SPair K T)) (VVector (map entry_pair kvs)) s)
    /\ type_of (SMap K T) = type_of (SVector (SPair K T))
    /\ (narrow_vectors K = true -> narrow_vectors T = true ->
        wf key_lt (SMap K T) (VMap kvs) = true ->
        forall d o rest c b f,
          dest (SVector (SPair K T)) d = true ->
          read key_lt (SVector (SPair K T)) d
            (mkSocket o (wire (SMap K T) (VMap kvs) ++ rest) c b f) =
          (Ok (VVector (map entry_pair kvs)), mkSocket o rest c b f)).
Proof.
  intros key_lt K T kvs. split; [|split].
  - intros s. apply SharedWire.map_write.
  - reflexivity.
  - intros HK HT Hwf d o rest c b f Hd. rewrite SharedWire.map_wire.
    apply (RoundTrip.read_wire key_lt); [cbn; now rewrite HK, HT | | exact Hd].
    cbn [wf] in *. apply andb_prop in Hwf. destruct Hwf as [Hwf _].
    apply andb_prop in Hwf. destruct Hwf as [Hl Hwf].
    rewrite SharedWire.len_map, Hl. cbn [sizeof N.of_nat N.mul andb].
    now apply (SharedWire.wf_entries key_lt).
Qed.

Lemma map_written_as_vector_of_pairs_witness :
  let u8 := SPrim Tuint8 in
  let kvs := [(VPrim [x01], VPrim [x0a]); (VPrim [x02], VPrim [x0b])] in
  read unsigned_lt (SVector (SPair u8 u8)) (VVector [])
    (mkSocket [] (wire (SMap u8 u8) (VMap kvs) ++ [xff]) false true false) =
  (Ok (VVector (map entry_pair kvs)), mkSocket [] [xff] false true false).
Proof.
  intros u8 kvs.
  apply (proj2 (proj2 (map_written_as_vector_of_pairs unsigned_lt u8 u8 kvs)));
    vm_compute; reflexivity.
Defined.

(** X2. A string is written as the vector of its characters and declared
    with the same descriptor, [ty::array] of [char]: the two writers do the
    same to every socket, and either blocking reader reads what the other
    writer wrote. *)
Theorem string_written_as_vector_of_char :
  forall key_lt cs,
    (len cs < size_max)%N ->
    (forall s,
        write SString (VString cs) s =
        write (SVector (SPrim Tchar)) (VVector (map char_value cs)) s)
    /\ type_of SString = type_of (SVector (SPrim Tchar))
    /\ (forall d o rest c b f,
          dest (SVector (SPrim Tchar)) d = true ->
          read key_lt (SVector (SPrim Tchar)) d
            (mkSocket o (wire SString (VString cs) ++ rest) c b f) =
          (Ok (VVector (map char_value cs)), mkSocket o rest c b f))
    /\ (forall d o rest c b f,
          read key_lt SString d
            (mkSocket o (wire (SVector (SPrim Tchar)) (VVector (map char_value cs)) ++ rest)
               c b f) =
          (Ok (VString cs), mkSocket o rest c b f)).
Proof.
  intros key_lt cs H. split; [|split; [|split]].
  - intros s. now apply SharedWire.string_write.
  - reflexivity.
  - intros d o rest c b f Hd. rewrite SharedWire.string_wire by exact H.
    apply (RoundTrip.read_wire key_lt); [reflexivity | | exact Hd].
    cbn [wf]. rewrite SharedWire.len_map. cbn [sizeof sizeof_prim].
    rewrite N.mul_1_l. apply N.ltb_lt in H. rewrite H. cbn [andb].
    apply (SharedWire.wf_chars key_lt).
  - intros d o rest c b f. rewrite <- SharedWire.string_wire by exact H.
    change (read key_lt SString d) with (read key_lt SString (VString [])).
    apply (RoundTrip.read_wire key_lt); [reflexivity | | reflexivity].
    cbn [wf]. now apply N.ltb_lt.
Qed.

Lemma string_written_as_vector_of_char_witness :
  read unsigned_lt SString (VString [])
    (mkSocket [] (wire (SVector (SPrim Tchar)) (VVector (map char_value [x68; x69])) ++ [xff])
       false true false) =
  (Ok (VString [x68; x69]), mkSocket [] [xff] false true false).
Proof.
  apply (proj2 (proj2 (proj2 (string_written_as_vector_of_char unsigned_lt [x68; x69]
                                ltac:(vm_compute; reflexivity))))).
Defined.

(** X3. What [sendString] writes for a string, [recvString] reads back as
    that string, leaving what follows: the 8-byte length, then the bytes. *)
Theorem sendString_recvString :
  forall x o i c b o' rest c' b' f',
    (len (list_byte_of_string x) < size_max)%N ->
    exists w,
      sendString x (mkSocket o i c b false) = (Ok tt, mkSocket (o ++ w) i c b false) /\
      recvString (mkSocket o' (w ++ rest) c' b' f') = (Ok x, mkSocket o' rest c' b' f').
Proof.
  intros x o i c b o' rest c' b' f' H.
  exists (le_encode 8 (len (list_byte_of_string x)) ++ list_byte_of_string x). split.
  - apply Handshake.sendString_ok.
  - rewrite <- app_assoc, Handshake.recvString_ok by exact H.
    now rewrite string_of_list_byte_of_string.
Qed.

Lemma sendString_recvString_witness :
  exists w,
    sendString "id" (mkSocket [] [] false true false) =
    (Ok tt, mkSocket ([] ++ w) [] false true false) /\
    recvString (mkSocket [] (w ++ [xff]) false true false) =
    (Ok "id"%string, mkSocket [] [xff] false true false).
Proof.
  apply (sendString_recvString "id" [] [] false true [] [xff] false true false).
  vm_compute; reflexivity.
Defined.

(** X4. A synchronous call returns the value the peer encoded: with the
    bytes that [write] sends for a result [v] at hand, the call writes its
    request, reads exactly those bytes and returns [v]; what follows them
    stays in the socket for the next call. *)
Theorem RPCFunc_call_returns_reply :
  forall key_lt exprid Args R args v,
    wf_seq key_lt Args args = true ->
    narrow_vectors R = true -> wf key_lt R v = true ->
    (forall o i c b,
        write R v (mkSocket o i c b false) = (Ok tt, mkSocket (o ++ wire R v) i c b false))
    /\ (forall o rest c b,
          RPCFunc_call key_lt exprid Args R args (mkSocket o (wire R v ++ rest) c b false) =
          (Ok v,
           mkSocket (o ++ [x02] ++ le_encode 4 exprid ++ wire (STuple Args) (VTuple args))
             rest c b false)).
Proof.
  intros key_lt exprid Args R args v Ha Hn Hv. split.
  - intros o i c b. now apply (WriteFacts.write_wire key_lt).
  - intros o rest c b.
    rewrite (proj1 (CallFacts.call_frame key_lt exprid Args args o (wire R v ++ rest) c b Ha)).
    apply RoundTrip.read_wire; auto. apply (proj1 ReadFacts.dest_default).
Qed.

Lemma RPCFunc_call_returns_reply_witness :
  RPCFunc_call unsigned_lt 3 (SCons SString SNil) (SVector (SPrim Tuint8))
    [VString [x68; x69]]
    (mkSocket [] (wire (SVector (SPrim Tuint8)) (VVector [VPrim [x01]; VPrim [x02]]) ++ [xff])
       false true false) =
  (Ok (VVector [VPrim [x01]; VPrim [x02]]),
   mkSocket ([] ++ [x02] ++ le_encode 4 3
               ++ wire (STuple (SCons SString SNil)) (VTuple [VString [x68; x69]]))
     [xff] false true false).
Proof.
  apply (proj2 (RPCFunc_call_returns_reply unsigned_lt 3 (SCons SString SNil)
                  (SVector (SPrim Tuint8)) [VString [x68; x69]]
                  (VVector [VPrim [x01]; VPrim [x02]])
                  ltac:(vm_compute; reflexivity) ltac:(vm_compute; reflexivity)
                  ltac:(vm_compute; reflexivity))).
Defined.

(* ================================================================== *)
(** * The encoding is cut in one way only *)

Module Cut.
Import WriteFacts ReadFacts.

Lemma app_cut {A} (a b r r' : list A) :
  length a = length b -> a ++ r = b ++ r' -> a = b /\ r = r'.
Proof.
  revert b. induction a as [|x a IH]; intros [|y b] Hl E; try discriminate.
  - now split.
  - cbn in Hl, E. injection E as -> E. destruct (IH b) as [-> ->]; [lia | exact E | now split].
Qed.

Lemma scalar_cut w x y r r' :
  is_scalar w x = true -> is_scalar w y = true ->
  mem_of x ++ r = mem_of y ++ r' -> x = y /\ r = r'.
Proof.
  intros Hx Hy E.
  destruct (is_scalar_inv _ _ Hx) as (m & -> & Hm).
  destruct (is_scalar_inv _ _ Hy) as (m' & -> & Hm').
  cbn [mem_of] in E. destruct (app_cut m m' r r') as [-> ->]; [lia | exact E | now split].
Qed.

Lemma size_cut n n' r r' :
  (n < size_max)%N -> (n' < size_max)%N ->
  le_encode 8 n ++ r = le_encode 8 n' ++ r' -> n = n' /\ r = r'.
Proof.
  intros Hn Hn' E.
  destruct (app_cut _ _ _ _ (eq_trans (le_encode_length 8 n) (eq_sym (le_encode_length 8 n'))) E)
    as [E1 E2].
  split; [|exact E2].
  rewrite <- (le_decode_encode_small 8 n), <- (le_decode_encode_small 8 n'), E1 by assumption.
  reflexivity.
Qed.

(** Lists of as many pieces, each of which is cut in one way only. *)
Lemma concat_cut {A} (g : A -> list byte) (ok : A -> bool) :
  (forall a b r r', ok a = true -> ok b = true -> g a ++ r = g b ++ r' -> a = b /\ r = r') ->
  forall xs ys r r',
    length xs = length ys -> forallb ok xs = true -> forallb ok ys = true ->
    concat (map g xs) ++ r = concat (map g ys) ++ r' -> xs = ys /\ r = r'.
Proof.
  intros Hg. induction xs as [|x xs IH]; intros [|y ys] r r' Hl Hx Hy E; try discriminate.
  - now split.
  - cbn [forallb map concat] in *. bool_hyps. rewrite <- !app_assoc in E.
    destruct (Hg x y _ _ ltac:(assumption) ltac:(assumption) E) as [-> E'].
    destruct (IH ys r r') as [-> ->]; auto.
Qed.

Section Shapes.
Variable key_lt : shape -> value -> value -> bool.

Local Abbreviation cut_one T :=
  (forall x y r r',
     wf key_lt T x = true -> wf key_lt T y = true ->
     wire T x ++ r = wire T y ++ r' -> x = y /\ r = r').

Lemma flat_cut T xs ys r r' :
  can_memcpy T = true -> length xs = length ys ->
  forallb (wf key_lt T) xs = true -> forallb (wf key_lt T) ys = true ->
  flat_mem xs ++ r = flat_mem ys ++ r' -> xs = ys /\ r = r'.
Proof.
  intros Hc Hl Hx Hy E.
  apply (concat_cut mem_of (is_scalar (sizeof T))); auto.
  - intros a b. apply scalar_cut.
  - eapply forallb_impl; [|exact Hx]. now apply memcpy_wf_scalar.
  - eapply forallb_impl; [|exact Hy]. now apply memcpy_wf_scalar.
Qed.

Lemma flat_all T xs n :
  can_memcpy T = true -> forallb (wf key_lt T) xs = true ->
  len xs = n -> (N.of_nat (sizeof T) * n < size_max)%N ->
  take (size_mul (N.of_nat (sizeof T)) n) (flat_mem xs) = flat_mem xs.
Proof.
  intros Hc Hx Hl Hb. unfold take, size_mul. rewrite N.mod_small by exact Hb.
  apply firstn_all2. rewrite (flat_mem_length (sizeof T)).
  - unfold len in Hl. lia.
  - eapply forallb_impl; [|exact Hx]. now apply memcpy_wf_scalar.
Qed.

Lemma variant_cut cs :
  (forall n x y r r',
      wf_nth key_lt cs n x = true -> wf_nth key_lt cs n y = true ->
      wire_nth cs n x ++ r = wire_nth cs n y ++ r' -> x = y /\ r = r') ->
  forall x y r r',
    wf key_lt (SVariant cs) x = true -> wf key_lt (SVariant cs) y = true ->
    wire (SVariant cs) x ++ r = wire (SVariant cs) y ++ r' -> x = y /\ r = r'.
Proof.
  intros IH x y r r' Hx Hy E.
  destruct x as [| |t p| | | | | |], y as [| |t' p'| | | | | |]; try discriminate.
  cbn [wf wire] in *. bool_props. rewrite <- !app_assoc in E.
  destruct (app_cut _ _ _ _
              (eq_trans (le_encode_length 4 t) (eq_sym (le_encode_length 4 t'))) E) as [E1 E2].
  assert (t = t').
  { rewrite <- (le_decode_encode_small 4 t), <- (le_decode_encode_small 4 t'), E1;
      [reflexivity | cbn; lia | cbn; lia]. }
  subst t'. destruct (IH (N.to_nat t) p p' r r') as [-> ->]; auto.
Qed.

Lemma cut_all :
  (forall T, cut_one T) /\
  (forall fs,
     (forall n x y r r',
        wf_nth key_lt fs n x = true -> wf_nth key_lt fs n y = true ->
        wire_nth fs n x ++ r = wire_nth fs n y ++ r' -> x = y /\ r = r') /\
     (forall xs ys r r',
        wf_seq key_lt fs xs = true -> wf_seq key_lt fs ys = true ->
        wire_seq fs xs ++ r = wire_seq fs ys ++ r' -> xs = ys /\ r = r')).
Proof.
  apply shape_shapes_ind.
  - (* SPrim *) intros p x y r r' Hx Hy E. exact (scalar_cut _ _ _ _ _ Hx Hy E).
  - (* SUnit *) intros x y r r' Hx Hy E. destruct x, y; try discriminate. now split.
  - (* SEnum *) intros rep meta x y r r' Hx Hy E. exact (scalar_cut _ _ _ _ _ Hx Hy E).
  - (* SVariant *) intros cs [IH _]. now apply variant_cut.
  - (* SNamedVariant *) intros ctors cs [IH _]. exact (variant_cut cs IH).
  - (* SPair *) intros U IHU V IHV x y r r' Hx Hy E.
    destruct x as [| | |a1 b1| | | | |], y as [| | |a2 b2| | | | |]; try discriminate.
    cbn [wf wire] in *. bool_hyps.
    rewrite <- !app_assoc in E.
    destruct (IHU a1 a2 _ _ ltac:(assumption) ltac:(assumption) E) as [-> E'].
    destruct (IHV b1 b2 r r') as [-> ->]; auto.
  - (* SArray *) intros T IH n x y r r' Hx Hy E.
    destruct x as [| | | |xs| | | |], y as [| | | |ys| | | |]; try discriminate.
    cbn [wf wire] in *. bool_hyps.
    repeat match goal with H : (_ =? _)%N = true |- _ => apply N.eqb_eq in H end.
    repeat match goal with H : (_ <? _)%N = true |- _ => apply N.ltb_lt in H end.
    assert (Hl : length xs = length ys) by (unfold len in *; lia).
    destruct (can_memcpy T) eqn:Hc.
    + rewrite !flat_all in E by assumption.
      destruct (flat_cut T xs ys r r') as [-> ->]; auto.
    + destruct (concat_cut (wire T) (wf key_lt T) IH xs ys r r') as [-> ->]; auto.
  - (* SVector *) intros T IH x y r r' Hx Hy E.
    destruct x as [| | | | |xs| | |], y as [| | | | |ys| | |]; try discriminate.
    cbn [wf wire] in *. bool_hyps.
    repeat match goal with H : (_ <? _)%N = true |- _ => apply N.ltb_lt in H end.
    rewrite <- !app_assoc in E.
    destruct (size_cut (len xs) (len ys) _ _ ltac:(assumption) ltac:(assumption) E) as [El E'].
    assert (Hl : length xs = length ys) by (unfold len in El; lia).
    destruct (can_memcpy T) eqn:Hc.
    + rewrite <- El in E'. destruct (N.ltb_spec 0 (len xs)) as [Hp|Hp].
      * rewrite (flat_all T xs), (flat_all T ys) in E' by (auto; congruence).
        destruct (flat_cut T xs ys r r') as [-> ->]; auto.
      * destruct xs, ys; try discriminate; [|unfold len in Hp; cbn in Hp; lia].
        cbn in E'. now subst.
    + destruct (concat_cut (wire T) (wf key_lt T) IH xs ys r r') as [-> ->]; auto.
  - (* SMap *) intros K IHK T IHT x y r r' Hx Hy E.
    destruct x as [| | | | | |xs| |], y as [| | | | | |ys| |]; try discriminate.
    cbn [wf wire] in *. bool_hyps.
    repeat match goal with H : (_ <? _)%N = true |- _ => apply N.ltb_lt in H end.
    rewrite <- !app_assoc in E.
    destruct (size_cut (len xs) (len ys) _ _ ltac:(assumption) ltac:(assumption) E) as [El E'].
    assert (Hl : length xs = length ys) by (unfold len in El; lia).
    destruct (concat_cut
                (fun xp : value * value => wire K (fst xp) ++ wire T (snd xp))
                (fun xp : value * value => wf key_lt K (fst xp) && wf key_lt T (snd xp))%bool)
      with (xs := xs) (ys := ys) (r := r) (r' := r') as [-> ->]; auto.
    intros [k t] [k' t'] q q' Ha Hb Eq. cbn [fst snd] in *. bool_hyps.
    rewrite <- !app_assoc in Eq.
    destruct (IHK k k' _ _ ltac:(assumption) ltac:(assumption) Eq) as [-> Eq'].
    destruct (IHT t t' q q') as [-> ->]; auto.
  - (* SString *) intros x y r r' Hx Hy E.
    destruct x as [| | | | | | |cs|], y as [| | | | | | |cs0|]; try discriminate.
    cbn [wf wire] in *.
    apply N.ltb_lt in Hx, Hy. rewrite <- !app_assoc in E.
    destruct (size_cut _ _ _ _ Hx Hy E) as [El E'].
    destruct (app_cut cs cs0 r r') as [-> ->]; [unfold len in El; lia | exact E' | now split].
  - (* STuple *) intros fs [_ IH] x y r r' Hx Hy E.
    destruct x, y; try discriminate. cbn [wf wire] in *.
    destruct (IH _ _ _ _ Hx Hy E) as [-> ->]. now split.
  - (* SStruct *) intros names fs [_ IH] x y r r' Hx Hy E.
    destruct x, y; try discriminate. cbn [wf wire] in *.
    destruct (IH _ _ _ _ Hx Hy E) as [-> ->]. now split.
  - (* SAlias *) intros name RT IH x y r r' Hx Hy E. cbn [wf wire] in *. now apply IH.
  - (* SNil *) split.
    + intros n x y r r' Hx. discriminate.
    + intros [|] [|] r r' Hx Hy E; try discriminate. now split.
  - (* SCons *) intros h IHh t [IHn IHs]. split.
    + intros [|n] x y r r' Hx Hy E; cbn [wf_nth wire_nth] in *; [now apply IHh | now apply (IHn n)].
    + intros [|x xs] [|y ys] r r' Hx Hy E; try discriminate.
      cbn [wf_seq wire_seq] in *. bool_hyps. rewrite <- !app_assoc in E.
      destruct (IHh x y _ _ ltac:(assumption) ltac:(assumption) E) as [-> E'].
      destruct (IHs xs ys r r') as [-> ->]; auto.
Qed.

End Shapes.
End Cut.

(** X5. No two objects of a shape are written as the same bytes: if [write]
    does the same to a socket for [x] and for [y], then [x = y], whatever
    the shape. The encoding is also self-delimiting: no encoding is a proper
    prefix of another, so a sequence of encodings is cut in one way only. *)
Theorem write_injective :
  forall key_lt T x y,
    wf key_lt T x = true -> wf key_lt T y = true ->
    (forall o i c b,
       write T x (mkSocket o i c b false) = write T y (mkSocket o i c b false) -> x = y)
    /\ (forall r r', wire T x ++ r = wire T y ++ r' -> x = y /\ r = r').
Proof.
  intros key_lt T x y Hx Hy.
  assert (Hcut : forall r r', wire T x ++ r = wire T y ++ r' -> x = y /\ r = r').
  { intros r r'. now apply (proj1 (Cut.cut_all key_lt)). }
  split; [|exact Hcut].
  intros o i c b E.
  rewrite !(WriteFacts.write_wire key_lt) in E by assumption.
  injection E as E. apply app_inv_head in E.
  apply (Hcut [] []). now rewrite E.
Qed.

Lemma write_injective_witness :
  let T := SPair (SVector (SPrim Tint32)) SUnit in
  let x := VPair (VVector [VPrim [x04; x03; x02; x01]]) VUnit in
  x = x /\ [xff] = [xff].
Proof.
  intros T x.
  apply (proj2 (write_injective unsigned_lt T x x
                  ltac:(vm_compute; reflexivity) ltac:(vm_compute; reflexivity))
           [xff] [xff]).
  reflexivity.
Defined.

(* ================================================================== *)
(** * Readers on a session the peer has closed *)

Module Closed.
Import WriteFacts ReadFacts Resume.

Section Shapes.
Variable key_lt : shape -> value -> value -> bool.

(** Called on a prepared state when the peer has closed and nothing is left
    to read, the reader of [T] throws. *)
Local Abbreviation closes T :=
  (forall d o0 out bl fl,
    dest T d = true ->
    accum key_lt T (prepare T o0) d (mkSocket out [] true bl fl)
    = (Err EClosed, mkSocket out [] true bl fl)).

Lemma closes_all :
  (forall T, steady T = true -> closes T) /\
  (forall fs, steady_all fs = true -> forall T, nth_shape fs 0 = Some T -> closes T).
Proof.
  apply shape_shapes_ind; cbn [steady steady_all].
  - (* SPrim *) intros p _ d o0 out bl fl Hd. reflexivity.
  - (* SUnit *) discriminate.
  - (* SEnum *) intros rep meta _ d o0 out bl fl Hd. reflexivity.
  - (* SVariant *) intros cs _ _ d o0 out bl fl Hd.
    destruct d as [| |tag payload| | | | | |]; try discriminate. reflexivity.
  - (* SNamedVariant *) intros ctors cs _ _ d o0 out bl fl Hd.
    destruct d as [| |tag payload| | | | | |]; try discriminate. reflexivity.
  - (* SPair *) intros U IHU V _ Hs d o0 out bl fl Hd. bool_hyps.
    destruct d as [| | |da db| | | | |]; try discriminate.
    cbn [dest] in Hd. bool_hyps.
    cbn [prepare accum]. unfold bind. now rewrite IHU.
  - (* SArray *) intros T IH n Hs d o0 out bl fl Hd. bool_props.
    destruct d as [| | | |ds| | | |]; try discriminate.
    cbn [dest] in Hd. bool_props.
    cbn [prepare accum]. destruct (can_memcpy T) eqn:Hc; [reflexivity|].
    destruct ds as [|d0 ds]; [lenlia|]. cbn [forallb] in *. bool_hyps.
    cbn [N.to_nat nth_error]. unfold bind. now rewrite IH.
  - (* SVector *) intros T _ Hs d o0 out bl fl Hd.
    destruct d as [| | | | |ds| | |]; try discriminate.
    cbn [prepare accum]. destruct (can_memcpy T); reflexivity.
  - (* SMap *) intros K _ T _ Hs d o0 out bl fl Hd.
    destruct d as [| | | | | |m| |]; try discriminate. reflexivity.
  - (* SString *) intros _ d o0 out bl fl Hd.
    destruct d as [| | | | | | |cs|]; try discriminate. reflexivity.
  - (* STuple *) intros fs IH Hs d o0 out bl fl Hd. bool_props.
    destruct d as [| | | | | | | |ds]; try discriminate. cbn [dest] in Hd.
    destruct fs as [|h t]; [cbn in *; lia|].
    destruct ds as [|d0 ds]; [discriminate|]. cbn [dest_seq] in Hd. bool_hyps.
    cbn [prepare prepare_nth accum accum_field N.to_nat]. unfold bind.
    now rewrite (IH ltac:(assumption) h eq_refl).
  - (* SStruct *) intros names fs IH Hs d o0 out bl fl Hd. bool_props.
    destruct d as [| | | | | | | |ds]; try discriminate. cbn [dest] in Hd.
    destruct fs as [|h t]; [cbn in *; lia|].
    destruct ds as [|d0 ds]; [discriminate|]. cbn [dest_seq] in Hd. bool_hyps.
    cbn [prepare prepare_nth accum accum_field N.to_nat]. unfold bind.
    now rewrite (IH ltac:(assumption) h eq_refl).
  - (* SAlias *) intros name RT IH Hs. exact (IH Hs).
  - (* SNil *) intros _ T H. discriminate.
  - (* SCons *) intros h IHh t _ Hs T H. bool_hyps. cbn in H. injection H as <-.
    now apply IHh.
Qed.

End Shapes.
End Closed.

(** X6. When the peer has closed the session and nothing is left to read,
    the resumable reader of a steady shape (nothing in it is written as
    zero bytes, no map sits inside the key or the value of a map) throws
    "Remote process closed session prematurely" from its prepared state,
    leaving the socket as it is, and so does [step] of a client with a
    request pending whose results are of such shapes. With no request
    pending, [step] returns the client as it is without touching the
    socket. *)
Theorem step_on_closed_session :
  forall key_lt,
    (forall T d o0 out bl fl,
        steady T = true -> dest T d = true ->
        accum key_lt T (prepare T o0) d (mkSocket out [] true bl fl)
        = (Err EClosed, mkSocket out [] true bl fl))
    /\ (forall c i k pq out bl fl,
          in_step c ((i, k) :: pq) -> ready c ->
          step key_lt c (mkSocket out [] true bl fl)
          = (Err EClosed, mkSocket out [] true bl fl))
    /\ (forall c s, asyncReaders c = [] -> step key_lt c s = (Ok c, s)).
Proof.
  intros key_lt. split; [|split].
  - intros T d o0 out bl fl Hs Hd. now apply (proj1 (Closed.closes_all key_lt)).
  - intros c i k pq out bl fl Hin Hr.
    destruct (Pipeline.in_step_head _ _ _ _ Hin) as (Args & R & e & ks & r & pr & Hi & Hq).
    assert (Hrs : ready_stub (AsyncFn Args R e (k :: ks) r pr)).
    { unfold ready in Hr. rewrite Forall_forall in Hr. apply Hr.
      eapply nth_error_In; eauto. }
    destruct Hrs as (Hs & Hd & o & -> & Ho).
    unfold step. rewrite Hq. cbn [step_loop]. unfold bind, readAndFinish. rewrite Hi.
    unfold bind. now rewrite (proj1 (Closed.closes_all key_lt) R Hs).
  - intros c s Hq. unfold step. now rewrite Hq.
Qed.

Lemma step_on_closed_session_witness :
  let f := AsyncFn SNil (SVector (SPrim Tint32)) 1 [7%nat]
             (default_value (SVector (SPrim Tint32)))
             (prepare (SVector (SPrim Tint32)) RFresh) in
  step unsigned_lt (mkAsyncClient [f] [0%nat] []) (mkSocket [] [] true false false)
  = (Err EClosed, mkSocket [] [] true false false).
Proof.
  intros f.
  apply (proj1 (proj2 (step_on_closed_session unsigned_lt))
           (mkAsyncClient [f] [0%nat] []) 0%nat 7%nat [] [] false false).
  - split; [reflexivity|]. intros [|[|i]]; reflexivity.
  - repeat constructor. exists RFresh. split; reflexivity.
Defined.

(** X7. The number of pending requests is the number of calls with a
    result issued less the number of continuations invoked: through every
    run of calls, steps and arrivals of bytes that returns,
    [pendingRequests() + #invoked] grows by the number of calls issued. *)
Theorem pendingRequests_accounting :
  forall key_lt ops c pq s c' s',
    in_step c pq ->
    run_ops key_lt ops c s = (Ok c', s') ->
    (pendingRequests c' + len (fired c') =
     pendingRequests c + len (fired c) + len (issued ops))%N.
Proof.
  intros key_lt ops c pq s c' s' Hin Hrun.
  destruct (Pipeline.run_ops_in_step key_lt ops c pq s c' s' Hin Hrun) as (pq' & Hin' & E).
  apply (f_equal (@length K)) in E. rewrite !length_app, !length_map in E.
  unfold pendingRequests, len. rewrite <- (proj1 Hin), <- (proj1 Hin'), !length_map. lia.
Qed.

Lemma pendingRequests_accounting_witness :
  let f := newAsyncFn (SCons (SPrim Tint32) SNil) (SPrim Tint32) 1 in
  let cl := mkAsyncClient [f] [] [] in
  let seven := VPrim [x07; x00; x00; x00] in
  let ops := [OpCall 0 [seven] 10%nat; OpCall 0 [seven] 11%nat;
              OpArrive [x01; x00; x00; x00]; OpStep] in
  let r := run_ops unsigned_lt ops cl (mkSocket [] [] false true false) in
  let c' := match fst r with Ok c' => c' | Err _ => cl end in
  (pendingRequests c' + len (fired c') =
   pendingRequests cl + len (fired cl) + len (issued ops))%N.
Proof.
  intros f cl seven ops r c'.
  apply (pendingRequests_accounting unsigned_lt ops cl [] (mkSocket [] [] false true false)
           c' (snd r)).
  - split; [reflexivity|]. intros [|[|i]]; reflexivity.
  - vm_compute; reflexivity.
Defined.

(** X8. Calls made when nothing has arrived do no harm to the reader of a
    steady shape (nothing in it is written as zero bytes, no map sits inside
    the key or the value of a map): called on its prepared state with
    nothing to read, it returns [false] and reads nothing; fed afterwards
    the bytes of an object one at a time, it reads the object as if the call
    had not been made. *)
Theorem accum_without_data :
  forall key_lt T x d o0 out fl,
    steady T = true -> wf key_lt T x = true -> dest T d = true -> state_ok T o0 = true ->
    exists o1 d1 o',
      accum key_lt T (prepare T o0) d (mkSocket out [] false false fl)
      = (Ok (false, o1, d1), mkSocket out [] false false fl)
      /\ drive (accum key_lt T) (wire T x) o1 d1 (mkSocket out [] false false fl)
         = (Ok (repeat false (length (wire T x) - 1) ++ [true], o', x),
            mkSocket out [] false false fl).
Proof.
  intros key_lt T x d o0 out fl Hs Hx Hd Ho.
  destruct (proj1 (Resume.idles_all key_lt) T Hs x d o0 out fl Hx Hd Ho)
    as (o1 & d1 & E & So & Dd & _).
  destruct (Resume.resume_wire key_lt T x d1 o1 out false false fl Hs Hx Dd So) as (o' & D).
  exists (prepare T o1), d1, o'. now split.
Qed.

Lemma accum_without_data_witness :
  let T := SPair (SVector (SPrim Tint32)) SString in
  let x := VPair (VVector [VPrim [x04; x03; x02; x01]]) (VString [x68; x69]) in
  exists o1 d1 o',
    accum unsigned_lt T (prepare T RFresh) (default_value T) (mkSocket [] [] false false false)
    = (Ok (false, o1, d1), mkSocket [] [] false false false)
    /\ drive (accum unsigned_lt T) (wire T x) o1 d1 (mkSocket [] [] false false false)
       = (Ok (repeat false (length (wire T x) - 1) ++ [true], o', x),
          mkSocket [] [] false false false).
Proof.
  intros T x.
  apply (accum_without_data unsigned_lt T x (default_value T) RFresh [] false);
    vm_compute; reflexivity.
Defined.

(** X9. For a client whose results are of steady shapes (nothing written
    as zero bytes, no map inside the key or the value of a map), [step]
    called any number of times before the replies arrive
    invokes nothing and gives nothing up: the replies fed afterwards, a byte
    at a time with a [step] after each, are handed to the continuations of
    the pending calls in issue order. *)
Theorem step_without_data :
  forall key_lt n c pq vs out fl,
    in_step c pq -> ready c -> answers key_lt (stubs c) pq vs = true ->
    exists c1 c2,
      run_ops key_lt (repeat OpStep n) c (mkSocket out [] false false fl)
      = (Ok c1, mkSocket out [] false false fl)
      /\ fired c1 = fired c /\ pendingRequests c1 = pendingRequests c
      /\ run_ops key_lt (feed (reply_wire (stubs c) pq vs)) c1 (mkSocket out [] false false fl)
         = (Ok c2, mkSocket out [] false false fl)
      /\ fired c2 = fired c ++ combine (map snd pq) vs
      /\ pendingRequests c2 = 0%N.
Proof.
  intros key_lt n. induction n as [|n IH]; intros c pq vs out fl Hin Hr Ha.
  - destruct (Pipeline.replies_delivered key_lt pq c vs out fl Hin Hr Ha)
      as (c2 & E & Hf & Hq & _).
    exists c, c2. repeat split; auto. unfold pendingRequests. now rewrite Hq.
  - destruct (Pipeline.step_idle key_lt c pq vs out fl Hin Hr Ha)
      as (c0 & E0 & Hin0 & Hr0 & Hf0 & Hsig).
    assert (Ha0 : answers key_lt (stubs c0) pq vs = true)
      by (rewrite (Pipeline.answers_ext key_lt _ _ Hsig); exact Ha).
    destruct (IH c0 pq vs out fl Hin0 Hr0 Ha0) as (c1 & c2 & E1 & Hf1 & Hp1 & E2 & Hf2 & Hp2).
    exists c1, c2. cbn [repeat run_ops run_op]. unfold bind. rewrite E0.
    rewrite (Pipeline.reply_wire_ext _ _ Hsig) in E2. rewrite Hf0 in *.
    repeat split; auto.
    rewrite Hp1. unfold pendingRequests. now rewrite <- (proj1 Hin0), <- (proj1 Hin).
Qed.

Lemma step_without_data_witness :
  let f := newAsyncFn (SCons (SPrim Tint32) SNil) (SPrim Tint32) 1 in
  let cl := mkAsyncClient [AsyncFn (SCons (SPrim Tint32) SNil) (SPrim Tint32) 1 [10%nat]
                             (default_value (SPrim Tint32)) (RCount 0)] [0%nat] [] in
  exists c1 c2,
    run_ops unsigned_lt (repeat OpStep 3) cl (mkSocket [] [] false false false)
    = (Ok c1, mkSocket [] [] false false false)
    /\ fired c1 = fired cl /\ pendingRequests c1 = pendingRequests cl
    /\ run_ops unsigned_lt
         (feed (reply_wire (stubs cl) [(0%nat, 10%nat)] [VPrim [x01; x00; x00; x00]]))
         c1 (mkSocket [] [] false false false)
       = (Ok c2, mkSocket [] [] false false false)
    /\ fired c2 = fired cl ++ combine (map snd [(0%nat, 10%nat)]) [VPrim [x01; x00; x00; x00]]
    /\ pendingRequests c2 = 0%N.
Proof.
  intros f cl.
  apply (step_without_data unsigned_lt 3 cl [(0%nat, 10%nat)] [VPrim [x01; x00; x00; x00]]
           [] false).
  - split; [reflexivity|]. intros [|[|i]]; reflexivity.
  - repeat constructor. exists RFresh. split; reflexivity.
  - vm_compute; reflexivity.
Defined.

(* ================================================================== *)
(** * The generated clients *)

Module Clients.
Import WriteFacts ReadFacts Resume.

Section Defs.
Variable encoding : desc -> list byte.

Lemma makeRPCDefs_nth C : forall k0 k c,
  nth_error C k = Some c ->
  nth_error (makeRPCDefs_from encoding k0 C) k =
  Some (makeRPCDef encoding (exprID (k0 + k)) (cmd_expr c) (cmd_result c) (cmd_args c)).
Proof.
  induction C as [|c0 C IH]; intros k0 [|k] c H; try discriminate; cbn in *.
  - injection H as ->. now rewrite Nat.add_0_r.
  - rewrite (IH (S k0) k c H). now rewrite Nat.add_succ_r.
Qed.

Lemma async_stubs_nth C : forall k0 k c,
  nth_error C k = Some c ->
  nth_error (async_stubs_from k0 C) k = Some (async_stub (k0 + k) c).
Proof.
  induction C as [|c0 C IH]; intros k0 [|k] c H; try discriminate; cbn in *.
  - injection H as ->. now rewrite Nat.add_0_r.
  - rewrite (IH (S k0) k c H). now rewrite Nat.add_succ_r.
Qed.

Lemma makeRPCDefs_ids C : forall k0,
  map id (makeRPCDefs_from encoding k0 C) = map exprID (seq k0 (length C)).
Proof. induction C as [|c C IH]; intros k0; [reflexivity|]. cbn. now rewrite IH. Qed.

Lemma makeRPCDefs_length C : forall k0, length (makeRPCDefs_from encoding k0 C) = length C.
Proof. induction C as [|c C IH]; intros k0; [reflexivity|]. cbn. now rewrite IH. Qed.

Lemma exprID_inj a b : exprID a = exprID b -> a = b.
Proof. unfold exprID. lia. Qed.

Lemma exprID_NoDup l : NoDup l -> NoDup (map exprID l).
Proof.
  induction 1 as [|a l Ha _ IH]; cbn; constructor; [|exact IH].
  intros H. apply in_map_iff in H. destruct H as (b & E & Hb).
  apply exprID_inj in E. now subst.
Qed.

Lemma initSession_accepted ds acks rest o c b :
  length acks = length ds -> Forall (fun y => y <> x00) acks ->
  initSession ds (mkSocket o (acks ++ rest) c b false) =
  (Ok tt, mkSocket (o ++ version_word ++ declarations ds) rest c b false).
Proof.
  intros Hl Hnz. unfold initSession, bind. rewrite sendData_ok.
  rewrite <- (app_nil_r ds) at 1.
  rewrite (Handshake.defineAll_accepted ds acks rest _ c b Hl Hnz []).
  cbn [defineAll]. unfold ret. now rewrite <- app_assoc.
Qed.

End Defs.
End Clients.

(** X10. The client made from a list of commands declares one RPC for each,
    numbered from 1 in the order of the list: the ids are all different and
    none is [NullExpr]; the member made for a command invokes with the id
    under which the command's expression is declared. On a peer that accepts
    every definition, the constructor writes the version word and the
    declarations, reads one byte for each, and leaves a client with no
    request pending. *)
Theorem client_ids_match_declarations :
  forall encoding C,
    (forall k c,
        nth_error C k = Some c ->
        nth_error (makeRPCDefs encoding C) k =
        Some (makeRPCDef encoding (exprID k) (cmd_expr c) (cmd_result c) (cmd_args c))
        /\ nth_error (async_stubs_from 0 C) k = Some (async_stub k c))
    /\ NoDup (map id (makeRPCDefs encoding C))
    /\ ~ In NullExpr (map id (makeRPCDefs encoding C))
    /\ (forall acks rest o c b,
          length acks = length C -> Forall (fun y => y <> x00) acks ->
          AsyncClient_new encoding C (mkSocket o (acks ++ rest) c b false) =
          (Ok (mkAsyncClient (async_stubs_from 0 C) [] []),
           mkSocket (o ++ version_word ++ declarations (makeRPCDefs encoding C)) rest c b false)).
Proof.
  intros encoding C. split; [|split; [|split]].
  - intros k c H. split.
    + exact (Clients.makeRPCDefs_nth encoding C 0 k c H).
    + exact (Clients.async_stubs_nth C 0 k c H).
  - unfold makeRPCDefs. rewrite Clients.makeRPCDefs_ids.
    apply Clients.exprID_NoDup, seq_NoDup.
  - unfold makeRPCDefs. rewrite Clients.makeRPCDefs_ids. intros H.
    apply in_map_iff in H. destruct H as (k & E & _). unfold exprID, NullExpr in E. lia.
  - intros acks rest o c b Hl Hnz. unfold AsyncClient_new, bind.
    rewrite Clients.initSession_accepted; [reflexivity | | exact Hnz].
    unfold makeRPCDefs. now rewrite Clients.makeRPCDefs_length.
Qed.

Lemma client_ids_match_declarations_witness :
  let C := [mkCommand (Some (SPrim Tint32)) (SCons (SPrim Tint32) SNil) "inc";
            mkCommand None (SCons SString SNil) "log"] in
  let encoding := fun _ : desc => [x2a] in
  AsyncClient_new encoding C (mkSocket [] ([x01; x01] ++ [xff]) false true false) =
  (Ok (mkAsyncClient (async_stubs_from 0 C) [] []),
   mkSocket ([] ++ version_word ++ declarations (makeRPCDefs encoding C)) [xff]
     false true false).
Proof.
  intros C encoding.
  apply (proj2 (proj2 (proj2 (client_ids_match_declarations encoding C)))).
  - reflexivity.
  - repeat constructor; discriminate.
Defined.
(** X11. [closeC], and so [reconnect], empties the queue of readers and
    leaves every stub as it is, the continuations it holds included. On a
    peer that accepts the definitions [reconnect] declares the commands anew
    and no request is pending afterwards; but a call that was pending stays
    at the head of its stub: the reply to the next call through that stub is
    handed to the continuation of the abandoned call, and the continuation of
    the new call stays in the stub, with no request pending. *)
Theorem reconnect_keeps_continuations :
  forall key_lt encoding C c i k0 pq,
    in_step c ((i, k0) :: pq) -> ready c ->
    (forall acks rest o cl b,
        length acks = length C -> Forall (fun y => y <> x00) acks ->
        reconnect encoding C c (mkSocket o (acks ++ rest) cl b false) =
        (Ok (closeC c),
         mkSocket (o ++ version_word ++ declarations (makeRPCDefs encoding C)) rest cl b false))
    /\ pendingRequests (closeC c) = 0%N
    /\ (exists ks, ks_at (stubs (closeC c)) i = k0 :: ks)
    /\ (forall args k R v out b,
          callable key_lt (stubs c) (i, args, k) = true ->
          result_shape (stubs c) i = Some R -> wf key_lt R v = true ->
          exists c',
            run_ops key_lt (OpCall i args k :: feed (wire R v)) (closeC c)
              (mkSocket out [] false b false)
            = (Ok c',
               mkSocket (out ++ invoke_frame (stubs c) (i, args, k)) [] false false false)
            /\ fired c' = fired c ++ [(k0, v)]
            /\ pendingRequests c' = 0%N
            /\ In k (ks_at (stubs c') i)).
Proof.
  intros key_lt encoding C c i k0 pq Hin Hr.
  destruct (Pipeline.in_step_head _ _ _ _ Hin) as (Args & R0 & e & ks & r & pr & Hi & Hq).
  split; [|split; [|split]].
  - intros acks rest o cl b Hl Hnz. unfold reconnect, bind.
    rewrite Clients.initSession_accepted; [reflexivity | | exact Hnz].
    unfold makeRPCDefs. now rewrite Clients.makeRPCDefs_length.
  - reflexivity.
  - exists ks. unfold ks_at. cbn [closeC stubs]. now rewrite Hi.
  - intros args k R v out b Hc HR Hv.
    unfold result_shape, signature in HR. rewrite Hi in HR. injection HR as <-.
    unfold callable, signature in Hc. cbn [fst snd] in Hc. rewrite Hi in Hc.
    assert (Hrs : ready_stub (AsyncFn Args R0 e (k0 :: ks) r pr)).
    { unfold ready in Hr. rewrite Forall_forall in Hr. apply Hr.
      eapply nth_error_In; eauto. }
    destruct Hrs as (Hs & Hd & o & -> & Ho).
    destruct (proj1 (Resume.runs_all key_lt) R0 Hs v r o Hv Hd Ho)
      as (o' & (init & last & o1 & x1 & E & Hquiet & Hlast) & _).
    set (fs1 := set_nth (stubs c) i (AsyncFn Args R0 e ((k0 :: ks) ++ [k]) r (prepare R0 o))).
    assert (Hi1 : nth_error fs1 i = Some (AsyncFn Args R0 e (k0 :: ks ++ [k]) r (prepare R0 o)))
      by (unfold fs1; rewrite Pipeline.nth_error_set_nth, Nat.eqb_refl, Hi; reflexivity).
    cbn [run_ops run_op]. unfold bind at 1.
    rewrite (Pipeline.async_call_ok key_lt i args k (closeC c) Args R0 e (k0 :: ks) r
               (prepare R0 o) out [] false b Hi Hc).
    cbn [closeC stubs asyncReaders fired app]. fold fs1.
    rewrite E, Pipeline.feed_app, Pipeline.run_ops_app.
    rewrite (Pipeline.feed_quiet key_lt R0 i [] Args e k0 (ks ++ [k]) init _ _ _ _ Hquiet
               fs1 (fired c) _ false Hi1).
    cbn [feed flat_map app run_ops run_op]. unfold bind at 1 2. unfold arrive_all, ret.
    unfold set_inb. cbn [inb outb peer_closed blocking send_fails app]. unfold bind at 1.
    set (fs2 := set_nth fs1 i (AsyncFn Args R0 e (k0 :: ks ++ [k]) x1 o1)).
    assert (Hi2 : nth_error fs2 i = Some (AsyncFn Args R0 e (k0 :: ks ++ [k]) x1 o1))
      by (unfold fs2; rewrite Pipeline.nth_error_set_nth, Nat.eqb_refl, Hi1; reflexivity).
    rewrite (Pipeline.step_head key_lt (mkAsyncClient fs2 [i] (fired c)) i [] Args R0 e k0
               (ks ++ [k]) x1 o1 _ true o' v _ eq_refl Hi2 (Hlast _ false false false)).
    cbn [stubs fired]. unfold step. cbn [asyncReaders step_loop]. unfold ret.
    exists (mkAsyncClient
              (set_nth fs2 i (AsyncFn Args R0 e (ks ++ [k]) (default_value R0) (prepare R0 o')))
              [] (fired c ++ [(k0, v)])).
    split; [|split; [reflexivity|split; [reflexivity|]]].
    + f_equal. f_equal. unfold invoke_frame, signature. cbn [fst snd]. now rewrite Hi.
    + cbn [stubs]. unfold ks_at. rewrite Pipeline.nth_error_set_nth, Nat.eqb_refl, Hi2.
      apply in_or_app. right. now left.
Qed.

Lemma reconnect_keeps_continuations_witness :
  let i32 := SPrim Tint32 in
  let c := mkAsyncClient [AsyncFn (SCons i32 SNil) i32 1 [10%nat] (default_value i32) (RCount 0)]
             [0%nat] [] in
  let seven := VPrim [x07; x00; x00; x00] in
  let one := VPrim [x01; x00; x00; x00] in
  exists c',
    run_ops unsigned_lt (OpCall 0 [seven] 11%nat :: feed (wire i32 one)) (closeC c)
      (mkSocket [] [] false true false)
    = (Ok c',
       mkSocket ([] ++ invoke_frame (stubs c) (0%nat, [seven], 11%nat)) [] false false false)
    /\ fired c' = fired c ++ [(10%nat, one)]
    /\ pendingRequests c' = 0%N
    /\ In 11%nat (ks_at (stubs c') 0).
Proof.
  intros i32 c seven one.
  assert (Hin : in_step c [(0%nat, 10%nat)])
    by (split; [reflexivity | intros [|[|i]]; reflexivity]).
  assert (Hr : ready c) by (repeat constructor; exists RFresh; split; reflexivity).
  apply (proj2 (proj2 (proj2 (reconnect_keeps_continuations unsigned_lt (fun _ => [])
                                [] c 0%nat 10%nat [] Hin Hr)))
           [seven] 11%nat i32 one [] true); vm_compute; reflexivity.
Defined.

(* ================================================================== *)
(** * Connections *)

Module Dial.

Lemma index_colon host : forall rest,
  colon_free host = true ->
  String.index 0 ":" (host ++ String ":" rest) = Some (String.length host).
Proof.
  induction host as [|a host IH]; intros rest H.
  - cbn. now destruct rest.
  - cbn [colon_free] in H. apply andb_prop in H. destruct H as [Ha H].
    apply negb_true_iff, Ascii.eqb_neq in Ha.
    cbn [String.append String.index String.prefix String.length].
    destruct (ascii_dec ":" a) as [<-|_]; [contradiction|]. now rewrite IH.
Qed.

Lemma index_none s : colon_free s = true -> String.index 0 ":" s = None.
Proof.
  induction s as [|a s IH]; intros H; [reflexivity|].
  cbn [colon_free] in H. apply andb_prop in H. destruct H as [Ha H].
  apply negb_true_iff, Ascii.eqb_neq in Ha.
  cbn [String.index String.prefix].
  destruct (ascii_dec ":" a) as [<-|_]; [contradiction|]. now rewrite IH.
Qed.

Lemma substring_all s : forall n, String.length s <= n -> substring 0 n s = s.
Proof.
  induction s as [|a s IH]; intros [|n] H; cbn in *; try reflexivity; try lia.
  now rewrite IH by lia.
Qed.

Lemma substring_head host : forall rest,
  substring 0 (String.length host) (host ++ rest) = host.
Proof.
  induction host as [|a host IH]; intros rest; cbn.
  - now destruct rest.
  - now rewrite IH.
Qed.

Lemma substring_tail host : forall rest n,
  String.length rest <= n ->
  substring (String.length host + 1) n (host ++ String ":" rest) = rest.
Proof.
  induction host as [|a host IH]; intros rest n H; cbn.
  - now apply substring_all.
  - now apply IH.
Qed.

Lemma length_append a : forall b, String.length (a ++ b) = String.length a + String.length b.
Proof. induction a as [|c a IH]; intros b; cbn; [reflexivity|]. now rewrite IH. Qed.

Lemma split_colon s :
  colon_free s = true \/
  exists host port, s = (host ++ String ":" port)%string /\ colon_free host = true.
Proof.
  induction s as [|a s IH]; [now left|].
  destruct (Ascii.eqb a ":") eqn:Ea.
  - apply Ascii.eqb_eq in Ea. subst a. right. now exists EmptyString, s.
  - destruct IH as [H|(host & port & -> & H)].
    + left. cbn. now rewrite Ea, H.
    + right. exists (String a host), port. split; [reflexivity|]. cbn. now rewrite Ea, H.
Qed.

End Dial.

(** X12. [makeConnection(hostport)] cuts its argument at the first colon:
    what is before it is the host, all that follows (further colons
    included) is the port, and the local address is empty; without a colon
    it throws "Failed to determine port". Every string is of one of the two
    kinds. Given a host without a colon and a port number written in decimal
    after it, it connects as [makeConnection(host, port)] does for the
    number. *)
Theorem makeConnection_hostport_splits :
  forall (A : Type) (makeConnection : string -> string -> string -> A),
    (forall host port,
        colon_free host = true ->
        makeConnection_hostport A makeConnection (host ++ String ":" port)
        = inr (makeConnection ""%string host port))
    /\ (forall hostport,
          colon_free hostport = true ->
          makeConnection_hostport A makeConnection hostport = inl (EPort hostport))
    /\ (forall hostport,
          colon_free hostport = true \/
          exists host port,
            hostport = (host ++ String ":" port)%string /\ colon_free host = true)
    /\ (forall host port,
          colon_free host = true ->
          makeConnection_hostport A makeConnection (host ++ String ":" (decimal port))
          = inr (makeConnection_port A makeConnection host port)).
Proof.
  intros A makeConnection.
  assert (Hsplit : forall host port,
             colon_free host = true ->
             makeConnection_hostport A makeConnection (host ++ String ":" port)
             = inr (makeConnection ""%string host port)).
  { intros host port H. unfold makeConnection_hostport, makeConnection_host.
    rewrite Dial.index_colon by exact H.
    rewrite Dial.substring_head, Dial.substring_tail; [reflexivity|].
    rewrite Dial.length_append. cbn. lia. }
  split; [exact Hsplit|]. split; [|split; [exact Dial.split_colon|]].
  - intros hostport H. unfold makeConnection_hostport. now rewrite Dial.index_none.
  - intros host port H. now rewrite Hsplit.
Qed.

Lemma makeConnection_hostport_splits_witness :
  makeConnection_hostport (string * string * string) (fun l h p => (l, h, p)) "db:80:x"
  = inr (""%string, "db"%string, "80:x"%string).
Proof.
  apply (proj1 (makeConnection_hostport_splits (string * string * string)
                  (fun l h p => (l, h, p))) "db"%string "80:x"%string).
  reflexivity.
Defined.

(* ================================================================== *)
(** * Blocking reads of a message cut short *)

Module Truncated.
Import WriteFacts ReadFacts.

Lemma app_split {A} (a : list A) : forall b p q,
  a ++ b = p ++ q ->
  (exists a2, a2 <> [] /\ a = p ++ a2) \/ (exists p2, p = a ++ p2 /\ b = p2 ++ q).
Proof.
  induction a as [|x a IH]; intros b p q E.
  - right. now exists p.
  - destruct p as [|y p].
    + left. exists (x :: a). split; [discriminate | reflexivity].
    + cbn in E. injection E as -> E. destruct (IH b p q E) as [(a2 & Ha & ->)|(p2 & -> & ->)].
      * left. now exists a2.
      * right. now exists p2.
Qed.

Lemma cuts_nil {A} (m : M A) : cuts m [].
Proof. intros p q o b f E Hq. symmetry in E. apply app_eq_nil in E. now destruct E. Qed.

Lemma cuts_then {A B} (m : M A) (k : A -> M B) w : cuts m w -> cuts (bind m k) w.
Proof. intros H p q o b f E Hq. unfold bind. now rewrite (H p q o b f E Hq). Qed.

Lemma cuts_bind {A B} (m : M A) (k : A -> M B) w w2 a :
  reads_as m w a -> cuts m w -> cuts (k a) w2 -> cuts (bind m k) (w ++ w2).
Proof.
  intros Hr Hc Hk p q o b f E Hq. unfold bind.
  destruct (app_split w w2 p q E) as [(a2 & Ha & ->)|(p2 & -> & ->)].
  - now rewrite (Hc p a2 o b f eq_refl Ha).
  - rewrite Hr. exact (Hk p2 q o b f eq_refl Hq).
Qed.

Lemma cuts_recvData n w : n = len w -> cuts (recvData n) w.
Proof.
  intros -> p q o b f -> Hq. unfold recvData. cbn [inb peer_closed].
  rewrite len_app.
  destruct (N.eqb_spec (len p + len q) 0) as [E|_].
  - destruct q; [contradiction | unfold len in E; cbn in E; lia].
  - destruct (N.leb_spec (len p + len q) (len p)) as [E|_]; [|reflexivity].
    destruct q; [contradiction | unfold len in E; cbn in E; lia].
Qed.

Lemma cuts_read_scalar w x : is_scalar w x = true -> cuts (read_scalar w) (mem_of x).
Proof.
  intros H. destruct (is_scalar_inv _ _ H) as (m & -> & Hm). cbn [mem_of].
  apply cuts_then, cuts_recvData. unfold len. now rewrite Hm.
Qed.

Lemma cuts_recv_size n : cuts recv_size (le_encode 8 n).
Proof.
  apply cuts_then, cuts_recvData. unfold len. now rewrite le_encode_length.
Qed.

Lemma reads_recv_size n : (n < size_max)%N -> reads_as recv_size (le_encode 8 n) n.
Proof. intros H o rest b f. now apply recv_size_ok. Qed.

Section Shapes.
Variable key_lt : shape -> value -> value -> bool.

Local Abbreviation truncs T :=
  (forall x d, wf key_lt T x = true -> dest T d = true ->
               cuts (read key_lt T d) (wire T x)).

Lemma reads_read T x d :
  narrow_vectors T = true -> wf key_lt T x = true -> dest T d = true ->
  reads_as (read key_lt T d) (wire T x) x.
Proof. intros Hn Hx Hd o rest b f. now apply RoundTrip.read_wire. Qed.

Lemma cuts_mapM T : narrow_vectors T = true -> truncs T ->
  forall xs ds,
    length ds = length xs ->
    forallb (wf key_lt T) xs = true -> forallb (dest T) ds = true ->
    cuts (mapM (read key_lt T) ds) (concat (map (wire T) xs)).
Proof.
  intros Hn HT. induction xs as [|x xs IH]; intros [|d ds] Hl Hx Hd; try discriminate.
  - apply cuts_nil.
  - cbn [forallb] in *. bool_hyps. cbn [map concat mapM].
    apply (cuts_bind _ _ _ _ x); [now apply reads_read | now apply HT |].
    apply cuts_then, IH; auto.
Qed.

Lemma cuts_entries K T :
  narrow_vectors K = true -> narrow_vectors T = true -> truncs K -> truncs T ->
  forall kvs m,
    forallb (fun xp : value * value => wf key_lt K (fst xp) && wf key_lt T (snd xp)) kvs = true ->
    cuts (read_entries (key_lt K) (read key_lt K (default_value K))
            (read key_lt T (default_value T)) (length kvs) m)
         (wire_entries K T kvs).
Proof.
  intros HnK HnT HK HT. induction kvs as [|[k t] kvs IH]; intros m Hwf.
  - apply cuts_nil.
  - cbn [forallb fst snd] in Hwf. bool_hyps.
    unfold wire_entries. cbn [map concat fst snd length read_entries].
    rewrite <- app_assoc.
    apply (cuts_bind _ _ _ _ k);
      [apply reads_read; auto; apply dest_default | apply HK; auto; apply dest_default |].
    apply (cuts_bind _ _ _ _ t);
      [apply reads_read; auto; apply dest_default | apply HT; auto; apply dest_default |].
    now apply IH.
Qed.

Lemma cuts_variant cs :
  (forall n x, wf_nth key_lt cs n x = true -> cuts (read_nth key_lt cs n) (wire_nth cs n x)) ->
  forall x d, wf key_lt (SVariant cs) x = true ->
              cuts (read key_lt (SVariant cs) d) (wire (SVariant cs) x).
Proof.
  intros IH x d Hx. destruct x as [| |tag payload| | | | | |]; try discriminate.
  cbn [wf] in Hx. bool_props. cbn [read wire].
  apply (cuts_bind _ _ _ _ (VPrim (le_encode 4 tag))).
  - intros o rest b f.
    apply (RoundTrip.read_scalar_ok 4 (VPrim (le_encode 4 tag))).
    cbn [is_scalar]. now rewrite le_encode_length.
  - apply (cuts_read_scalar 4 (VPrim (le_encode 4 tag))). cbn [is_scalar].
    now rewrite le_encode_length.
  - cbn [mem_of]. rewrite le_decode_encode_small by (cbn; lia).
    apply cuts_then. now apply IH.
Qed.

Lemma truncs_all :
  (forall T, narrow_vectors T = true -> truncs T) /\
  (forall fs, narrow_vectors_all fs = true ->
     (forall n x, wf_nth key_lt fs n x = true ->
                  cuts (read_nth key_lt fs n) (wire_nth fs n x)) /\
     (forall xs ds, wf_seq key_lt fs xs = true -> dest_seq fs ds = true ->
                    cuts (read_seq key_lt fs ds) (wire_seq fs xs))).
Proof.
  apply shape_shapes_ind.
  - (* SPrim *) intros p _ x d Hx _. cbn [read wire]. now apply cuts_read_scalar.
  - (* SUnit *) intros _ x d _ _. apply cuts_nil.
  - (* SEnum *) intros rep meta _ x d Hx _. cbn [read wire]. now apply cuts_read_scalar.
  - (* SVariant *) intros cs IH Hn x d Hx _. exact (cuts_variant cs (proj1 (IH Hn)) x d Hx).
  - (* SNamedVariant *) intros ctors cs IH Hn x d Hx _.
    exact (cuts_variant cs (proj1 (IH Hn)) x d Hx).
  - (* SPair *) intros U IHU V IHV Hn x d Hx Hd.
    destruct x as [| | |xa xb| | | | |], d as [| | |da db| | | | |]; try discriminate.
    cbn [wf dest narrow_vectors] in *. bool_hyps. cbn [read wire].
    apply (cuts_bind _ _ _ _ xa); [now apply reads_read | now apply IHU |].
    apply cuts_then. now apply IHV.
  - (* SArray *) intros T IH n Hn x d Hx Hd.
    destruct x as [| | | |xs| | | |], d as [| | | |ds| | | |]; try discriminate.
    cbn [wf dest narrow_vectors] in *. bool_props.
    assert (Hlen : length ds = length xs) by (unfold len in *; lia).
    cbn [read wire]. destruct (can_memcpy T) eqn:Hc.
    + assert (Hsx : forallb (is_scalar (sizeof T)) xs = true)
        by (eapply forallb_impl; [|eassumption]; now apply memcpy_wf_scalar).
      pose proof (flat_mem_length _ _ Hsx) as Lx.
      assert (Hsz : size_mul (N.of_nat (sizeof T)) n = len (flat_mem xs)).
      { unfold size_mul. rewrite N.mod_small by assumption. unfold len in *. lia. }
      rewrite take_all by exact Hsz. apply cuts_then. now apply cuts_recvData.
    + apply cuts_then. now apply cuts_mapM; auto.
  - (* SVector *) intros T IH Hn x d Hx Hd.
    destruct x as [| | | | |xs| | |], d as [| | | | |ds| | |]; try discriminate.
    cbn [wf dest narrow_vectors] in *. bool_hyps.
    assert (HnT : narrow_vectors T = true) by assumption.
    assert (Hwx : forallb (wf key_lt T) xs = true) by assumption.
    assert (Hdd : forallb (dest T) ds = true) by assumption.
    bool_props. cbn [read wire].
    apply (cuts_bind _ _ _ _ (len xs)); [now apply reads_recv_size | apply cuts_recv_size |].
    cbv zeta.
    pose proof (resize_length (len xs) (default_value T) ds) as Hrl.
    destruct (can_memcpy T) eqn:Hc; bool_props.
    + assert (Hw1 : sizeof T = 1) by assumption.
      pose proof (RoundTrip.narrow_scalar_flat key_lt T xs Hc Hw1 Hwx) as Lx.
      destruct (N.ltb_spec 0 (len xs)) as [Hpos|Hz]; [|apply cuts_nil].
      assert (Hsz : size_mul (N.of_nat (sizeof T)) (len xs) = len (flat_mem xs)).
      { unfold size_mul. rewrite N.mod_small by assumption. unfold len. lia. }
      rewrite take_all by exact Hsz. apply cuts_then, cuts_recvData. unfold len. lia.
    + apply cuts_then, cuts_mapM; auto.
      * rewrite Hrl. unfold len. lia.
      * apply resize_forallb; [apply dest_default | assumption].
  - (* SMap *) intros K IHK T IHT Hn x d Hx Hd.
    destruct x as [| | | | | |kvs| |], d as [| | | | | |[|]| |]; try discriminate.
    cbn [wf narrow_vectors] in *. bool_props. cbn [read wire].
    apply (cuts_bind _ _ _ _ (len kvs)); [now apply reads_recv_size | apply cuts_recv_size |].
    replace (N.to_nat (len kvs)) with (length kvs) by (unfold len; lia).
    apply cuts_then. fold (wire_entries K T kvs). apply cuts_entries; auto.
  - (* SString *) intros _ x d Hx _. destruct x as [| | | | | | |cs|]; try discriminate.
    cbn [wf] in Hx. bool_props. cbn [read wire].
    apply (cuts_bind _ _ _ _ (len cs)); [now apply reads_recv_size | apply cuts_recv_size |].
    apply cuts_then. now apply cuts_recvData.
  - (* STuple *) intros fs IH Hn x d Hx Hd.
    destruct x, d; try discriminate. cbn [wf dest narrow_vectors] in *.
    cbn [read wire]. apply cuts_then. now apply (proj2 (IH Hn)).
  - (* SStruct *) intros names fs IH Hn x d Hx Hd.
    destruct x, d; try discriminate. cbn [wf dest narrow_vectors] in *.
    cbn [read wire]. apply cuts_then. now apply (proj2 (IH Hn)).
  - (* SAlias *) intros name RT IH Hn x d Hx Hd.
    cbn [wf dest narrow_vectors read wire] in *. now apply IH.
  - (* SNil *) intros _. split.
    + intros n x Hx. destruct n; discriminate.
    + intros xs ds Hx Hd. destruct xs; [apply cuts_nil | discriminate].
  - (* SCons *) intros h IHh t IHt Hn. cbn [narrow_vectors_all] in Hn. bool_hyps.
    assert (Hh : narrow_vectors h = true) by assumption.
    assert (Ht : narrow_vectors_all t = true) by assumption.
    destruct (IHt Ht) as [IHn IHs]. split.
    + intros n x Hx. destruct n; cbn [wf_nth read_nth wire_nth] in *.
      * apply IHh; auto. apply dest_default.
      * now apply IHn.
    + intros xs ds Hx Hd. destruct xs as [|x xs], ds as [|d ds]; try discriminate.
      cbn [wf_seq dest_seq] in *. bool_hyps. cbn [read_seq wire_seq].
      apply (cuts_bind _ _ _ _ x); [now apply reads_read | now apply IHh |].
      apply cuts_then. now apply IHs.
Qed.

End Shapes.
End Truncated.

(** X13. Where no vector of scalars wider than a byte is inside the shape,
    a message cut short is not taken for a value. When the peer closes the
    session after a proper prefix of the bytes of an object, the blocking
    reader throws "Remote process closed session prematurely", having
    consumed what there was; and a synchronous call whose reply is cut short
    throws the same, after writing its request. ([resize] is taken not to
    throw: the lengths are those of an object that exists.) *)
Theorem read_truncated :
  forall key_lt T x p q,
    narrow_vectors T = true -> wf key_lt T x = true ->
    wire T x = p ++ q -> q <> [] ->
    (forall d o b f,
        dest T d = true ->
        read key_lt T d (mkSocket o p true b f) = (Err EClosed, mkSocket o [] true b f))
    /\ (forall exprid Args args o b,
          wf_seq key_lt Args args = true ->
          RPCFunc_call key_lt exprid Args T args (mkSocket o p true b false) =
          (Err EClosed,
           mkSocket (o ++ [x02] ++ le_encode 4 exprid ++ wire (STuple Args) (VTuple args))
             [] true b false)).
Proof.
  intros key_lt T x p q Hn Hx E Hq.
  assert (H : forall d o b f,
             dest T d = true ->
             read key_lt T d (mkSocket o p true b f) = (Err EClosed, mkSocket o [] true b f)).
  { intros d o b f Hd.
    exact (proj1 (Truncated.truncs_all key_lt) T Hn x d Hx Hd p q o b f E Hq). }
  split; [exact H|].
  intros exprid Args args o b Ha.
  rewrite (proj1 (CallFacts.call_frame key_lt exprid Args args o p true b Ha)).
  apply H, (proj1 ReadFacts.dest_default).
Qed.

Lemma read_truncated_witness :
  let T := SPair SString (SVector (SPrim Tuint8)) in
  read unsigned_lt T (default_value T)
    (mkSocket [] [x02; x00; x00; x00; x00; x00; x00; x00; x68; x69; x03; x00] true true false)
  = (Err EClosed, mkSocket [] [] true true false).
Proof.
  intros T.
  apply (proj1 (read_truncated unsigned_lt T
                  (VPair (VString [x68; x69]) (VVector [VPrim [x01]; VPrim [x02]; VPrim [x03]]))
                  [x02; x00; x00; x00; x00; x00; x00; x00; x68; x69; x03; x00]
                  [x00; x00; x00; x00; x00; x00; x01; x02; x03]
                  ltac:(vm_compute; reflexivity) ltac:(vm_compute; reflexivity)
                  ltac:(vm_compute; reflexivity) ltac:(discriminate))).
  vm_compute; reflexivity.
Defined.

(* ================================================================== *)
(** * Descriptors of variants, results of type unit *)

Module VariantDesc.

Lemma variants_cut_types :
  (forall T, type_of (variants_cut T) = type_of T) /\
  (forall fs, types_of (variants_cut_all fs) = types_of fs /\
              forall i, accFields i (variants_cut_all fs) = accFields i fs).
Proof.
  apply shape_shapes_ind; intros; try apply conj; intros;
    cbn [variants_cut variants_cut_all type_of types_of accFields];
    try reflexivity;
    repeat match goal with H : _ /\ _ |- _ => destruct H end;
    try congruence.
  - (* SVariant *)
    destruct cs as [|h [|h' t]]; cbn [variants_cut_all cut_two types_of type_of] in *;
      try reflexivity;
      repeat match goal with H : _ :: _ = _ :: _ |- _ => injection H as ? ? end;
      congruence.
  - (* STuple *)
    destruct fs; cbn [variants_cut_all] in *; [reflexivity|].
    match goal with H : forall i, _ = _ |- _ => now rewrite H end.
Qed.

End VariantDesc.

(** X14. The descriptor of an anonymous variant lists its first two
    constructors and no other: cutting every anonymous variant of a
    signature down to its first two constructors changes neither a
    descriptor nor an RPC definition, so the peer is told the same for
    [variant<A,B,C>] as for [variant<A,B>]. *)
Theorem variant_descriptor_two_constructors :
  (forall T, type_of (variants_cut T) = type_of T)
  /\ (forall c0 c1 rest,
        type_of (SVariant (SCons c0 (SCons c1 rest))) =
        ty.variant [(field_name 0, 0%Z, type_of c0); (field_name 1, 1%Z, type_of c1)])
  /\ (forall encoding exprid e R Args,
        makeRPCDef encoding exprid e (option_map variants_cut R) (variants_cut_all Args) =
        makeRPCDef encoding exprid e R Args).
Proof.
  split; [apply VariantDesc.variants_cut_types|]. split; [reflexivity|].
  intros encoding exprid e R Args. unfold makeRPCDef, inputType, outputType.
  f_equal.
  - f_equal.
    change (type_of (variants_cut (STuple Args)) = type_of (STuple Args)).
    apply VariantDesc.variants_cut_types.
  - destruct R as [T|]; [cbn [option_map]|reflexivity].
    f_equal. apply VariantDesc.variants_cut_types.
Qed.

(** X15. A call whose result type is [unit] waits for no reply. The
    synchronous stub does what the stub of a [void] function does and
    returns the unit value, and the two are declared with the same result
    type. The asynchronous stub finishes at the [step] that finds it at the
    head of the queue, whatever the socket holds, also when nothing has
    arrived or the peer has closed: its continuation is invoked and no byte
    is read. *)
Theorem unit_result_reads_nothing :
  forall key_lt,
    (forall exprid Args args s,
        RPCFunc_call key_lt exprid Args SUnit args s =
        match RPCFunc_call_void exprid Args args s with
        | (Ok _, s') => (Ok VUnit, s')
        | (Err e, s') => (Err e, s')
        end)
    /\ (forall encoding, outputType encoding (Some SUnit) = outputType encoding None)
    /\ (forall c i q Args e k ks r pr s,
          asyncReaders c = i :: q ->
          nth_error (stubs c) i = Some (AsyncFn Args SUnit e (k :: ks) r pr) ->
          step key_lt c s =
          step key_lt
            (mkAsyncClient (set_nth (stubs c) i (AsyncFn Args SUnit e ks VUnit pr))
               q (fired c ++ [(k, r)])) s).
Proof.
  intros key_lt. split; [|split].
  - intros exprid Args args s. unfold RPCFunc_call, RPCFunc_call_void, bind.
    destruct (write (SPrim Tuint8) (VPrim [HNET_CMD_INVOKE]) s) as [[[]|e1] s1]; [|reflexivity].
    destruct (write (SPrim Tuint32) (VPrim (le_encode 4 exprid)) s1) as [[[]|e2] s2];
      [|reflexivity].
    destruct (oSeq_write Args args s2) as [[[]|e3] s3]; reflexivity.
  - reflexivity.
  - intros c i q Args e k ks r pr s Hq Hi.
    exact (Pipeline.step_head key_lt c i q Args SUnit e k ks r pr s true pr r s Hq Hi eq_refl).
Qed.

Lemma unit_result_reads_nothing_witness :
  let c := mkAsyncClient [AsyncFn SNil SUnit 1 [10%nat] VUnit RFresh] [0%nat] [] in
  step unsigned_lt c (mkSocket [] [] true false false) =
  step unsigned_lt
    (mkAsyncClient (set_nth (stubs c) 0 (AsyncFn SNil SUnit 1 [] VUnit RFresh))
       [] (fired c ++ [(10%nat, VUnit)])) (mkSocket [] [] true false false).
Proof.
  intros c.
  apply (proj2 (proj2 (unit_result_reads_nothing unsigned_lt)) c 0%nat [] SNil 1%N 10%nat []
           VUnit RFresh); reflexivity.
Defined.

(* ================================================================== *)
(** * Maps of maps, read by the resumable reader *)

Module NestedMap.
Import WriteFacts ReadFacts Resume.

Section Reader.
Variable key_lt : shape -> value -> value -> bool.
Variables K K2 T2 : shape.
Hypothesis HsK : steady K = true.
Hypothesis HmK : mapfree K = true.
Hypothesis HsK2 : steady K2 = true.
Hypothesis HsT2 : steady T2 = true.
Hypothesis HmK2 : mapfree K2 = true.
Hypothesis HmT2 : mapfree T2 = true.

Local Abbreviation T := (SMap K2 T2).
Local Abbreviation f := (accum key_lt (SMap K T)).

(** The reader of the values, on the value under construction. *)
Lemma inner_run m2 mt tS :
  wf key_lt T (VMap m2) = true -> state_ok T tS = true ->
  exists tS',
    run (accum key_lt T) (wire T (VMap m2)) (prepare T tS) (VMap mt) tS'
        (VMap (insert_all (key_lt K2) m2 mt))
    /\ state_ok T tS' = true.
Proof.
  intros Hwf Hts. cbn [wf] in Hwf. bool_props.
  apply (map_run key_lt K2 T2 (proj1 (runs_all key_lt) K2 HsK2)
           (proj1 (runs_all key_lt) T2 HsT2) HmK2 HmT2); assumption.
Qed.

Lemma nested_chain lenS : forall kvs m kS k tS mt,
  kvs <> [] -> (len kvs < size_max)%N ->
  forallb (fun xp : value * value => wf key_lt K (fst xp) && wf key_lt T (snd xp)) kvs = true ->
  state_ok K kS = true -> dest K k = true -> state_ok T tS = true ->
  exists kS' k' tS' mt',
    run f (wire_entries K T kvs) (RMap KS lenS (len kvs) (prepare K kS) k tS (VMap mt)) (VMap m)
        (RMap KS lenS 0 (prepare K kS') k' tS' (VMap mt'))
        (VMap (insert_all (key_lt K) (leak (key_lt K2) mt kvs) m))
    /\ state_ok K kS' = true /\ dest K k' = true /\ state_ok T tS' = true.
Proof.
  induction kvs as [|[kx vx] kvs IH]; intros m kS k tS mt Hne Hlen Hwf HkS Hk HtS;
    [contradiction|].
  cbn [forallb fst snd] in Hwf. apply andb_prop in Hwf. destruct Hwf as [Hwf Hrest].
  apply andb_prop in Hwf. destruct Hwf as [Hkx Hvx].
  destruct vx as [| | | | | |m2| |]; try discriminate.
  destruct (proj1 (runs_all key_lt) K HsK kx k kS Hkx Hk HkS)
    as (kS1 & (iK & lK & o1 & x1 & EK & QK & TK) & SK).
  destruct (inner_run m2 mt tS Hvx HtS) as (tS1 & (iT & lT & o2 & x2 & ET & QT & TT) & ST).
  set (mt1 := insert_all (key_lt K2) m2 mt) in *.
  set (n := len ((kx, VMap m2) :: kvs)).
  assert (Hn : n <> 0%N) by (subst n; lenlia).
  assert (Qk : quiet f (iK ++ [lK]) (RMap KS lenS n (prepare K kS) k tS (VMap mt)) (VMap m)
                 (RMap TS lenS n kS1 kx (prepare T tS) (VMap mt)) (VMap m)).
  { eapply quiet_app.
    - apply (quiet_wrap f (accum key_lt K)
               (fun s y => (RMap KS lenS n s y tS (VMap mt), VMap m))); [|exact QK].
      intros b o x o' x' Hti. cbn [fst snd].
      exact (map_tick_k key_lt K T b o x false o' x' lenS n tS (VMap mt) m Hn Hti).
    - apply quiet_one.
      exact (map_tick_k key_lt K T lK o1 x1 true kS1 kx lenS n tS (VMap mt) m Hn TK). }
  assert (Qt : quiet f iT (RMap TS lenS n kS1 kx (prepare T tS) (VMap mt)) (VMap m)
                 (RMap TS lenS n kS1 kx o2 x2) (VMap m)).
  { apply (quiet_wrap f (accum key_lt T) (fun s y => (RMap TS lenS n kS1 kx s y, VMap m)));
      [|exact QT].
    intros b o x o' x' Hti. cbn [fst snd].
    exact (map_tick_t key_lt K T b o x false o' x' lenS n kS1 kx m Hn Hlen Hti). }
  pose proof (map_tick_t key_lt K T lT o2 x2 true tS1 (VMap mt1) lenS n kS1 kx m Hn Hlen TT)
    as Hlast.
  cbn [andb] in Hlast.
  unfold wire_entries. cbn [map concat fst snd]. fold (wire_entries K T kvs).
  cbn [leak entries_of]. fold mt1.
  unfold insert_all at 1. cbn [fold_left fst snd].
  fold (insert_all (key_lt K) (leak (key_lt K2) mt1 kvs)).
  rewrite EK, ET.
  assert (Dk : dest K kx = true) by (apply (proj1 (wf_dest key_lt)); [exact HmK | exact Hkx]).
  destruct kvs as [|e kvs].
  - exists kS1, kx, tS1, mt1. repeat split; try assumption.
    unfold wire_entries. cbn [map concat leak insert_all fold_left]. rewrite app_nil_r.
    rewrite app_assoc. eapply run_intro; [eapply quiet_app; [exact Qk | exact Qt]|].
    replace (n =? 1)%N with true in Hlast by (symmetry; apply N.eqb_eq; subst n; lenlia).
    replace (n - 1)%N with 0%N in Hlast by (subst n; lenlia).
    exact Hlast.
  - destruct (IH (StdMap.insert (key_lt K) kx (VMap mt1) m) kS1 kx tS1 mt1)
      as (kS' & k' & tS' & mt' & Hrun & R1 & R2 & R3); try assumption; try discriminate.
    + subst n. lenlia.
    + exists kS', k', tS', mt'. repeat split; try assumption.
      replace (n =? 1)%N with false in Hlast by (symmetry; apply N.eqb_neq; subst n; lenlia).
      replace (n - 1)%N with (len (e :: kvs)) in Hlast by (subst n; lenlia).
      rewrite <- app_assoc. eapply quiet_run; [exact Qk|].
      rewrite <- app_assoc. eapply quiet_run; [exact Qt|].
      eapply quiet_run; [apply quiet_one; exact Hlast | exact Hrun].
Qed.

Lemma nested_run kvs m0 :
  wf key_lt (SMap K T) (VMap kvs) = true ->
  exists o',
    run f (wire (SMap K T) (VMap kvs)) (prepare (SMap K T) RFresh) (VMap m0) o'
        (VMap (insert_all (key_lt K) (leak (key_lt K2) [] kvs) m0)).
Proof.
  intros Hwf. cbn [wf] in Hwf. apply andb_prop in Hwf. destruct Hwf as [Hwf _].
  apply andb_prop in Hwf. destruct Hwf as [Hlen Hwf]. apply N.ltb_lt in Hlen.
  cbn [prepare wire Field.len Field.kS Field.k Field.tS Field.t default_value].
  fold (wire_entries K T kvs).
  destruct (size_phase f (fun lenS n => RMap LenS lenS n RFresh (default_value K) RFresh (VMap []))
              (VMap m0) (len kvs) 0)
    as (first7 & b7 & n7 & E & Hq & Hlast); [assumption| |].
  { intros i n b Hi out c bl fl. cbn [accum]. unfold bind.
    rewrite size_tick by lia.
    replace (Nat.eqb (S i) 8) with false by (symmetry; apply Nat.eqb_neq; lia).
    reflexivity. }
  assert (Hb7 : tick f b7 (RMap LenS (RCount 7) n7 RFresh (default_value K) RFresh (VMap []))
                  (VMap m0) (len kvs =? 0)%N
                  (RMap KS (RCount 8) (len kvs) (prepare K RFresh) (default_value K) RFresh
                     (VMap []))
                  (VMap m0)).
  { intros out c bl fl. cbn [accum]. unfold bind. rewrite Hlast. reflexivity. }
  rewrite E.
  destruct kvs as [|e kvs].
  - eexists. unfold wire_entries. cbn [map concat leak insert_all fold_left].
    rewrite app_nil_r. eapply run_intro; [exact Hq | exact Hb7].
  - replace (len (e :: kvs) =? 0)%N with false in Hb7 by (symmetry; apply N.eqb_neq; lenlia).
    destruct (nested_chain (RCount 8) (e :: kvs) m0 RFresh (default_value K) RFresh [])
      as (kS' & k' & tS' & mt' & Hrun & _); try assumption; try discriminate.
    + apply state_ok_fresh.
    + apply (proj1 dest_default).
    + apply (state_ok_fresh T).
    + eexists. rewrite <- app_assoc. eapply quiet_run; [exact Hq|].
      eapply quiet_run; [apply quiet_one; exact Hb7 | exact Hrun].
Qed.

End Reader.
End NestedMap.

(** X16. The resumable reader of a map whose values are maps does not
    start each value from an empty map: the value it builds is kept from one
    entry to the next, so the value read for an entry holds, besides its own
    entries, those of the values of the entries before it (an entry that is
    there stays). Fed the bytes written for such a map one at a time, a
    fresh reader returns [true] with the last byte, and the map it has built
    is the one with these values. *)
Theorem nested_map_values_accumulate :
  forall key_lt K K2 T2 kvs out c bl fl,
    steady K = true -> mapfree K = true ->
    steady K2 = true -> steady T2 = true -> mapfree K2 = true -> mapfree T2 = true ->
    wf key_lt (SMap K (SMap K2 T2)) (VMap kvs) = true ->
    exists o',
      drive (accum key_lt (SMap K (SMap K2 T2))) (wire (SMap K (SMap K2 T2)) (VMap kvs))
        (prepare (SMap K (SMap K2 T2)) RFresh) (VMap []) (mkSocket out [] c bl fl)
      = (Ok (repeat false (length (wire (SMap K (SMap K2 T2)) (VMap kvs)) - 1) ++ [true],
             o', VMap (insert_all (key_lt K) (leak (key_lt K2) [] kvs) [])),
         mkSocket out [] c bl fl).
Proof.
  intros key_lt K K2 T2 kvs out c bl fl HsK HmK HsK2 HsT2 HmK2 HmT2 Hwf.
  destruct (NestedMap.nested_run key_lt K K2 T2 HsK HmK HsK2 HsT2 HmK2 HmT2 kvs [] Hwf)
    as (o' & Hrun).
  exists o'. now apply Resume.run_drive.
Qed.

Lemma nested_map_values_accumulate_witness :
  let u8 := SPrim Tuint8 in
  let a := VPrim [x01] in
  let b := VPrim [x02] in
  let kvs := [(a, VMap [(a, a)]); (b, VMap [(b, b)])] in
  exists o',
    drive (accum unsigned_lt (SMap u8 (SMap u8 u8))) (wire (SMap u8 (SMap u8 u8)) (VMap kvs))
      (prepare (SMap u8 (SMap u8 u8)) RFresh) (VMap []) (mkSocket [] [] false false false)
    = (Ok (repeat false (length (wire (SMap u8 (SMap u8 u8)) (VMap kvs)) - 1) ++ [true],
           o', VMap (insert_all (unsigned_lt u8) (leak (unsigned_lt u8) [] kvs) [])),
       mkSocket [] [] false false false)
    /\ insert_all (unsigned_lt u8) (leak (unsigned_lt u8) [] kvs) []
       = [(a, VMap [(a, a)]); (b, VMap [(a, a); (b, b)])].
Proof.
  intros u8 a b kvs.
  destruct (nested_map_values_accumulate unsigned_lt u8 u8 u8 kvs [] false false false)
    as (o' & E); try (vm_compute; reflexivity).
  exists o'. split; [exact E | vm_compute; reflexivity].
Defined.

(* ================================================================== *)
(** * C strings are written as strings *)

Module Strings.

Lemma strlen_nul cs : forall tail,
  nul_free cs = true -> strlen (cs ++ x00 :: tail) = length cs.
Proof.
  induction cs as [|c cs IH]; intros tail H; [reflexivity|].
  cbn [nul_free forallb] in H. apply andb_prop in H. destruct H as [Hc H].
  apply negb_true_iff in Hc. cbn [app strlen length]. rewrite Hc. now rewrite IH.
Qed.

Lemma firstn_head {A} (cs : list A) tail : firstn (length cs) (cs ++ tail) = cs.
Proof. rewrite firstn_app, Nat.sub_diag, firstn_all. cbn. apply app_nil_r. Qed.

End Strings.

(** X17. A C string is written as the [std::string] of its characters up
    to the first NUL: the length [strlen(x)] and that many bytes; what
    follows the NUL in memory is never sent. So the reader of [std::string]
    reads, from what was written for a C string, the characters before the
    first NUL. *)
Theorem cstring_written_as_string :
  forall key_lt cs tail,
    nul_free cs = true ->
    (forall s, write_cstr (cs ++ x00 :: tail) s = write SString (VString cs) s)
    /\ ((len cs < size_max)%N ->
        forall d o i c b o' rest c' b' f',
          write_cstr (cs ++ x00 :: tail) (mkSocket o i c b false)
          = (Ok tt, mkSocket (o ++ wire SString (VString cs)) i c b false)
          /\ read key_lt SString d (mkSocket o' (wire SString (VString cs) ++ rest) c' b' f')
             = (Ok (VString cs), mkSocket o' rest c' b' f')).
Proof.
  intros key_lt cs tail H.
  assert (E : forall s, write_cstr (cs ++ x00 :: tail) s = write SString (VString cs) s).
  { intros s. unfold write_cstr. rewrite Strings.strlen_nul by exact H.
    now rewrite Strings.firstn_head. }
  split; [exact E|].
  intros Hl d o i c b o' rest c' b' f'. split.
  - rewrite E. apply (WriteFacts.write_wire key_lt). cbn [wf]. now apply N.ltb_lt.
  - change (read key_lt SString d) with (read key_lt SString (VString [])).
    apply (RoundTrip.read_wire key_lt); [reflexivity | | reflexivity].
    cbn [wf]. now apply N.ltb_lt.
Qed.

Lemma cstring_written_as_string_witness :
  write_cstr ([x68; x69] ++ x00 :: [x21; x21]) (mkSocket [] [] false true false)
  = write SString (VString [x68; x69]) (mkSocket [] [] false true false).
Proof.
  apply (proj1 (cstring_written_as_string unsigned_lt [x68; x69] [x21; x21]
                  ltac:(vm_compute; reflexivity))).
Defined.

(* ================================================================== *)
(** * Vectors of scalars read by the blocking reader *)

Module WideVector.
Import WriteFacts ReadFacts.

Lemma default_memcpy T :
  can_memcpy T = true -> default_value T = VPrim (repeat x00 (sizeof T)).
Proof.
  induction T; cbn [can_memcpy sizeof default_value]; try discriminate; auto.
  destruct (can_memcpy T); discriminate.
Qed.

Lemma flat_mem_repeat w n :
  flat_mem (repeat (VPrim (repeat x00 w)) n) = repeat x00 (w * n).
Proof.
  induction n as [|n IH]; [now rewrite Nat.mul_0_r|].
  cbn [repeat]. rewrite flat_mem_cons, IH. cbn [mem_of].
  rewrite <- repeat_app. f_equal. lia.
Qed.

Lemma skipn_repeat {A} (a : A) k : forall n, skipn k (repeat a n) = repeat a (n - k).
Proof.
  induction k as [|k IH]; intros n; [now rewrite Nat.sub_0_r|].
  destruct n; [reflexivity|]. cbn [repeat skipn]. apply IH.
Qed.

Lemma wire_memcpy_vector T xs key_lt :
  can_memcpy T = true ->
  wf key_lt (SVector T) (VVector xs) = true ->
  wire (SVector T) (VVector xs) = le_encode 8 (len xs) ++ flat_mem xs
  /\ length (flat_mem xs) = sizeof T * length xs
  /\ forallb (is_scalar (sizeof T)) xs = true
  /\ (len xs < size_max)%N.
Proof.
  intros HT H. cbn [wf] in H. bool_hyps.
  assert (Hs : forallb (is_scalar (sizeof T)) xs = true).
  { rewrite forallb_forall in *. intros x Hx. apply (memcpy_wf_scalar key_lt); auto. }
  pose proof (flat_mem_length _ _ Hs) as Hl.
  split; [|split; [exact Hl|split; [exact Hs|now apply N.ltb_lt]]].
  cbn [wire]. rewrite HT. f_equal.
  destruct xs as [|x xs]; [reflexivity|].
  replace (0 <? len (x :: xs))%N with true by (symmetry; apply N.ltb_lt; unfold len; cbn; lia).
  unfold take, size_mul. apply N.ltb_lt in H1.
  rewrite N.mod_small by exact H1.
  apply firstn_all2. rewrite Hl. unfold len. lia.
Qed.

End WideVector.

(** X18. The blocking reader of a [std::vector] of scalars of width [w]
    takes the element count [n] for the number of bytes to read. From the
    bytes written for a vector it reads the first [n] of the [w*n] bytes of
    the elements over the storage of [n] value-initialised elements, and
    leaves the other [(w-1)*n] bytes of the message in the socket, before
    whatever follows. So it returns the vector that was written when the
    elements are one byte wide, and otherwise a non-empty vector leaves
    bytes of its own behind. *)
Theorem vector_blocking_read_counts_elements :
  forall key_lt T xs rest o c b f,
    can_memcpy T = true ->
    wf key_lt (SVector T) (VVector xs) = true ->
    let n := length xs in
    let w := sizeof T in
    read key_lt (SVector T) (VVector [])
      (mkSocket o (wire (SVector T) (VVector xs) ++ rest) c b f)
    = (Ok (VVector (unflat w n (firstn n (flat_mem xs) ++ repeat x00 (w * n - n)))),
       mkSocket o (skipn n (flat_mem xs) ++ rest) c b f)
    /\ length (skipn n (flat_mem xs)) = (w - 1) * n
    /\ (w = 1 ->
        unflat w n (firstn n (flat_mem xs) ++ repeat x00 (w * n - n)) = xs
        /\ skipn n (flat_mem xs) = []).
Proof.
  intros key_lt T xs rest o c b f HT H n w. subst n w.
  destruct (WideVector.wire_memcpy_vector T xs key_lt HT H) as (Hw & Hl & Hs & Hn).
  pose proof (Resume.memcpy_sizeof T HT) as Hsz.
  assert (Hk : length (skipn (length xs) (flat_mem xs)) = (sizeof T - 1) * length xs).
  { rewrite length_skipn, Hl. nia. }
  split; [|split; [exact Hk|]].
  - rewrite Hw, <- app_assoc.
    cbn [read]. unfold bind at 1.
    rewrite recv_size_ok by exact Hn.
    rewrite HT.
    unfold resize. cbn [length]. rewrite firstn_nil. cbn [app].
    rewrite Nat.sub_0_r, Resume.len_nat.
    destruct (N.ltb_spec 0 (len xs)) as [Hp|Hp].
    + rewrite <- (firstn_skipn (length xs) (flat_mem xs)) at 1. rewrite <- app_assoc.
      unfold bind.
      rewrite recvData_n
        with (bs := firstn (length xs) (flat_mem xs))
        by (unfold len; rewrite length_firstn, Hl; f_equal; symmetry; apply Nat.min_l; nia).
      unfold ret. do 3 f_equal.
      unfold blit. cbn [N.to_nat firstn app Nat.add].
      rewrite WideVector.default_memcpy by exact HT.
      rewrite WideVector.flat_mem_repeat, WideVector.skipn_repeat.
      rewrite length_firstn, Hl, Nat.min_l by nia. reflexivity.
    + assert (E : xs = []) by (destruct xs; [reflexivity | unfold len in Hp; cbn in Hp; lia]).
      subst xs. reflexivity.
  - intros Hw1. rewrite Hw1 in *. split.
    + replace (1 * length xs - length xs) with 0 by lia. cbn [repeat]. rewrite app_nil_r.
      rewrite firstn_all2 by lia. apply ReadFacts.unflat_flat. exact Hs.
    + apply length_zero_iff_nil. rewrite Hk. lia.
Qed.

Lemma vector_blocking_read_counts_elements_witness :
  read unsigned_lt (SVector (SPrim Tuint16)) (VVector [])
    (mkSocket []
       (wire (SVector (SPrim Tuint16)) (VVector [VPrim [x01; x02]; VPrim [x03; x04]]) ++ [xff])
       false true false)
  = (Ok (VVector [VPrim [x01; x02]; VPrim [x00; x00]]),
     mkSocket [] [x03; x04; xff] false true false).
Proof.
  exact (proj1 (vector_blocking_read_counts_elements unsigned_lt (SPrim Tuint16)
                  [VPrim [x01; x02]; VPrim [x03; x04]] [xff] [] false true false
                  eq_refl eq_refl)).
Defined.
